(** * TapRaceMatchmaker: a shallow embedding of backend/src/matchmaker.ts

    The matchmaker is a single-threaded socket.io event handler.  Every
    handler is modelled as a function from the matchmaker state to the new
    state and the list of effects (emissions, room joins, timers) it
    performs, in program order.

    Modelling conventions.
    - JavaScript numbers that hold counters and server timestamps are
      integers ([Z]); every arithmetic operation the class performs on them
      (subtraction, increment, [1000 / 10]) is exact on the integers that
      [Date.now()] and the counters range over.
    - The timestamp of a tap message comes from the client and is not
      checked before it is used in arithmetic: it is a [JsNumber], which is
      a whole number of milliseconds, an infinity or NaN.
    - [Date.now()] is read once per handler run and passed as [now].
    - [uuidv4()] is passed as the argument [uuid] of the operation that
      consumes it.
    - [console.log]/[console.warn] are not modelled.
    - A [Map] whose iteration order the code observes ([queue.players],
      [match.players], [matches]) is an association list in insertion order;
      the two indices, which are only probed by key, are [gmap]s. *)

From stdpp Require Import gmap strings list fin_maps sorting.
From Stdlib Require Import ZArith Lia.

Local Open Scope string_scope.
Local Open Scope list_scope.
Local Open Scope Z_scope.

(** ** JavaScript [Map] with observable insertion order *)

Section JSMap.
Context {V : Type}.

Fixpoint jsmap_get (k : string) (m : list (string * V)) : option V :=
  match m with
  | [] => None
  | (k', v) :: r => if decide (k = k') then Some v else jsmap_get k r
  end.

Definition jsmap_has (k : string) (m : list (string * V)) : bool :=
  match jsmap_get k m with Some _ => true | None => false end.

(** [Map.prototype.set]: an existing key keeps its position, a new key
    goes last. *)
Fixpoint jsmap_set (k : string) (v : V) (m : list (string * V)) : list (string * V) :=
  match m with
  | [] => [(k, v)]
  | (k', v') :: r =>
      if decide (k = k') then (k, v) :: r else (k', v') :: jsmap_set k v r
  end.

Fixpoint jsmap_delete (k : string) (m : list (string * V)) : list (string * V) :=
  match m with
  | [] => []
  | (k', v') :: r =>
      if decide (k = k') then jsmap_delete k r else (k', v') :: jsmap_delete k r
  end.

Definition jsmap_keys (m : list (string * V)) : list string := m.*1.
Definition jsmap_values (m : list (string * V)) : list V := m.*2.
Definition jsmap_size (m : list (string * V)) : nat := length m.
End JSMap.

Abbreviation JSMap V := (list (string * V)).

(** ** Data model (interfaces [Player], [GameMatch]) *)

Module Player.
Record t : Type := mk {
  id : string;
  socketId : string;
  username : string;
  taps : Z;
  isReady : bool;
  lastTapTimestamp : Z;
  validatedTaps : Z;
}.

Definition with_isReady (b : bool) (p : t) : t :=
  mk (id p) (socketId p) (username p) (taps p) b (lastTapTimestamp p) (validatedTaps p).
Definition with_lastTapTimestamp (x : Z) (p : t) : t :=
  mk (id p) (socketId p) (username p) (taps p) (isReady p) x (validatedTaps p).
Definition with_taps (x : Z) (p : t) : t :=
  mk (id p) (socketId p) (username p) x (isReady p) (lastTapTimestamp p) (validatedTaps p).
Definition with_validatedTaps (x : Z) (p : t) : t :=
  mk (id p) (socketId p) (username p) (taps p) (isReady p) (lastTapTimestamp p) x.
End Player.

Inductive Status : Type := waiting | starting | active | finished.

#[global] Instance Status_eq_dec : EqDecision Status.
Proof. solve_decision. Defined.

Module GameMatch.
Record t : Type := mk {
  id : string;
  players : JSMap Player.t;
  status : Status;
  startTime : option Z;
  endTime : option Z;
  duration : Z;
  winner : option string;
}.

Definition with_players (ps : JSMap Player.t) (m : t) : t :=
  mk (id m) ps (status m) (startTime m) (endTime m) (duration m) (winner m).
Definition with_status (st : Status) (m : t) : t :=
  mk (id m) (players m) st (startTime m) (endTime m) (duration m) (winner m).
Definition with_startTime (x : option Z) (m : t) : t :=
  mk (id m) (players m) (status m) x (endTime m) (duration m) (winner m).
Definition with_endTime (x : option Z) (m : t) : t :=
  mk (id m) (players m) (status m) (startTime m) x (duration m) (winner m).
Definition with_winner (x : option string) (m : t) : t :=
  mk (id m) (players m) (status m) (startTime m) (endTime m) (duration m) x.
End GameMatch.

(** ** Class constants *)

Definition MATCH_SIZE : nat := 2.
Definition MATCH_DURATION : Z := 30000.
Definition TAP_VALIDATION_WINDOW : Z := 100.
Definition MAX_TAPS_PER_SECOND : Z := 10.

(** ** Tap validation ([validateTap], lines 255-272) *)

(** The number that [currentTime - timestamp] works on.  The handler is
    typed [timestamp: number], and nothing checks the payload of the socket
    message at run time: a field that is missing or not numeric reaches the
    subtraction as NaN. *)
Inductive JsNumber : Type :=
  | Num (z : Z)
  | PosInf
  | NegInf
  | NaN.

Coercion Num : Z >-> JsNumber.

(** [a - b] for a finite [a]. *)
Definition js_sub (a : Z) (b : JsNumber) : JsNumber :=
  match b with
  | Num z => Num (a - z)
  | PosInf => NegInf
  | NegInf => PosInf
  | NaN => NaN
  end.

(** [Math.abs]. *)
Definition js_abs (x : JsNumber) : JsNumber :=
  match x with
  | Num z => Num (Z.abs z)
  | PosInf | NegInf => PosInf
  | NaN => NaN
  end.

(** [x > c] for a finite [c]: every comparison with NaN is false. *)
Definition js_gt (x : JsNumber) (c : Z) : bool :=
  match x with
  | Num z => z >? c
  | PosInf => true
  | NegInf => false
  | NaN => false
  end.

(** Returns the boolean result together with the player object after the
    call (the method mutates [player.lastTapTimestamp] on acceptance). *)
Definition validateTap (now : Z) (player : Player.t) (timestamp : JsNumber)
    : bool * Player.t :=
  let currentTime := now in
  let timeDifference := js_abs (js_sub currentTime timestamp) in
  if js_gt timeDifference TAP_VALIDATION_WINDOW then (false, player)
  else
    let timeSinceLastTap := currentTime - Player.lastTapTimestamp player in
    if timeSinceLastTap <? 1000 / MAX_TAPS_PER_SECOND then (false, player)
    else (true, Player.with_lastTapTimestamp currentTime player).

(** ** Effects of a handler run *)

(** The three closures the class passes to [setTimeout]. *)
Inductive Callback : Type :=
  | StartMatchCb (matchId : string)   (* () => this.startMatch(matchId) *)
  | EndMatchCb (matchId : string)     (* () => this.endMatch(matchId) *)
  | CleanupCb (matchId : string).     (* the clean-up closure of endMatch *)

Module ResultEntry.
Record t : Type := mk {
  id : string;
  username : string;
  taps : Z;
  isWinner : bool;
}.
End ResultEntry.

Inductive Target : Type :=
  | ToSocket (socketId : string)      (* socket.emit(...) *)
  | IoTo (room : string).             (* this.io.to(room).emit(...) *)

Inductive Payload : Type :=
  | error (message : string)
  | queue_joined (position : nat)
  | queue_left
  | match_found (matchId : string) (players : list (string * string))
  | match_started (matchId : string) (duration : Z) (startTime : option Z)
  | player_tapped (playerId username : string) (tapCount : Z)
  | tap_confirmed (tapCount : Z)
  | player_disconnected (playerId : string)
  | match_ended (matchId : string) (results : list ResultEntry.t) (winnerId : option string).

Inductive Effect : Type :=
  | Emit (target : Target) (event : Payload)
  | SocketJoin (socketId room : string)
  | SocketLeave (socketId room : string)
  | SetTimeout (cb : Callback) (delay : Z).

(** ** Matchmaker state (the private fields of [TapRaceMatchmaker]) *)

Record Matchmaker : Type := mkMatchmaker {
  matches : JSMap GameMatch.t;
  queue : JSMap Player.t;               (* this.queue.players *)
  playerToMatch : gmap string string;
  playerQueue : gmap string string;
}.

Definition with_matches (x : JSMap GameMatch.t) (s : Matchmaker) : Matchmaker :=
  mkMatchmaker x (queue s) (playerToMatch s) (playerQueue s).

Definition initial : Matchmaker := mkMatchmaker [] [] ∅ ∅.

Definition map_has (k : string) (m : gmap string string) : bool :=
  match m !! k with Some _ => true | None => false end.

(** ** [Array.prototype.sort]

    ECMAScript requires the sort to be stable; with a comparator that is a
    consistent ordering the result is then unique.  It is computed here by
    insertion from the right: an element goes in front of the first element
    it does not compare greater than. *)
Section JsSort.
Context {A : Type} (cmp : A → A → Z).

Fixpoint js_sort_insert (x : A) (l : list A) : list A :=
  match l with
  | [] => [x]
  | y :: r => if cmp x y <=? 0 then x :: y :: r else y :: js_sort_insert x r
  end.

Definition js_sort (l : list A) : list A := foldr js_sort_insert [] l.
End JsSort.

(** ** createMatch (lines 124-169) *)

(** One iteration of the [for] loop: the state is the local [players] map
    and the matchmaker. *)
Definition createMatch_take (matchId : string)
    (acc : JSMap Player.t * Matchmaker) (player : Player.t) : JSMap Player.t * Matchmaker :=
  let '(players, s) := acc in
  (jsmap_set (Player.id player) player players,
   mkMatchmaker (matches s)
     (jsmap_delete (Player.id player) (queue s))
     (<[Player.id player := matchId]> (playerToMatch s))
     (delete (Player.id player) (playerQueue s))).

Definition createMatch (uuid : string) (s : Matchmaker) : Matchmaker * list Effect :=
  if (jsmap_size (queue s) <? MATCH_SIZE)%nat then (s, [])
  else
    let matchId := uuid in
    let queueArray := jsmap_values (queue s) in
    let '(players, s1) :=
      foldl (createMatch_take matchId) ([], s) (take MATCH_SIZE queueArray) in
    let match_ :=
      GameMatch.mk matchId players waiting None None MATCH_DURATION None in
    let s2 := with_matches (jsmap_set matchId match_ (matches s1)) s1 in
    (s2,
     map (λ player,
            Emit (IoTo (Player.socketId player))
              (match_found matchId
                 (map (λ p, (Player.id p, Player.username p)) (jsmap_values players))))
         (jsmap_values players)
     ++ [SetTimeout (StartMatchCb matchId) 2000]).

(** ** handleJoinQueue (lines 70-106) *)

Definition handleJoinQueue (uuid : string) (socket userId username : string)
    (s : Matchmaker) : Matchmaker * list Effect :=
  if map_has userId (playerToMatch s) then
    (s, [Emit (ToSocket socket) (error "Already in a match")])
  else if map_has userId (playerQueue s) then
    (s, [Emit (ToSocket socket) (error "Already in queue")])
  else
    let player := Player.mk userId socket username 0 false 0 0 in
    let s1 := mkMatchmaker (matches s) (jsmap_set userId player (queue s))
                (playerToMatch s) (<[userId := "main"]> (playerQueue s)) in
    let eff := [SocketJoin socket "queue";
                Emit (ToSocket socket) (queue_joined (jsmap_size (queue s1)))] in
    if (MATCH_SIZE <=? jsmap_size (queue s1))%nat then
      let '(s2, eff2) := createMatch uuid s1 in (s2, eff ++ eff2)
    else (s1, eff).

(** ** handleLeaveQueue (lines 108-122) *)

Definition handleLeaveQueue (socket userId : string) (s : Matchmaker)
    : Matchmaker * list Effect :=
  if negb (map_has userId (playerQueue s)) then
    (s, [Emit (ToSocket socket) (error "Not in queue")])
  else
    (mkMatchmaker (matches s) (jsmap_delete userId (queue s))
       (playerToMatch s) (delete userId (playerQueue s)),
     [SocketLeave socket "queue"; Emit (ToSocket socket) queue_left]).

(** ** startMatch (lines 171-190) *)

Definition startMatch (now : Z) (matchId : string) (s : Matchmaker)
    : Matchmaker * list Effect :=
  match jsmap_get matchId (matches s) with
  | None => (s, [])
  | Some match_ =>
      let match' :=
        GameMatch.with_startTime (Some now) (GameMatch.with_status active match_) in
      (with_matches (jsmap_set matchId match' (matches s)) s,
       map (λ player,
              Emit (IoTo (Player.socketId player))
                (match_started matchId (GameMatch.duration match')
                   (GameMatch.startTime match')))
           (jsmap_values (GameMatch.players match'))
       ++ [SetTimeout (EndMatchCb matchId) (GameMatch.duration match')])
  end.

(** ** handlePlayerReady (lines 192-213) *)

Definition handlePlayerReady (now : Z) (socket userId matchId : string)
    (s : Matchmaker) : Matchmaker * list Effect :=
  match jsmap_get matchId (matches s) with
  | None => (s, [Emit (ToSocket socket) (error "Match not found")])
  | Some match_ =>
      match jsmap_get userId (GameMatch.players match_) with
      | None => (s, [Emit (ToSocket socket) (error "Player not in match")])
      | Some player =>
          let match' :=
            GameMatch.with_players
              (jsmap_set userId (Player.with_isReady true player)
                 (GameMatch.players match_)) match_ in
          let s1 := with_matches (jsmap_set matchId match' (matches s)) s in
          let allReady :=
            forallb Player.isReady (jsmap_values (GameMatch.players match')) in
          if allReady && bool_decide (GameMatch.status match' = waiting)
          then startMatch now matchId s1
          else (s1, [])
      end
  end.

(** ** handleTap (lines 215-253) *)

Definition handleTap (now : Z) (socket userId matchId : string) (timestamp : JsNumber)
    (s : Matchmaker) : Matchmaker * list Effect :=
  match jsmap_get matchId (matches s) with
  | None => (s, [Emit (ToSocket socket) (error "Match not found")])
  | Some match_ =>
      if negb (bool_decide (GameMatch.status match_ = active)) then
        (s, [Emit (ToSocket socket) (error "Match not active")])
      else
        match jsmap_get userId (GameMatch.players match_) with
        | None => (s, [Emit (ToSocket socket) (error "Player not in match")])
        | Some player =>
            let '(ok, player1) := validateTap now player timestamp in
            if negb ok then
              (s, [Emit (ToSocket socket) (error "Invalid tap detected")])
            else
              let player2 :=
                Player.with_taps (Player.taps player1 + 1)
                  (Player.with_validatedTaps (Player.validatedTaps player1 + 1) player1) in
              let match' :=
                GameMatch.with_players
                  (jsmap_set userId player2 (GameMatch.players match_)) match_ in
              (with_matches (jsmap_set matchId match' (matches s)) s,
               [Emit (IoTo matchId)
                  (player_tapped userId (Player.username player2)
                     (Player.validatedTaps player2));
                Emit (ToSocket socket) (tap_confirmed (Player.validatedTaps player2))])
        end
  end.

(** ** endMatch (lines 274-323) *)

(** The body of the winner loop: [(maxTaps, winner)] is the pair of locals. *)
Definition endMatch_pick (acc : Z * option Player.t) (player : Player.t)
    : Z * option Player.t :=
  let '(maxTaps, winner) := acc in
  if Player.validatedTaps player >? maxTaps
  then (Player.validatedTaps player, Some player)
  else (maxTaps, winner).

Definition endMatch_winner (players : JSMap Player.t) : option Player.t :=
  (foldl endMatch_pick (-1, None) (jsmap_values players)).2.

Definition endMatch_results (players : JSMap Player.t) (winner : option string)
    : list ResultEntry.t :=
  js_sort (λ a b, ResultEntry.taps b - ResultEntry.taps a)
    (map (λ p, ResultEntry.mk (Player.id p) (Player.username p)
                 (Player.validatedTaps p)
                 (bool_decide (Some (Player.id p) = winner)))
       (jsmap_values players)).

Definition endMatch (now : Z) (matchId : string) (s : Matchmaker)
    : Matchmaker * list Effect :=
  match jsmap_get matchId (matches s) with
  | None => (s, [])
  | Some match_ =>
      let match1 :=
        GameMatch.with_endTime (Some now) (GameMatch.with_status finished match_) in
      let match2 :=
        match endMatch_winner (GameMatch.players match1) with
        | Some winner => GameMatch.with_winner (Some (Player.id winner)) match1
        | None => match1
        end in
      let results :=
        endMatch_results (GameMatch.players match2) (GameMatch.winner match2) in
      (with_matches (jsmap_set matchId match2 (matches s)) s,
       map (λ player,
              Emit (IoTo (Player.socketId player))
                (match_ended matchId results (GameMatch.winner match2)))
           (jsmap_values (GameMatch.players match2))
       ++ [SetTimeout (CleanupCb matchId) 5000])
  end.

(** The clean-up closure of [endMatch]; [match_] is the match object the
    closure captured, as it is when the timer fires. *)
Definition cleanup (matchId : string) (match_ : GameMatch.t) (s : Matchmaker)
    : Matchmaker :=
  mkMatchmaker (jsmap_delete matchId (matches s)) (queue s)
    (foldl (λ idx player, delete (Player.id player) idx) (playerToMatch s)
       (jsmap_values (GameMatch.players match_)))
    (playerQueue s).

(** ** handleDisconnect (lines 325-355) *)

Definition disconnect_queue_entry (socket : string) (s : Matchmaker)
    (entry : string * Player.t) : Matchmaker :=
  let '(playerId, player) := entry in
  if decide (Player.socketId player = socket) then
    mkMatchmaker (matches s) (jsmap_delete playerId (queue s))
      (playerToMatch s) (delete playerId (playerQueue s))
  else s.

Definition disconnect_match_entry (now : Z) (socket matchId : string)
    (acc : Matchmaker * list Effect) (entry : string * Player.t)
    : Matchmaker * list Effect :=
  let '(s, eff) := acc in
  let '(playerId, player) := entry in
  if decide (Player.socketId player = socket) then
    match jsmap_get matchId (matches s) with
    | None => acc
    | Some match_ =>
        let match' :=
          GameMatch.with_players (jsmap_delete playerId (GameMatch.players match_))
            match_ in
        let s1 := mkMatchmaker (jsmap_set matchId match' (matches s)) (queue s)
                    (delete playerId (playerToMatch s)) (playerQueue s) in
        let notes :=
          map (λ p, Emit (IoTo (Player.socketId p)) (player_disconnected playerId))
            (jsmap_values (GameMatch.players match')) in
        if (jsmap_size (GameMatch.players match') =? 0)%nat then
          let '(s2, eff2) := endMatch now matchId s1 in (s2, eff ++ notes ++ eff2)
        else (s1, eff ++ notes)
    end
  else acc.

(** The callback of [this.matches.forEach]: the entries of the roster are
    snapshotted, then visited. *)
Definition disconnect_match (now : Z) (socket : string)
    (acc : Matchmaker * list Effect) (matchId : string) : Matchmaker * list Effect :=
  match jsmap_get matchId (matches acc.1) with
  | None => acc
  | Some match_ =>
      foldl (disconnect_match_entry now socket matchId) acc (GameMatch.players match_)
  end.

Definition handleDisconnect (now : Z) (socket : string) (s : Matchmaker)
    : Matchmaker * list Effect :=
  let s1 := foldl (disconnect_queue_entry socket) s (queue s) in
  foldl (disconnect_match now socket) (s1, []) (jsmap_keys (matches s1)).

(** ** The event loop

    The process around the matchmaker: the pending [setTimeout] callbacks
    with the time they are due, and the match objects that were deleted from
    [matches] but are still held by a pending clean-up closure. *)

Record World : Type := mkWorld {
  mm : Matchmaker;
  timers : list (Z * Callback);
  detached : JSMap GameMatch.t;
}.

Definition initial_world : World := mkWorld initial [] [].

Inductive Input : Type :=
  | OnJoinQueue (uuid : string) (socket userId username : string)
  | OnLeaveQueue (socket userId : string)
  | OnPlayerReady (socket userId matchId : string)
  | OnTap (socket userId matchId : string) (timestamp : JsNumber)
  | OnDisconnect (socket : string)
  | OnTimeout (i : nat).                 (* the i-th pending timer fires *)

Definition scheduled (now : Z) (eff : list Effect) : list (Z * Callback) :=
  omap (λ e, match e with SetTimeout cb delay => Some (now + delay, cb) | _ => None end) eff.

(** The match object a clean-up closure holds, by the id it was created with. *)
Definition captured (matchId : string) (w : World) : option GameMatch.t :=
  match jsmap_get matchId (matches (mm w)) with
  | Some m => Some m
  | None => jsmap_get matchId (detached w)
  end.

Definition run_callback (now : Z) (cb : Callback) (w : World)
    : Matchmaker * list Effect * JSMap GameMatch.t :=
  match cb with
  | StartMatchCb matchId => (startMatch now matchId (mm w), detached w)
  | EndMatchCb matchId => (endMatch now matchId (mm w), detached w)
  | CleanupCb matchId =>
      match captured matchId w with
      | Some m => (cleanup matchId m (mm w), [], jsmap_set matchId m (detached w))
      | None => (mm w, [], detached w)
      end
  end.

Definition fresh_uuid (uuid : string) (w : World) : bool :=
  negb (jsmap_has uuid (matches (mm w))) && negb (jsmap_has uuid (detached w)).

(** One turn of the event loop at server time [now]; [None] when the input
    cannot occur (a timer that is not pending or not yet due, a uuid that was
    already handed out). *)
Definition step (now : Z) (i : Input) (w : World) : option (World * list Effect) :=
  let finish (r : Matchmaker * list Effect) (ts : list (Z * Callback)) :=
    Some (mkWorld r.1 (ts ++ scheduled now r.2) (detached w), r.2) in
  match i with
  | OnJoinQueue uuid socket userId username =>
      if fresh_uuid uuid w
      then finish (handleJoinQueue uuid socket userId username (mm w)) (timers w)
      else None
  | OnLeaveQueue socket userId =>
      finish (handleLeaveQueue socket userId (mm w)) (timers w)
  | OnPlayerReady socket userId matchId =>
      finish (handlePlayerReady now socket userId matchId (mm w)) (timers w)
  | OnTap socket userId matchId timestamp =>
      finish (handleTap now socket userId matchId timestamp (mm w)) (timers w)
  | OnDisconnect socket =>
      finish (handleDisconnect now socket (mm w)) (timers w)
  | OnTimeout n =>
      match timers w !! n with
      | Some (due, cb) =>
          if due <=? now then
            let '(s, eff, det) := run_callback now cb w in
            Some (mkWorld s (delete n (timers w) ++ scheduled now eff) det, eff)
          else None
      | None => None
      end
  end.

(** Running a trace of timed inputs; the effects are concatenated. *)
Fixpoint run (trace : list (Z * Input)) (w : World) : option (World * list Effect) :=
  match trace with
  | [] => Some (w, [])
  | (now, i) :: rest =>
      match step now i w with
      | Some (w1, eff1) =>
          match run rest w1 with
          | Some (w2, eff2) => Some (w2, eff1 ++ eff2)
          | None => None
          end
      | None => None
      end
  end.

Inductive reachable : World → Prop :=
  | reachable_initial : reachable initial_world
  | reachable_step now i w w' eff :
      reachable w → step now i w = Some (w', eff) → reachable w'.

(** ** Utility methods (lines 357-376) *)

Definition getMatchStatus (matchId : string) (s : Matchmaker) : option GameMatch.t :=
  jsmap_get matchId (matches s).

Definition getQueueSize (s : Matchmaker) : nat := jsmap_size (queue s).

Definition getActiveMatches (s : Matchmaker) : nat := jsmap_size (matches s).

Module PlayerStats.
Record t : Type := mk {
  inQueue : bool;
  inMatch : bool;
  matchId : option string;
}.
End PlayerStats.

Definition getPlayerStats (userId : string) (s : Matchmaker) : PlayerStats.t :=
  PlayerStats.mk (map_has userId (playerQueue s)) (map_has userId (playerToMatch s))
    (playerToMatch s !! userId).

(** * Vocabulary of the properties *)

(** ** Names the specification uses *)

(** The error messages of the class and the error kinds they stand for. *)
Definition AlreadyInMatch : string := "Already in a match".
Definition AlreadyQueued : string := "Already in queue".
Definition NotQueued : string := "Not in queue".
Definition MatchNotFound : string := "Match not found".
Definition MatchNotActive : string := "Match not active".
Definition NotInMatch : string := "Player not in match".
Definition InvalidTap : string := "Invalid tap detected".

(** The delays the class passes to [setTimeout] as literals. *)
Definition START_DELAY : Z := 2000.
Definition CLEANUP_DELAY : Z := 5000.

(** ** Runs used as concrete inputs *)

Definition world_after (trace : list (Z * Input)) : World :=
  match run trace initial_world with Some (w, _) => w | None => initial_world end.

Definition effects_of (trace : list (Z * Input)) (w : World) : list Effect :=
  match run trace w with Some (_, eff) => eff | None => [] end.

Definition match_of (matchId : string) (w : World) : option GameMatch.t :=
  jsmap_get matchId (matches (mm w)).

(** A (socket "sa") and B (socket "sb") join; the second join pairs them into
    match "m1", in status waiting, with the start timer due at 2010. *)
Definition trace_paired : list (Z * Input) :=
  [(0, OnJoinQueue "u0" "sa" "A" "alice"); (10, OnJoinQueue "m1" "sb" "B" "bob")].

(** The deferred start fires: "m1" is active from 2010, end timer due at 32010. *)
Definition trace_started : list (Z * Input) :=
  trace_paired ++ [(2010, OnTimeout 0%nat)].

(** A taps at 2100 (accepted), the duration timer fires at 32010. *)
Definition trace_ended : list (Z * Input) :=
  trace_started ++ [(2100, OnTap "sa" "A" "m1" 2100); (32010, OnTimeout 0%nat)].

(** Both players of "m1" report ready inside the waiting window: the match
    starts at 600, while the start timer created with the match (due at 2010)
    stays pending. *)
Definition trace_early_start : list (Z * Input) :=
  trace_paired ++
  [(500, OnPlayerReady "sa" "A" "m1"); (600, OnPlayerReady "sb" "B" "m1")].

(** The run of [trace_early_start] continued: the deferred start fires at
    2010, A taps once, and the end timer of the early start fires at 30600. *)
Definition trace_first_end : list (Z * Input) :=
  trace_early_start ++
  [(2010, OnTimeout 0%nat); (2100, OnTap "sa" "A" "m1" 2100); (30600, OnTimeout 0%nat)].

(** The run of [trace_early_start] continued: "m1" is started a second time
    by the deferred start (2010), so it has two end timers (30600, 32010) and,
    once both have fired, two clean-up closures (35600, 37010).  The first
    clean-up runs; then A joins again and is paired with C into "m2". *)
Definition trace_rejoined : list (Z * Input) :=
  trace_early_start ++
  [(2010, OnTimeout 0%nat); (30600, OnTimeout 0%nat); (32010, OnTimeout 0%nat);
   (35600, OnTimeout 0%nat);
   (35700, OnJoinQueue "u1" "sa" "A" "alice");
   (35800, OnJoinQueue "m2" "sc" "C" "carol")].

(** Then the second clean-up closure of "m1" runs (37010), "m2" is started
    by its timer (37800) and ended by its timer (67800); the clean-up of
    "m2" is due at 72800. *)
Definition trace_stale_cleanup : list (Z * Input) :=
  trace_rejoined ++
  [(37010, OnTimeout 0%nat); (37800, OnTimeout 0%nat); (67800, OnTimeout 0%nat)].

(** A leaves at 100 while "m1" is waiting; B is alone on the roster. *)
Definition trace_one_left : list (Z * Input) :=
  trace_paired ++ [(100, OnDisconnect "sa")].

(** A tie as in scenario S6: A and B each have one validated tap when the
    match ends, A joined first; A wins and is listed first. *)
Definition trace_tie : list (Z * Input) :=
  trace_started ++
  [(2100, OnTap "sa" "A" "m1" 2100); (2200, OnTap "sb" "B" "m1" 2200)].

(** ** Tap validation *)

(** The skew condition as the specification writes it,
    |now − clientTimestampMs| ≤ 100: a comparison, so it is false when the
    timestamp is NaN or infinite. *)
Definition within_skew_window (now : Z) (timestamp : JsNumber) : Prop :=
  match timestamp with
  | Num z => Z.abs (now - z) ≤ TAP_VALIDATION_WINDOW
  | PosInf | NegInf | NaN => False
  end.

(** ** Tap failures *)

(** The [return] statement through which [validateTap] leaves: line 261,
    line 267 or line 271. *)
Inductive TapExit : Type := ExitSkew | ExitRate | ExitAccept.

Definition validateTap_exit (now : Z) (player : Player.t) (timestamp : JsNumber)
    : TapExit :=
  if js_gt (js_abs (js_sub now timestamp)) TAP_VALIDATION_WINDOW then ExitSkew
  else if now - Player.lastTapTimestamp player <? 1000 / MAX_TAPS_PER_SECOND then ExitRate
  else ExitAccept.

(** The cases in which [handleTap] does not count the tap, with the message
    each one reports.  The status test precedes the roster test. *)
Inductive TapFailure (now : Z) (userId matchId : string) (timestamp : JsNumber)
    (s : Matchmaker) : string → Prop :=
  | tap_match_not_found :
      jsmap_get matchId (matches s) = None →
      TapFailure now userId matchId timestamp s MatchNotFound
  | tap_match_not_active m :
      jsmap_get matchId (matches s) = Some m →
      GameMatch.status m ≠ active →
      TapFailure now userId matchId timestamp s MatchNotActive
  | tap_not_in_match m :
      jsmap_get matchId (matches s) = Some m →
      GameMatch.status m = active →
      jsmap_get userId (GameMatch.players m) = None →
      TapFailure now userId matchId timestamp s NotInMatch
  | tap_invalid m p :
      jsmap_get matchId (matches s) = Some m →
      GameMatch.status m = active →
      jsmap_get userId (GameMatch.players m) = Some p →
      (validateTap now p timestamp).1 = false →
      TapFailure now userId matchId timestamp s InvalidTap.

Definition is_player_tapped (e : Effect) : bool :=
  match e with Emit _ (player_tapped _ _ _) => true | _ => false end.

(** ** Results *)

Definition result_entry (winner : option string) (p : Player.t) : ResultEntry.t :=
  ResultEntry.mk (Player.id p) (Player.username p) (Player.validatedTaps p)
    (bool_decide (Some (Player.id p) = winner)).

(** ** Relations between the state before and after a handler *)

Definition indices_disjoint (s : Matchmaker) : Prop :=
  dom (playerQueue s) ## dom (playerToMatch s).

(** The handler left the queue and both indices alone. *)
Definition same_queue_and_indices (s s' : Matchmaker) : Prop :=
  queue s' = queue s
  ∧ playerToMatch s' = playerToMatch s
  ∧ playerQueue s' = playerQueue s.

(** The handler only removed entries from the indices. *)
Definition indices_shrink (s s' : Matchmaker) : Prop :=
  dom (playerQueue s') ⊆ dom (playerQueue s)
  ∧ dom (playerToMatch s') ⊆ dom (playerToMatch s).

(** [match_step R s s']: the two tables have the same ids, and each match
    record is related to its successor by [R]. *)
Definition match_step (R : GameMatch.t → GameMatch.t → Prop) (s s' : Matchmaker) : Prop :=
  ∀ matchId,
    option_Forall2 R (jsmap_get matchId (matches s)) (jsmap_get matchId (matches s')).

(** A handler that rewrites at most the record of one match. *)
Definition updates_one (R : GameMatch.t → GameMatch.t → Prop) (matchId : string)
    (s s' : Matchmaker) : Prop :=
  matches s' = matches s
  ∨ ∃ m m', jsmap_get matchId (matches s) = Some m
      ∧ matches s' = jsmap_set matchId m' (matches s)
      ∧ R m m'.

(** The record [startMatch] and [endMatch] leave in the table. *)
Definition started (now : Z) (m : GameMatch.t) : GameMatch.t :=
  GameMatch.mk (GameMatch.id m) (GameMatch.players m) active (Some now)
    (GameMatch.endTime m) (GameMatch.duration m) (GameMatch.winner m).

Definition ended (now : Z) (m : GameMatch.t) : GameMatch.t :=
  GameMatch.mk (GameMatch.id m) (GameMatch.players m) finished
    (GameMatch.startTime m) (Some now) (GameMatch.duration m)
    (match endMatch_winner (GameMatch.players m) with
     | Some w => Some (Player.id w)
     | None => GameMatch.winner m
     end).

(** The key and the player id of each roster entry, in roster order. *)
Definition roster_sig (l : JSMap Player.t) : list (string * string) :=
  (λ kp, (kp.1, Player.id kp.2)) <$> l.

(** The roster lost entries at most: what is left is in the old order. *)
Definition roster_le (l l' : JSMap Player.t) : Prop :=
  roster_sig l' `sublist_of` roster_sig l.

(** The roster kept its keys and the ids of its players, in order. *)
Definition same_roster_ids (l l' : JSMap Player.t) : Prop :=
  roster_sig l' = roster_sig l.

(** [u] is neither a key nor a player id of the roster. *)
Definition absent (u : string) (l : JSMap Player.t) : Prop :=
  Forall (λ ki, ki.1 ≠ u ∧ ki.2 ≠ u) (roster_sig l).

(** No player of the roster has a negative count of validated taps. *)
Definition counts_nonneg (l : JSMap Player.t) : Prop :=
  Forall (λ q, 0 ≤ Player.validatedTaps q) (jsmap_values l).

Definition keeps_counts (m m' : GameMatch.t) : Prop :=
  counts_nonneg (GameMatch.players m) → counts_nonneg (GameMatch.players m').

Definition counts_ok (s : Matchmaker) : Prop :=
  counts_nonneg (queue s)
  ∧ ∀ matchId m, jsmap_get matchId (matches s) = Some m →
                 counts_nonneg (GameMatch.players m).

(** What a disconnect may do to a match: remove roster entries, and end the
    match once the roster is empty. *)
Definition disconnect_move (m m' : GameMatch.t) : Prop :=
  roster_le (GameMatch.players m) (GameMatch.players m')
  ∧ (GameMatch.status m' = GameMatch.status m
     ∨ (GameMatch.status m' = finished ∧ GameMatch.players m' = []))
  ∧ keeps_counts m m'.

Definition tap_move (m m' : GameMatch.t) : Prop :=
  GameMatch.status m' = GameMatch.status m
  ∧ same_roster_ids (GameMatch.players m) (GameMatch.players m')
  ∧ keeps_counts m m'.

Definition ready_move (m m' : GameMatch.t) : Prop :=
  (GameMatch.status m' = GameMatch.status m
   ∨ (GameMatch.status m = waiting ∧ GameMatch.status m' = active))
  ∧ same_roster_ids (GameMatch.players m) (GameMatch.players m')
  ∧ keeps_counts m m'.

(** ** Status moves *)

(** The ways in which one turn of the event loop changes the status of a
    match that exists before and after it. *)
Inductive StatusMove (w : World) (i : Input) (matchId : string)
    (m m' : GameMatch.t) : Prop :=
  | status_kept :
      GameMatch.status m' = GameMatch.status m →
      StatusMove w i matchId m m'
  | status_ready_start socket userId :
      i = OnPlayerReady socket userId matchId →
      GameMatch.status m = waiting → GameMatch.status m' = active →
      StatusMove w i matchId m m'
  | status_timer_start n due :
      i = OnTimeout n → timers w !! n = Some (due, StartMatchCb matchId) →
      GameMatch.status m' = active →
      StatusMove w i matchId m m'
  | status_timer_end n due :
      i = OnTimeout n → timers w !! n = Some (due, EndMatchCb matchId) →
      GameMatch.status m' = finished →
      StatusMove w i matchId m m'
  | status_disconnect_end socket :
      i = OnDisconnect socket → GameMatch.players m' = [] →
      GameMatch.status m' = finished →
      StatusMove w i matchId m m'.

(** ** A player held by a match *)

(** [u] is a key of the roster of the match [matchId]. *)
Definition on_roster (u matchId : string) (s : Matchmaker) : Prop :=
  ∃ m, jsmap_get matchId (matches s) = Some m
       ∧ is_Some (jsmap_get u (GameMatch.players m)).

(** While [u] is on that roster, [u] is in [playerToMatch], and [u] occurs
    neither in the queue nor on the roster of another match. *)
Definition holds_player (u matchId : string) (s : Matchmaker) : Prop :=
  on_roster u matchId s →
  is_Some (playerToMatch s !! u)
  ∧ absent u (queue s)
  ∧ ∀ k m, k ≠ matchId → jsmap_get k (matches s) = Some m →
           absent u (GameMatch.players m).

(** The match id was handed out: the match is in the table, or it was
    cleaned up and its object is held by a clean-up closure. *)
Definition known (matchId : string) (w : World) : Prop :=
  is_Some (jsmap_get matchId (matches (mm w)))
  ∨ is_Some (jsmap_get matchId (detached w)).

(** The input is not a clean-up timer whose match object lists [u]. *)
Definition quiet (u : string) (w : World) (i : Input) : Prop :=
  ∀ n due k mk,
    i = OnTimeout n → timers w !! n = Some (due, CleanupCb k) →
    captured k w = Some mk →
    u ∉ Player.id <$> jsmap_values (GameMatch.players mk).

(** A run of the event loop in which no clean-up closure runs whose match
    object lists [u]. *)
Inductive quiet_run (u : string) : World → World → Prop :=
  | quiet_run_done w : quiet_run u w w
  | quiet_run_step now i w w1 eff w2 :
      quiet u w i → step now i w = Some (w1, eff) →
      quiet_run u w1 w2 → quiet_run u w w2.

(** ** The shape of the queue *)

(** A player who has not played yet: no taps, not ready. *)
Definition fresh_player (p : Player.t) : Prop :=
  Player.taps p = 0 ∧ Player.isReady p = false
  ∧ Player.lastTapTimestamp p = 0 ∧ Player.validatedTaps p = 0.

(** The queue is empty, or holds one player, who has not played yet, under
    the key of its id; the index [playerQueue] has exactly the keys of the
    queue. *)
Definition queue_shape (s : Matchmaker) : Prop :=
  (queue s = [] ∧ dom (playerQueue s) = ∅)
  ∨ (∃ p, queue s = [(Player.id p, p)] ∧ dom (playerQueue s) = {[Player.id p]}
          ∧ fresh_player p).

(** The player object [handleJoinQueue] creates. *)
Definition new_player (socket userId username : string) : Player.t :=
  Player.mk userId socket username 0 false 0 0.

(** A joins at 0 and waits alone. *)
Definition trace_one_waiting : list (Z * Input) :=
  [(0, OnJoinQueue "u0" "sa" "A" "alice")].

(** The state in which [handleJoinQueue] leaves the matchmaker when the
    joining user is paired with the waiting player [p] into the match [uuid]. *)
Definition paired (uuid socket userId username : string) (p : Player.t)
    (s : Matchmaker) : Matchmaker :=
  mkMatchmaker
    (jsmap_set uuid
       (GameMatch.mk uuid
          [(Player.id p, p); (userId, new_player socket userId username)]
          waiting None None MATCH_DURATION None)
       (matches s))
    []
    (<[userId := uuid]> (<[Player.id p := uuid]> (playerToMatch s)))
    (delete userId (delete (Player.id p) (<[userId := "main"]> (playerQueue s)))).

(** ** How a player record changes over time *)

(** Between two observations of the same roster entry: the identity fields
    are the same, the counters did not go down and went up together,
    every validated tap gained took at least 100 ms of [lastTapTimestamp],
    and a ready flag once set stays set. *)
Definition player_evolves (p p' : Player.t) : Prop :=
  Player.id p' = Player.id p
  ∧ Player.socketId p' = Player.socketId p
  ∧ Player.username p' = Player.username p
  ∧ Player.validatedTaps p ≤ Player.validatedTaps p'
  ∧ Player.taps p' - Player.taps p = Player.validatedTaps p' - Player.validatedTaps p
  ∧ 100 * (Player.validatedTaps p' - Player.validatedTaps p)
      ≤ Player.lastTapTimestamp p' - Player.lastTapTimestamp p
  ∧ (Player.isReady p = true → Player.isReady p' = true).

Definition match_evolves (m m' : GameMatch.t) : Prop :=
  GameMatch.id m' = GameMatch.id m
  ∧ GameMatch.duration m' = GameMatch.duration m
  ∧ ∀ u p', jsmap_get u (GameMatch.players m') = Some p' →
            ∃ p, jsmap_get u (GameMatch.players m) = Some p ∧ player_evolves p p'.

(** The match was cleaned up: it is out of the table and its object is held
    by a clean-up closure. *)
Definition gone (matchId : string) (w : World) : Prop :=
  match_of matchId w = None ∧ is_Some (jsmap_get matchId (detached w)).

(** Both players of a started "m1" tap once, A at 2100 and B at 2200. *)
Definition trace_two_taps : list (Z * Input) :=
  [(2100, OnTap "sa" "A" "m1" 2100); (2200, OnTap "sb" "B" "m1" 2200)].

(** The player record after [handleTap] counted a tap at server time [now]. *)
Definition tapped (now : Z) (p : Player.t) : Player.t :=
  Player.mk (Player.id p) (Player.socketId p) (Player.username p)
    (Player.taps p + 1) (Player.isReady p) now (Player.validatedTaps p + 1).

(** ** Well-formed matches *)

(** The two counters agree, and each validated tap accounts for 100 ms of
    server time up to the last accepted tap. *)
Definition player_ok (p : Player.t) : Prop :=
  Player.taps p = Player.validatedTaps p
  ∧ 0 ≤ Player.validatedTaps p
  ∧ 100 * Player.validatedTaps p ≤ Player.lastTapTimestamp p.

Definition roster_ok (l : JSMap Player.t) : Prop :=
  (jsmap_size l ≤ MATCH_SIZE)%nat
  ∧ NoDup (jsmap_keys l)
  ∧ Forall (λ kp, Player.id kp.2 = kp.1 ∧ player_ok kp.2) l.

(** What the status of a match says about its other fields. *)
Definition fields_ok (m : GameMatch.t) : Prop :=
  (GameMatch.status m = waiting →
     GameMatch.startTime m = None ∧ GameMatch.endTime m = None
     ∧ GameMatch.winner m = None)
  ∧ (GameMatch.status m = active → is_Some (GameMatch.startTime m))
  ∧ (GameMatch.status m = finished → is_Some (GameMatch.endTime m))
  ∧ (is_Some (GameMatch.winner m) → is_Some (GameMatch.endTime m)).

Definition keeps_fields (m m' : GameMatch.t) : Prop := fields_ok m → fields_ok m'.

Definition match_ok (matchId : string) (m : GameMatch.t) : Prop :=
  GameMatch.id m = matchId
  ∧ GameMatch.duration m = MATCH_DURATION
  ∧ roster_ok (GameMatch.players m)
  ∧ fields_ok m.

Definition matches_ok (w : World) : Prop :=
  ∀ matchId m, match_of matchId w = Some m → match_ok matchId m.

(** ** What a disconnect does *)

(** The entry belongs to a player who is connected through another socket. *)
Definition other_socket (socket : string) (kp : string * Player.t) : Prop :=
  Player.socketId kp.2 ≠ socket.

(** One visit of the loop over the roster snapshot, on the match record and
    on the index [playerToMatch]. *)
Definition drop_entry (now : Z) (socket : string) (m : GameMatch.t)
    (entry : string * Player.t) : GameMatch.t :=
  if decide (Player.socketId entry.2 = socket) then
    let m1 := GameMatch.with_players (jsmap_delete entry.1 (GameMatch.players m)) m in
    if (jsmap_size (GameMatch.players m1) =? 0)%nat then ended now m1 else m1
  else m.

Definition drop_index (socket : string) (idx : gmap string string)
    (entry : string * Player.t) : gmap string string :=
  if decide (Player.socketId entry.2 = socket) then delete entry.1 idx else idx.

(** The record of a match after [handleDisconnect]: the players of the
    socket are off the roster; the match was ended if that emptied it. *)
Definition disconnected (now : Z) (socket : string) (m : GameMatch.t) : GameMatch.t :=
  if decide (Forall (other_socket socket) (GameMatch.players m)) then m
  else
    match filter (other_socket socket) (GameMatch.players m) with
    | [] => ended now (GameMatch.with_players [] m)
    | rest => GameMatch.with_players rest m
    end.

(** ** The index never dangles *)

(** Every entry of [playerToMatch] names a match of the table that has the
    user on its roster. *)
Definition index_sound (s : Matchmaker) : Prop :=
  ∀ u matchId, playerToMatch s !! u = Some matchId → on_roster u matchId s.

(** ** Error replies *)

Definition is_error (e : Effect) : bool :=
  match e with Emit _ (error _) => true | _ => false end.

Definition no_error (eff : list Effect) : Prop :=
  Forall (λ e, is_error e = false) eff.

(** The socket a client message came from. *)
Definition sender (i : Input) : option string :=
  match i with
  | OnJoinQueue _ socket _ _ | OnLeaveQueue socket _
  | OnPlayerReady socket _ _ | OnTap socket _ _ _ => Some socket
  | OnDisconnect _ | OnTimeout _ => None
  end.

Definition error_messages : list string :=
  [AlreadyInMatch; AlreadyQueued; NotQueued; MatchNotFound; MatchNotActive;
   NotInMatch; InvalidTap].

(** The handler refused the request of [socket]: it left the state [s] as it
    was and did nothing but send one error to that socket. *)
Definition refused (socket : string) (s : Matchmaker) (r : Matchmaker * list Effect)
    : Prop :=
  r.1 = s
  ∧ ∃ msg, msg ∈ error_messages ∧ r.2 = [Emit (ToSocket socket) (error msg)].

(** ** Timers *)

(** The delay each kind of callback is scheduled with. *)
Definition delay_of (cb : Callback) : Z :=
  match cb with
  | StartMatchCb _ => START_DELAY
  | EndMatchCb _ => MATCH_DURATION
  | CleanupCb _ => CLEANUP_DELAY
  end.

Definition timer_ok (e : Effect) : Prop :=
  match e with
  | SetTimeout cb delay => delay = delay_of cb
  | _ => True
  end.

Definition durations_ok (s : Matchmaker) : Prop :=
  ∀ matchId m, jsmap_get matchId (matches s) = Some m →
               GameMatch.duration m = MATCH_DURATION.

(** ** The ids of the match table *)

(** The ways in which one turn of the event loop changes the list of match
    ids, in table order. *)
Inductive TableMove (w : World) (i : Input) (w' : World) : Prop :=
  | table_kept :
      jsmap_keys (matches (mm w')) = jsmap_keys (matches (mm w)) →
      TableMove w i w'
  | table_paired uuid socket userId username :
      i = OnJoinQueue uuid socket userId username →
      uuid ∉ jsmap_keys (matches (mm w)) →
      jsmap_keys (matches (mm w')) = jsmap_keys (matches (mm w)) ++ [uuid] →
      TableMove w i w'
  | table_cleaned n due matchId :
      i = OnTimeout n →
      timers w !! n = Some (due, CleanupCb matchId) →
      matchId ∈ jsmap_keys (matches (mm w)) →
      jsmap_keys (matches (mm w')) = filter (.≠ matchId) (jsmap_keys (matches (mm w))) →
      S (getActiveMatches (mm w')) = getActiveMatches (mm w) →
      TableMove w i w'.

(** * Properties *)

(** ** The tap validator *)

Lemma min_tap_interval : 1000 / MAX_TAPS_PER_SECOND = 100.
Proof. reflexivity. Qed.

Lemma validateTap_exit_result now p ts :
  validateTap now p ts =
    match validateTap_exit now p ts with
    | ExitAccept => (true, Player.with_lastTapTimestamp now p)
    | _ => (false, p)
    end.
Proof.
  unfold validateTap, validateTap_exit.
  destruct (js_gt _ _); [done|]. by destruct (_ <? _).
Qed.



(** C1 at the failing input: a tap message without a numeric timestamp.
    [currentTime - timestamp] is then NaN, [NaN > 100] is false, and the
    skew test lets the tap through: the validator treats it exactly like a
    tap stamped with the server's own clock.  At 2100 the first tap of A in
    the started match "m1" is accepted and counted, although the skew
    condition of the specification does not hold of its timestamp. *)
Theorem validateTap_nan_timestamp :
  (∀ now p, validateTap now p NaN = validateTap now p (Num now))
  ∧ ¬ within_skew_window 2100 NaN
  ∧ validateTap 2100 (Player.mk "A" "sa" "alice" 0 false 0 0) NaN
    = (true, Player.mk "A" "sa" "alice" 0 false 2100 0)
  ∧ (handleTap 2100 "sa" "A" "m1" NaN (mm (world_after trace_started))).2
    = [Emit (IoTo "m1") (player_tapped "A" "alice" 1);
       Emit (ToSocket "sa") (tap_confirmed 1)].
Proof.
  split; [|split; [|split]].
  - intros now p. unfold validateTap. simpl. rewrite Z.sub_diag. done.
  - intros H. exact H.
  - reflexivity.
  - reflexivity.
Qed.

(** ** Facts about the [Map] model *)

Section JSMapFacts.
Context {V : Type}.
Implicit Types (m : JSMap V) (k : string) (v : V).

Lemma jsmap_get_set_eq k v m : jsmap_get k (jsmap_set k v m) = Some v.
Proof.
  induction m as [|[k' v'] r IH]; simpl.
  - by rewrite decide_True.
  - destruct (decide (k = k')) as [->|Hne]; simpl.
    + by rewrite decide_True.
    + by rewrite decide_False.
Qed.

Lemma jsmap_get_set_ne k k' v m :
  k ≠ k' → jsmap_get k (jsmap_set k' v m) = jsmap_get k m.
Proof.
  intros Hne. induction m as [|[k2 v2] r IH]; simpl.
  - by rewrite decide_False.
  - destruct (decide (k' = k2)) as [->|Hne2]; simpl.
    + by rewrite !decide_False.
    + destruct (decide (k = k2)); done.
Qed.

Lemma jsmap_get_set k k' v m :
  jsmap_get k (jsmap_set k' v m) = if decide (k = k') then Some v else jsmap_get k m.
Proof.
  destruct (decide (k = k')) as [->|Hne];
    [apply jsmap_get_set_eq | by apply jsmap_get_set_ne].
Qed.

Lemma jsmap_get_delete_eq k m : jsmap_get k (jsmap_delete k m) = None.
Proof.
  induction m as [|[k' v'] r IH]; simpl; [done|].
  destruct (decide (k = k')) as [->|Hne]; simpl; [done|].
  by rewrite decide_False.
Qed.

Lemma jsmap_get_delete_ne k k' m :
  k ≠ k' → jsmap_get k (jsmap_delete k' m) = jsmap_get k m.
Proof.
  intros Hne. induction m as [|[k2 v2] r IH]; simpl; [done|].
  destruct (decide (k' = k2)) as [->|Hne2]; simpl.
  - by rewrite decide_False.
  - by destruct (decide (k = k2)).
Qed.

Lemma jsmap_set_set k v1 v2 m :
  jsmap_set k v2 (jsmap_set k v1 m) = jsmap_set k v2 m.
Proof.
  induction m as [|[k' v'] r IH]; simpl.
  - by rewrite decide_True.
  - destruct (decide (k = k')) as [->|Hne]; simpl.
    + by rewrite decide_True.
    + rewrite decide_False by done. by rewrite IH.
Qed.

Lemma jsmap_set_get_id k v m : jsmap_get k m = Some v → jsmap_set k v m = m.
Proof.
  induction m as [|[k' v'] r IH]; simpl; [done|].
  destruct (decide (k = k')) as [->|Hne]; [congruence|].
  intros H. by rewrite IH.
Qed.

Lemma jsmap_delete_delete k m :
  jsmap_delete k (jsmap_delete k m) = jsmap_delete k m.
Proof.
  induction m as [|[k' v'] r IH]; simpl; [done|].
  destruct (decide (k = k')) as [->|Hne]; simpl; [done|].
  rewrite decide_False by done. by rewrite IH.
Qed.

Lemma jsmap_delete_absent k m : jsmap_get k m = None → jsmap_delete k m = m.
Proof.
  induction m as [|[k' v'] r IH]; simpl; [done|].
  destruct (decide (k = k')); [done|]. intros H. by rewrite IH.
Qed.

Lemma jsmap_get_Some_elem k v m : jsmap_get k m = Some v → (k, v) ∈ m.
Proof.
  induction m as [|[k' v'] r IH]; simpl; [done|].
  destruct (decide (k = k')) as [->|Hne].
  - intros [= ->]. left.
  - intros H. right. auto.
Qed.

End JSMapFacts.

(** ** The winner loop *)

Lemma endMatch_pick_fold (l : list Player.t) : ∀ (mx : Z) (w : option Player.t),
  (foldl endMatch_pick (mx, w) l = (mx, w)
     ∧ Forall (λ q, Player.validatedTaps q ≤ mx) l)
  ∨ (∃ l1 p l2, l = l1 ++ p :: l2
       ∧ foldl endMatch_pick (mx, w) l = (Player.validatedTaps p, Some p)
       ∧ mx < Player.validatedTaps p
       ∧ Forall (λ q, Player.validatedTaps q < Player.validatedTaps p) l1
       ∧ Forall (λ q, Player.validatedTaps q ≤ Player.validatedTaps p) l2).
Proof.
  induction l as [|q r IH]; intros mx w; simpl.
  - left. by split.
  - destruct (Z.gtb_spec (Player.validatedTaps q) mx) as [Hgt|Hle].
    + right. destruct (IH (Player.validatedTaps q) (Some q)) as
        [[Heq Hall]|(l1 & p & l2 & -> & Heq & Hlt & H1 & H2)].
      * exists [], q, r. simpl. repeat split; [done|lia|constructor|done].
      * exists (q :: l1), p, l2. simpl. repeat split; [done|lia| |done].
        constructor; [lia|done].
    + destruct (IH mx w) as
        [[Heq Hall]|(l1 & p & l2 & -> & Heq & Hlt & H1 & H2)].
      * left. split; [done|]. constructor; [lia|done].
      * right. exists (q :: l1), p, l2. simpl. repeat split; [done|lia| |done].
        constructor; [lia|done].
Qed.

(** The winner loop returns the first roster entry whose count no other
    entry exceeds, provided counts are not negative. *)
Lemma endMatch_winner_first_max (players : JSMap Player.t) :
  Forall (λ q, 0 ≤ Player.validatedTaps q) (jsmap_values players) →
  match jsmap_values players with
  | [] => endMatch_winner players = None
  | _ :: _ =>
      ∃ l1 p l2, jsmap_values players = l1 ++ p :: l2
        ∧ endMatch_winner players = Some p
        ∧ Forall (λ q, Player.validatedTaps q < Player.validatedTaps p) l1
        ∧ Forall (λ q, Player.validatedTaps q ≤ Player.validatedTaps p) l2
  end.
Proof.
  intros Hnn. unfold endMatch_winner.
  destruct (endMatch_pick_fold (jsmap_values players) (-1) None) as
    [[Heq Hall]|(l1 & p & l2 & Hsplit & Heq & Hlt & H1 & H2)].
  - destruct (jsmap_values players) as [|q r] eqn:E; [done|].
    apply Forall_cons in Hall as [Hq _]. apply Forall_cons in Hnn as [Hq' _]. lia.
  - rewrite Heq. rewrite Hsplit. destruct l1; simpl.
    + exists [], p, l2. by repeat split.
    + exists (t :: l1), p, l2. by repeat split.
Qed.

Lemma endMatch_lookup now matchId s m :
  jsmap_get matchId (matches s) = Some m →
  jsmap_get matchId (matches (endMatch now matchId s).1) =
    Some (GameMatch.mk (GameMatch.id m) (GameMatch.players m) finished
            (GameMatch.startTime m) (Some now) (GameMatch.duration m)
            (match endMatch_winner (GameMatch.players m) with
             | Some w => Some (Player.id w)
             | None => GameMatch.winner m
             end)).
Proof.
  intros Hm. unfold endMatch. rewrite Hm. simpl. rewrite jsmap_get_set_eq.
  by destruct (endMatch_winner _).
Qed.

(** ** Tap submission: failures *)

(** A tap that meets none of the failure cases is counted: the player's
    counters go up by one, [lastTapTimestamp] becomes [now], and
    [player_tapped] and [tap_confirmed] are emitted. *)
Lemma handleTap_accepted now socket userId matchId ts s m p :
  jsmap_get matchId (matches s) = Some m →
  GameMatch.status m = active →
  jsmap_get userId (GameMatch.players m) = Some p →
  (validateTap now p ts).1 = true →
  handleTap now socket userId matchId ts s =
    (with_matches
       (jsmap_set matchId
          (GameMatch.with_players
             (jsmap_set userId
                (Player.mk (Player.id p) (Player.socketId p) (Player.username p)
                   (Player.taps p + 1) (Player.isReady p) now
                   (Player.validatedTaps p + 1))
                (GameMatch.players m)) m)
          (matches s)) s,
     [Emit (IoTo matchId)
        (player_tapped userId (Player.username p) (Player.validatedTaps p + 1));
      Emit (ToSocket socket) (tap_confirmed (Player.validatedTaps p + 1))]).
Proof.
  intros Hm Hst Hp Hok. unfold handleTap. rewrite Hm, Hst, Hp. simpl.
  rewrite validateTap_exit_result in Hok |- *.
  by destruct (validateTap_exit now p ts).
Qed.

Lemma handleTap_cases now userId matchId ts s :
  (∃ msg, TapFailure now userId matchId ts s msg)
  ∨ (∃ m p, jsmap_get matchId (matches s) = Some m
       ∧ GameMatch.status m = active
       ∧ jsmap_get userId (GameMatch.players m) = Some p
       ∧ (validateTap now p ts).1 = true).
Proof.
  destruct (jsmap_get matchId (matches s)) as [m|] eqn:Hm;
    [|left; eexists; by constructor].
  destruct (decide (GameMatch.status m = active)) as [Hst|Hst];
    [|left; eexists; by eapply tap_match_not_active].
  destruct (jsmap_get userId (GameMatch.players m)) as [p|] eqn:Hp;
    [|left; eexists; by eapply tap_not_in_match].
  destruct (validateTap now p ts).1 eqn:Hok.
  - right. by exists m, p.
  - left. eexists. by eapply tap_invalid.
Qed.

(** C5. Unknown match id: "Match not found"; status other than active (so
    also finished): "Match not active"; player not on the roster of an
    active match: "Player not in match".  In every failure case the state is
    unchanged, the only effect is one [error] to the submitting socket, and
    no [player_tapped] is emitted. *)
Theorem handleTap_failure (now : Z) (socket userId matchId : string) (ts : JsNumber)
    (s : Matchmaker) (msg : string) :
  TapFailure now userId matchId ts s msg →
  (handleTap now socket userId matchId ts s).1 = s
  ∧ (handleTap now socket userId matchId ts s).2 = [Emit (ToSocket socket) (error msg)]
  ∧ Forall (λ e, is_player_tapped e = false) (handleTap now socket userId matchId ts s).2.
Proof.
  intros Hf.
  assert (handleTap now socket userId matchId ts s
          = (s, [Emit (ToSocket socket) (error msg)])) as ->.
  { unfold handleTap. destruct Hf as [Hm|m Hm Hst|m Hm Hst Hp|m p Hm Hst Hp Hok].
    - by rewrite Hm.
    - rewrite Hm. by rewrite bool_decide_eq_false_2.
    - rewrite Hm, Hst, Hp. done.
    - rewrite Hm, Hst, Hp. simpl.
      destruct (validateTap now p ts) as [ok p1]. simpl in Hok. by subst ok. }
  repeat split. by repeat constructor.
Qed.

Lemma handleTap_failure_witness :
  let s := mm (world_after trace_ended) in
  (handleTap 32050 "sa" "A" "m1" 32050 s).1 = s
  ∧ (handleTap 32050 "sa" "A" "m1" 32050 s).2
      = [Emit (ToSocket "sa") (error "Match not active")]
  ∧ Forall (λ e, is_player_tapped e = false) (handleTap 32050 "sa" "A" "m1" 32050 s).2.
Proof.
  apply (handleTap_failure 32050 "sa" "A" "m1" 32050 (mm (world_after trace_ended))
           MatchNotActive).
  apply (tap_match_not_active _ _ _ _ _
           (GameMatch.mk "m1"
              [("A", Player.mk "A" "sa" "alice" 1 false 2100 1);
               ("B", Player.mk "B" "sb" "bob" 0 false 0 0)]
              finished (Some 2010) (Some 32010) 30000 (Some "A"))).
  - reflexivity.
  - discriminate.
Defined.

(** C9 (as the code has it). A tap the validator rejects, for either reason,
    is reported to the submitting socket as the one message
    "Invalid tap detected"; the state is unchanged. *)
Theorem handleTap_invalid_report (now : Z) (socket userId matchId : string)
    (ts : JsNumber)
    (s : Matchmaker) (m : GameMatch.t) (p : Player.t) :
  jsmap_get matchId (matches s) = Some m →
  GameMatch.status m = active →
  jsmap_get userId (GameMatch.players m) = Some p →
  validateTap_exit now p ts ≠ ExitAccept →
  handleTap now socket userId matchId ts s
    = (s, [Emit (ToSocket socket) (error "Invalid tap detected")]).
Proof.
  intros Hm Hst Hp Hexit. unfold handleTap. rewrite Hm, Hst, Hp. simpl.
  rewrite validateTap_exit_result. by destruct (validateTap_exit now p ts).
Qed.

Lemma handleTap_invalid_report_witness :
  handleTap 2150 "sa" "A" "m1" 2150
    (mm (world_after (trace_started ++ [(2100, OnTap "sa" "A" "m1" 2100)])))
  = (mm (world_after (trace_started ++ [(2100, OnTap "sa" "A" "m1" 2100)])),
     [Emit (ToSocket "sa") (error "Invalid tap detected")]).
Proof.
  apply (handleTap_invalid_report 2150 "sa" "A" "m1" 2150 _
           (GameMatch.mk "m1"
              [("A", Player.mk "A" "sa" "alice" 1 false 2100 1);
               ("B", Player.mk "B" "sb" "bob" 0 false 0 0)]
              active (Some 2010) None 30000 None)
           (Player.mk "A" "sa" "alice" 1 false 2100 1)).
  - reflexivity.
  - reflexivity.
  - reflexivity.
  - discriminate.
Defined.

(** C9 as stated fails: at 2150, 50 ms after A's accepted tap, a tap stamped
    1000 leaves the validator through the skew test and a tap stamped 2150
    through the rate test, and both produce the same effects. *)
Lemma invalid_tap_reason_not_reported :
  ¬ (∀ now socket userId matchId s m p ts1 ts2,
       jsmap_get matchId (matches s) = Some m →
       GameMatch.status m = active →
       jsmap_get userId (GameMatch.players m) = Some p →
       validateTap_exit now p ts1 = ExitSkew →
       validateTap_exit now p ts2 = ExitRate →
       (handleTap now socket userId matchId ts1 s).2
         ≠ (handleTap now socket userId matchId ts2 s).2).
Proof.
  intros H.
  apply (H 2150 "sa" "A" "m1"
           (mm (world_after (trace_started ++ [(2100, OnTap "sa" "A" "m1" 2100)])))
           (GameMatch.mk "m1"
              [("A", Player.mk "A" "sa" "alice" 1 false 2100 1);
               ("B", Player.mk "B" "sb" "bob" 0 false 0 0)]
              active (Some 2010) None 30000 None)
           (Player.mk "A" "sa" "alice" 1 false 2100 1) 1000 2150);
    reflexivity.
Qed.

(** ** Starting twice *)

(** C3 at the failing input: after the early start the deferred start fires
    at 2010; [startMatch] tests only that the match exists, so it emits
    [match_started] a second time, overwrites [startTime] and schedules a
    second [endMatch]. *)
Theorem deferred_start_after_early_start :
  let w := world_after trace_early_start in
  (GameMatch.status <$> match_of "m1" w) = Some active
  ∧ (GameMatch.startTime <$> match_of "m1" w) = Some (Some 600)
  ∧ timers w = [(2010, StartMatchCb "m1"); (30600, EndMatchCb "m1")]
  ∧ ∃ w', step 2010 (OnTimeout 0%nat) w
            = Some (w', [Emit (IoTo "sa") (match_started "m1" 30000 (Some 2010));
                         Emit (IoTo "sb") (match_started "m1" 30000 (Some 2010));
                         SetTimeout (EndMatchCb "m1") 30000])
      ∧ (GameMatch.startTime <$> match_of "m1" w') = Some (Some 2010)
      ∧ timers w' = [(30600, EndMatchCb "m1"); (32010, EndMatchCb "m1")].
Proof.
  cbv zeta. repeat split. eexists. repeat split.
Qed.

(** ** Ending twice, cleaning up twice *)

Lemma cleanup_index_lookup (l : list Player.t) : ∀ (idx : gmap string string) (k : string),
  foldl (λ idx player, delete (Player.id player) idx) idx l !! k
  = if decide (k ∈ Player.id <$> l) then None else idx !! k.
Proof.
  induction l as [|p r IH]; intros idx k.
  - rewrite decide_False; [done|apply not_elem_of_nil].
  - cbn [foldl]. rewrite IH, fmap_cons.
    destruct (decide (k ∈ Player.id <$> r)) as [Hin|Hnin].
    + rewrite decide_True; [done|by right].
    + destruct (decide (k = Player.id p)) as [->|Hne].
      * rewrite decide_True by left. apply lookup_delete_eq.
      * rewrite decide_False; [by apply lookup_delete_ne|].
        rewrite not_elem_of_cons. done.
Qed.

Lemma cleanup_idempotent matchId m s :
  cleanup matchId m (cleanup matchId m s) = cleanup matchId m s.
Proof.
  unfold cleanup. simpl. f_equal.
  - apply jsmap_delete_delete.
  - apply map_eq. intros k. rewrite !cleanup_index_lookup.
    by destruct (decide _).
Qed.

Lemma endMatch_absent now matchId s :
  jsmap_get matchId (matches s) = None → endMatch now matchId s = (s, []).
Proof. intros H. unfold endMatch. by rewrite H. Qed.

Lemma endMatch_state now matchId s :
  (endMatch now matchId s).1 =
    match jsmap_get matchId (matches s) with
    | None => s
    | Some m =>
        with_matches
          (jsmap_set matchId
             (GameMatch.mk (GameMatch.id m) (GameMatch.players m) finished
                (GameMatch.startTime m) (Some now) (GameMatch.duration m)
                (match endMatch_winner (GameMatch.players m) with
                 | Some w => Some (Player.id w)
                 | None => GameMatch.winner m
                 end))
             (matches s)) s
    end.
Proof.
  unfold endMatch. destruct (jsmap_get matchId (matches s)) as [m|]; [|done].
  simpl. by destruct (endMatch_winner _).
Qed.

(** C4 (as the code has it). [endMatch] on an id that is not in [matches] does
    nothing.  On a match that is still there a second call runs in full: what
    it leaves is the state a single call at the second time leaves (so the
    match record keeps its roster, status finished and winner, and two calls
    at the same time leave the state of one).  The clean-up closure run twice
    leaves what one run leaves, on the matchmaker and in the event loop. *)
Theorem endMatch_cleanup_repeat (now1 now2 : Z) (matchId : string) (w : World) :
  (jsmap_get matchId (matches (mm w)) = None →
     endMatch now1 matchId (mm w) = (mm w, []))
  ∧ (endMatch now2 matchId (endMatch now1 matchId (mm w)).1).1
      = (endMatch now2 matchId (mm w)).1
  ∧ (∀ m1 m2,
       jsmap_get matchId (matches (endMatch now1 matchId (mm w)).1) = Some m1 →
       jsmap_get matchId
         (matches (endMatch now2 matchId (endMatch now1 matchId (mm w)).1).1) = Some m2 →
       GameMatch.status m2 = finished
       ∧ GameMatch.winner m2 = GameMatch.winner m1
       ∧ GameMatch.players m2 = GameMatch.players m1)
  ∧ (∀ m, cleanup matchId m (cleanup matchId m (mm w)) = cleanup matchId m (mm w))
  ∧ (∀ ts, let r := run_callback now1 (CleanupCb matchId) w in
           run_callback now2 (CleanupCb matchId) (mkWorld r.1.1 ts r.2) = r).
Proof.
  split; [apply endMatch_absent|].
  assert (Htwice : (endMatch now2 matchId (endMatch now1 matchId (mm w)).1).1
                   = (endMatch now2 matchId (mm w)).1).
  { rewrite !endMatch_state.
    destruct (jsmap_get matchId (matches (mm w))) as [m|] eqn:Hm.
    - simpl. rewrite jsmap_get_set_eq. simpl. unfold with_matches. simpl.
      rewrite jsmap_set_set. by destruct (endMatch_winner _).
    - by rewrite Hm. }
  split; [exact Htwice|]. split; [|split; [intros m; apply cleanup_idempotent|]].
  - intros m1 m2 H1. rewrite Htwice. revert H1. rewrite !endMatch_state.
    destruct (jsmap_get matchId (matches (mm w))) as [m|] eqn:Hm.
    + simpl. rewrite !jsmap_get_set_eq. by intros [= <-] [= <-].
    + rewrite Hm. done.
  - intros ts. simpl. unfold captured.
    destruct (jsmap_get matchId (matches (mm w))) as [m|] eqn:Hm.
    + simpl. unfold captured. simpl. rewrite jsmap_get_delete_eq, jsmap_get_set_eq.
      by rewrite cleanup_idempotent, jsmap_set_set.
    + destruct (jsmap_get matchId (detached w)) as [m|] eqn:Hd; simpl.
      * unfold captured. simpl. rewrite jsmap_get_delete_eq, jsmap_get_set_eq.
        by rewrite cleanup_idempotent, jsmap_set_set.
      * unfold captured. simpl. by rewrite Hm, Hd.
Qed.

Lemma endMatch_cleanup_repeat_witness :
  let w := world_after (trace_started ++ [(2100, OnTap "sa" "A" "m1" 2100)]) in
  let gone := world_after (trace_ended ++ [(37010, OnTimeout 0%nat)]) in
  endMatch 40000 "m1" (mm gone) = (mm gone, [])
  ∧ ∀ m2,
      jsmap_get "m1" (matches (endMatch 33000 "m1" (endMatch 32010 "m1" (mm w)).1).1)
        = Some m2 →
      GameMatch.status m2 = finished ∧ GameMatch.winner m2 = Some "A".
Proof.
  intros w gone. split.
  - apply (endMatch_cleanup_repeat 40000 40000 "m1" gone). reflexivity.
  - intros m2 Hm2.
    destruct (endMatch_cleanup_repeat 32010 33000 "m1" w) as (_ & _ & Hkeep & _).
    destruct (Hkeep
                (GameMatch.mk "m1"
                   [("A", Player.mk "A" "sa" "alice" 1 false 2100 1);
                    ("B", Player.mk "B" "sb" "bob" 0 false 0 0)]
                   finished (Some 2010) (Some 32010) 30000 (Some "A"))
                m2)
      as (Hst & Hwin & _); [reflexivity|exact Hm2|].
    split; [exact Hst|]. rewrite Hwin. reflexivity.
Defined.

(** C4 as stated fails: the end timer of the second start fires at 32010
    while "m1" is still in [matches]; this second [endMatch] overwrites
    [endTime] and emits [match_ended] to both players again.  If A
    disconnects in between, it also replaces the winner A by B. *)
Lemma endMatch_twice_not_once :
  let w := world_after trace_first_end in
  (GameMatch.endTime <$> match_of "m1" w) = Some (Some 30600)
  ∧ (GameMatch.winner <$> match_of "m1" w) = Some (Some "A")
  ∧ (GameMatch.endTime <$> match_of "m1" (mkWorld (endMatch 32010 "m1" (mm w)).1 [] []))
      = Some (Some 32010)
  ∧ (endMatch 32010 "m1" (mm w)).1 ≠ mm w
  ∧ (∃ results winnerId,
       Emit (IoTo "sa") (match_ended "m1" results winnerId)
         ∈ effects_of [(32010, OnTimeout 0%nat)] w)
  ∧ (GameMatch.winner <$>
       match_of "m1"
         (world_after (trace_first_end ++
                       [(31000, OnDisconnect "sa"); (32010, OnTimeout 0%nat)])))
      = Some (Some "B").
Proof.
  cbv zeta. repeat split.
  - intros H. apply (f_equal (λ s, GameMatch.endTime <$> jsmap_get "m1" (matches s))) in H.
    vm_compute in H. discriminate H.
  - eexists _, _. vm_compute. left.
Qed.

(** ** The results array *)

(** The comparator of [endMatch] is [(a, b) => b.taps - a.taps]; [key] stands
    for [taps]. *)
Section JsSortFacts.
Context {A : Type} (key : A → Z).

Lemma js_sort_insert_perm x l : js_sort_insert (λ a b, key b - key a) x l ≡ₚ x :: l.
Proof.
  induction l as [|y r IH]; simpl; [done|].
  destruct ((key y - key x) <=? 0); [done|]. rewrite IH. apply Permutation_swap.
Qed.

Lemma js_sort_perm l : js_sort (λ a b, key b - key a) l ≡ₚ l.
Proof.
  induction l as [|x r IH]; simpl; [done|].
  by rewrite js_sort_insert_perm, IH.
Qed.

Lemma js_sort_insert_sorted x l :
  StronglySorted (λ a b, key b ≤ key a) l →
  StronglySorted (λ a b, key b ≤ key a) (js_sort_insert (λ a b, key b - key a) x l).
Proof.
  induction 1 as [|y r Hr IH Hy]; simpl.
  - repeat constructor.
  - destruct (Z.leb_spec (key y - key x) 0) as [Hle|Hgt].
    + constructor; [by constructor|]. constructor; [simpl; lia|].
      eapply Forall_impl; [exact Hy|]. simpl; intros; lia.
    + constructor; [done|]. rewrite js_sort_insert_perm.
      constructor; [simpl; lia|done].
Qed.

Lemma js_sort_sorted l :
  StronglySorted (λ a b, key b ≤ key a) (js_sort (λ a b, key b - key a) l).
Proof.
  induction l as [|x r IH]; simpl; [constructor|by apply js_sort_insert_sorted].
Qed.

(** Stability: entries with the same key keep their relative order. *)
Lemma js_sort_insert_stable t x l :
  filter (λ a, key a = t) (js_sort_insert (λ a b, key b - key a) x l)
  = filter (λ a, key a = t) (x :: l).
Proof.
  induction l as [|y r IH]; simpl; [done|].
  destruct (Z.leb_spec (key y - key x) 0) as [Hle|Hgt]; [done|].
  rewrite (filter_cons _ y), IH, !(filter_cons _ x), (filter_cons _ y).
  destruct (decide (key x = t)), (decide (key y = t)); try done. lia.
Qed.

Lemma js_sort_stable t l :
  filter (λ a, key a = t) (js_sort (λ a b, key b - key a) l) = filter (λ a, key a = t) l.
Proof.
  induction l as [|x r IH]; simpl; [done|].
  rewrite js_sort_insert_stable, !filter_cons, IH. done.
Qed.
End JsSortFacts.

Lemma endMatch_effects now matchId s m :
  jsmap_get matchId (matches s) = Some m →
  let winner :=
    match endMatch_winner (GameMatch.players m) with
    | Some w => Some (Player.id w)
    | None => GameMatch.winner m
    end in
  (endMatch now matchId s).2
  = map (λ player,
           Emit (IoTo (Player.socketId player))
             (match_ended matchId (endMatch_results (GameMatch.players m) winner) winner))
      (jsmap_values (GameMatch.players m))
    ++ [SetTimeout (CleanupCb matchId) 5000].
Proof.
  intros Hm. unfold endMatch. rewrite Hm. simpl.
  by destruct (endMatch_winner _).
Qed.

(** The roster [createMatch] builds when the first two queued players have
    different ids. *)
Lemma createMatch_roster uuid s p1 p2 rest :
  jsmap_values (queue s) = p1 :: p2 :: rest →
  Player.id p1 ≠ Player.id p2 →
  jsmap_get uuid (matches (createMatch uuid s).1)
  = Some (GameMatch.mk uuid [(Player.id p1, p1); (Player.id p2, p2)]
            waiting None None MATCH_DURATION None).
Proof.
  intros Hq Hne. unfold createMatch.
  assert ((jsmap_size (queue s) <? MATCH_SIZE)%nat = false) as ->.
  { apply Nat.ltb_ge. unfold jsmap_size, jsmap_values in *.
    rewrite <- (length_fmap snd), Hq. simpl. unfold MATCH_SIZE. lia. }
  rewrite Hq. simpl. rewrite decide_False by done. simpl.
  apply jsmap_get_set_eq.
Qed.

(** ** The two player indices *)

Lemma foldl_preserves {A B : Type} (P : A → Prop) (f : A → B → A) (l : list B) :
  (∀ a b, P a → P (f a b)) → ∀ a, P a → P (foldl f a l).
Proof. intros Hf. induction l as [|b r IH]; simpl; auto. Qed.

Lemma dom_delete_subseteq (m : gmap string string) (k : string) :
  dom (delete k m) ⊆ dom m.
Proof. rewrite dom_delete_L. by apply subseteq_difference_l. Qed.

Lemma disjoint_delete_insert (pq ptm : gmap string string) (k v : string) :
  dom pq ## dom ptm → dom (delete k pq) ## dom (<[k:=v]> ptm).
Proof.
  intros Hd x. rewrite dom_delete_L, dom_insert_L.
  rewrite elem_of_difference, elem_of_union, !elem_of_singleton.
  intros [Hx Hne] [->|Hy]; [done|by apply (Hd x)].
Qed.

Lemma disjoint_insert_fresh (pq ptm : gmap string string) (k v : string) :
  k ∉ dom ptm → dom pq ## dom ptm → dom (<[k:=v]> pq) ## dom ptm.
Proof.
  intros Hk Hd x. rewrite dom_insert_L, elem_of_union, elem_of_singleton.
  intros [->|Hx]; [done|by apply Hd].
Qed.

Lemma indices_shrink_refl s : indices_shrink s s.
Proof. by split. Qed.

Lemma indices_shrink_trans s1 s2 s3 :
  indices_shrink s1 s2 → indices_shrink s2 s3 → indices_shrink s1 s3.
Proof. intros [? ?] [? ?]. split; set_solver. Qed.

Lemma same_indices_shrink s s' : same_queue_and_indices s s' → indices_shrink s s'.
Proof. intros (_ & Hm & Hq). unfold indices_shrink. by rewrite Hm, Hq. Qed.

Lemma indices_shrink_disjoint s s' :
  indices_shrink s s' → indices_disjoint s → indices_disjoint s'.
Proof. unfold indices_disjoint. intros [? ?] ?. set_solver. Qed.

Lemma map_has_false k (m : gmap string string) : map_has k m = false → k ∉ dom m.
Proof.
  unfold map_has. intros H. rewrite not_elem_of_dom.
  by destruct (m !! k).
Qed.

Lemma map_has_true k (m : gmap string string) : map_has k m = true ↔ is_Some (m !! k).
Proof.
  unfold map_has. destruct (m !! k); split; try done; eauto; by intros [? ?].
Qed.

Lemma startMatch_frame now matchId s :
  same_queue_and_indices s (startMatch now matchId s).1.
Proof. unfold startMatch. by destruct (jsmap_get matchId (matches s)). Qed.

Lemma endMatch_frame now matchId s :
  same_queue_and_indices s (endMatch now matchId s).1.
Proof. unfold endMatch. by destruct (jsmap_get matchId (matches s)). Qed.

Lemma handlePlayerReady_frame now socket userId matchId s :
  same_queue_and_indices s (handlePlayerReady now socket userId matchId s).1.
Proof.
  unfold handlePlayerReady.
  destruct (jsmap_get matchId (matches s)) as [m|]; [|done].
  destruct (jsmap_get userId (GameMatch.players m)) as [p|]; [|done].
  destruct (_ && _); [|done].
  apply (startMatch_frame now matchId
           (with_matches
              (jsmap_set matchId
                 (GameMatch.with_players
                    (jsmap_set userId (Player.with_isReady true p)
                       (GameMatch.players m)) m) (matches s)) s)).
Qed.

Lemma handleTap_frame now socket userId matchId ts s :
  same_queue_and_indices s (handleTap now socket userId matchId ts s).1.
Proof.
  unfold handleTap.
  destruct (jsmap_get matchId (matches s)) as [m|]; [|done].
  destruct (negb _); [done|].
  destruct (jsmap_get userId (GameMatch.players m)) as [p|]; [|done].
  destruct (validateTap now p ts) as [ok p1]. by destruct ok.
Qed.

Lemma handleLeaveQueue_shrink socket userId s :
  indices_shrink s (handleLeaveQueue socket userId s).1.
Proof.
  unfold handleLeaveQueue. destruct (negb _); [apply indices_shrink_refl|].
  split; simpl; [|done]. apply dom_delete_subseteq.
Qed.

Lemma cleanup_shrink matchId m s : indices_shrink s (cleanup matchId m s).
Proof.
  split; simpl; [done|].
  intros k. rewrite !elem_of_dom, cleanup_index_lookup.
  destruct (decide _); [by intros [? ?]|done].
Qed.

Lemma disconnect_queue_entry_shrink socket s entry :
  indices_shrink s (disconnect_queue_entry socket s entry).
Proof.
  destruct entry as [playerId player]. unfold disconnect_queue_entry.
  destruct (decide _); [|apply indices_shrink_refl].
  split; simpl; [|done]. apply dom_delete_subseteq.
Qed.

Lemma disconnect_match_entry_shrink now socket matchId acc entry :
  indices_shrink acc.1 (disconnect_match_entry now socket matchId acc entry).1.
Proof.
  destruct acc as [s eff], entry as [playerId player]. unfold disconnect_match_entry.
  destruct (decide _); [|apply indices_shrink_refl].
  destruct (jsmap_get matchId (matches s)) as [m|]; [|apply indices_shrink_refl].
  set (s1 := mkMatchmaker _ _ _ _).
  assert (indices_shrink s s1) as Hs1.
  { split; simpl; [done|]. apply dom_delete_subseteq. }
  destruct (_ =? _)%nat; [|done].
  pose proof (same_indices_shrink _ _ (endMatch_frame now matchId s1)) as He.
  destruct (endMatch now matchId s1) as [s2 eff2]. simpl in *.
  by eapply indices_shrink_trans.
Qed.

Lemma disconnect_match_shrink now socket acc matchId :
  indices_shrink acc.1 (disconnect_match now socket acc matchId).1.
Proof.
  unfold disconnect_match.
  destruct (jsmap_get matchId (matches acc.1)) as [m|]; [|apply indices_shrink_refl].
  apply (foldl_preserves (λ a, indices_shrink acc.1 a.1)); [|apply indices_shrink_refl].
  intros a b Ha. eapply indices_shrink_trans; [exact Ha|].
  apply disconnect_match_entry_shrink.
Qed.

Lemma handleDisconnect_shrink now socket s :
  indices_shrink s (handleDisconnect now socket s).1.
Proof.
  unfold handleDisconnect.
  set (s1 := foldl (disconnect_queue_entry socket) s (queue s)).
  assert (indices_shrink s s1) as Hs1.
  { apply (foldl_preserves (indices_shrink s)); [|apply indices_shrink_refl].
    intros a b Ha. eapply indices_shrink_trans; [exact Ha|].
    apply disconnect_queue_entry_shrink. }
  apply (foldl_preserves (λ a, indices_shrink s a.1)); [|exact Hs1].
  intros a b Ha. eapply indices_shrink_trans; [exact Ha|].
  apply disconnect_match_shrink.
Qed.

Lemma createMatch_take_disjoint matchId acc player :
  indices_disjoint acc.2 → indices_disjoint (createMatch_take matchId acc player).2.
Proof.
  destruct acc as [players s]. unfold indices_disjoint. simpl.
  apply disjoint_delete_insert.
Qed.

Lemma createMatch_disjoint uuid s :
  indices_disjoint s → indices_disjoint (createMatch uuid s).1.
Proof.
  intros Hd. unfold createMatch. destruct (_ <? _)%nat; [done|].
  pose proof (foldl_preserves (λ a, indices_disjoint a.2)
                (createMatch_take uuid) (take MATCH_SIZE (jsmap_values (queue s)))
                (createMatch_take_disjoint uuid) ([], s) Hd) as H.
  destruct (foldl _ _ _) as [players s1]. exact H.
Qed.

Lemma handleJoinQueue_disjoint uuid socket userId username s :
  indices_disjoint s → indices_disjoint (handleJoinQueue uuid socket userId username s).1.
Proof.
  intros Hd. unfold handleJoinQueue.
  destruct (map_has userId (playerToMatch s)) eqn:Hm; [done|].
  destruct (map_has userId (playerQueue s)) eqn:Hq; [done|].
  apply map_has_false in Hm.
  set (s1 := mkMatchmaker _ _ _ _).
  assert (indices_disjoint s1) as Hs1.
  { unfold indices_disjoint in *. simpl. by apply disjoint_insert_fresh. }
  destruct (_ <=? _)%nat; [|done].
  pose proof (createMatch_disjoint uuid s1 Hs1) as H.
  by destruct (createMatch uuid s1).
Qed.

Lemma run_callback_disjoint now cb w :
  indices_disjoint (mm w) → indices_disjoint (run_callback now cb w).1.1.
Proof.
  intros Hd. destruct cb as [matchId|matchId|matchId]; simpl.
  - eapply indices_shrink_disjoint; [|exact Hd].
    apply same_indices_shrink, startMatch_frame.
  - eapply indices_shrink_disjoint; [|exact Hd].
    apply same_indices_shrink, endMatch_frame.
  - destruct (captured matchId w); [|done]. simpl.
    eapply indices_shrink_disjoint; [apply cleanup_shrink|exact Hd].
Qed.

Lemma step_disjoint now i w w' eff :
  indices_disjoint (mm w) → step now i w = Some (w', eff) → indices_disjoint (mm w').
Proof.
  intros Hd. destruct i; simpl.
  - destruct (fresh_uuid _ _); [|done]. intros [= <- _]. simpl.
    by apply handleJoinQueue_disjoint.
  - intros [= <- _]. simpl.
    eapply indices_shrink_disjoint; [apply handleLeaveQueue_shrink|done].
  - intros [= <- _]. simpl.
    eapply indices_shrink_disjoint;
      [apply same_indices_shrink, handlePlayerReady_frame|done].
  - intros [= <- _]. simpl.
    eapply indices_shrink_disjoint; [apply same_indices_shrink, handleTap_frame|done].
  - intros [= <- _]. simpl.
    eapply indices_shrink_disjoint; [apply handleDisconnect_shrink|done].
  - destruct (timers w !! i) as [[due cb]|]; [|done].
    destruct (due <=? now); [|done].
    pose proof (run_callback_disjoint now cb w Hd) as H.
    destruct (run_callback now cb w) as [[s e] det]. intros [= <- _]. exact H.
Qed.

(** C7. In every reachable state no player id is in both [playerQueue] and
    [playerToMatch], and every turn of the event loop (join, leave, ready,
    tap, disconnect, and the start, end and clean-up timers) keeps the two
    indices disjoint. *)
Theorem indices_disjoint_invariant :
  (∀ w, reachable w →
     ∀ p, ¬ (is_Some (playerQueue (mm w) !! p) ∧ is_Some (playerToMatch (mm w) !! p)))
  ∧ (∀ now i w w' eff,
       indices_disjoint (mm w) → step now i w = Some (w', eff) →
       indices_disjoint (mm w')).
Proof.
  split; [|apply step_disjoint].
  intros w Hr p. rewrite <- !elem_of_dom.
  assert (indices_disjoint (mm w)) as Hd.
  { induction Hr as [|now i w w' eff Hr IH Hstep].
    - unfold indices_disjoint. simpl. set_solver.
    - by eapply step_disjoint. }
  intros [Hq Hm]. by apply (Hd p).
Qed.

Lemma reachable_run trace w w' eff :
  reachable w → run trace w = Some (w', eff) → reachable w'.
Proof.
  revert w eff. induction trace as [|[now i] rest IH]; intros w eff Hr; simpl.
  - by intros [= <- _].
  - destruct (step now i w) as [[w1 eff1]|] eqn:Hs; [|done].
    destruct (run rest w1) as [[w2 eff2]|] eqn:Hrun; [|done].
    intros [= <- _]. eapply IH; [|exact Hrun]. by eapply reachable_step.
Qed.

Lemma indices_disjoint_invariant_witness :
  ¬ (is_Some (playerQueue (mm (world_after trace_paired)) !! "A")
     ∧ is_Some (playerToMatch (mm (world_after trace_paired)) !! "A"))
  ∧ indices_disjoint (mm (world_after trace_started)).
Proof.
  destruct indices_disjoint_invariant as [Hreach Hstep].
  assert (reachable (world_after trace_paired)) as Hr.
  { apply (reachable_run trace_paired initial_world _ (effects_of trace_paired initial_world));
      [constructor|reflexivity]. }
  split.
  - apply Hreach, Hr.
  - apply (Hstep 2010 (OnTimeout 0%nat) (world_after trace_paired) _
             [Emit (IoTo "sa") (match_started "m1" 30000 (Some 2010));
              Emit (IoTo "sb") (match_started "m1" 30000 (Some 2010));
              SetTimeout (EndMatchCb "m1") 30000]).
    + intros p Hq Hm. apply elem_of_dom in Hq, Hm.
      exact (Hreach _ Hr p (conj Hq Hm)).
    + reflexivity.
Defined.

(** ** How a handler changes the match table *)

Lemma match_step_refl R `{!Reflexive R} s s' :
  matches s' = matches s → match_step R s s'.
Proof.
  intros Heq matchId. rewrite Heq.
  destruct (jsmap_get matchId (matches s)); by constructor.
Qed.

Ltac step_refl := apply match_step_refl; try apply _; done.

Lemma match_step_trans R `{!Transitive R} s1 s2 s3 :
  match_step R s1 s2 → match_step R s2 s3 → match_step R s1 s3.
Proof.
  intros H12 H23 matchId. specialize (H12 matchId). specialize (H23 matchId).
  destruct H12 as [x y Hxy|]; inversion H23; subst; constructor. by etrans.
Qed.

Lemma match_step_set R `{!Reflexive R} s s' matchId m m' :
  jsmap_get matchId (matches s) = Some m →
  matches s' = jsmap_set matchId m' (matches s) →
  R m m' →
  match_step R s s'.
Proof.
  intros Hm Heq HR k. rewrite Heq, jsmap_get_set.
  destruct (decide (k = matchId)) as [->|Hne].
  - rewrite Hm. by constructor.
  - destruct (jsmap_get k (matches s)); by constructor.
Qed.

Lemma startMatch_matches now matchId s :
  matches (startMatch now matchId s).1 =
    match jsmap_get matchId (matches s) with
    | Some m => jsmap_set matchId (started now m) (matches s)
    | None => matches s
    end.
Proof. unfold startMatch. by destruct (jsmap_get matchId (matches s)). Qed.

Lemma endMatch_matches now matchId s :
  matches (endMatch now matchId s).1 =
    match jsmap_get matchId (matches s) with
    | Some m => jsmap_set matchId (ended now m) (matches s)
    | None => matches s
    end.
Proof.
  rewrite endMatch_state. by destruct (jsmap_get matchId (matches s)).
Qed.

#[local] Instance roster_le_refl : Reflexive roster_le.
Proof. intros l. unfold roster_le. done. Qed.

#[local] Instance roster_le_trans : Transitive roster_le.
Proof. intros l1 l2 l3 H12 H23. unfold roster_le in *. by etrans. Qed.

Lemma roster_le_delete k (l : JSMap Player.t) : roster_le l (jsmap_delete k l).
Proof.
  unfold roster_le, roster_sig. induction l as [|[k' v] r IH]; simpl; [done|].
  destruct (decide (k = k')); simpl; [by apply sublist_cons|by apply sublist_skip].
Qed.

Lemma roster_le_absent u l l' : roster_le l l' → absent u l → absent u l'.
Proof.
  unfold roster_le, absent. rewrite !Forall_forall. intros Hsub Hl x Hx.
  apply Hl. by eapply elem_of_sublist.
Qed.

Lemma jsmap_get_roster_sig u (l : JSMap Player.t) :
  is_Some (jsmap_get u l) ↔ u ∈ (roster_sig l).*1.
Proof.
  unfold roster_sig. induction l as [|[k v] r IH]; simpl.
  - split; [by intros [? ?]|by intros ?%elem_of_nil].
  - destruct (decide (u = k)) as [->|Hne].
    + split; [intros _; left|eauto].
    + rewrite IH. split; [by right|]. by intros [?|?]%elem_of_cons.
Qed.

Lemma roster_le_present u l l' :
  roster_le l l' → is_Some (jsmap_get u l') → is_Some (jsmap_get u l).
Proof.
  rewrite !jsmap_get_roster_sig. unfold roster_le. intros Hsub Hin.
  eapply elem_of_sublist; [exact Hin|]. by apply fmap_sublist.
Qed.

Lemma roster_le_nil l' : roster_le [] l' → l' = [].
Proof.
  unfold roster_le, roster_sig. simpl. rewrite sublist_nil_r.
  by destruct l'.
Qed.

Lemma counts_nonneg_delete k l : counts_nonneg l → counts_nonneg (jsmap_delete k l).
Proof.
  unfold counts_nonneg, jsmap_values. induction l as [|[k' v] r IH]; simpl; [done|].
  intros [Hv Hr]%Forall_cons. destruct (decide (k = k')); simpl; auto.
Qed.

Lemma counts_nonneg_set k p l :
  counts_nonneg l → 0 ≤ Player.validatedTaps p → counts_nonneg (jsmap_set k p l).
Proof.
  unfold counts_nonneg, jsmap_values. intros Hl Hp.
  induction l as [|[k' v] r IH]; simpl in *; [by repeat constructor|].
  apply Forall_cons in Hl as [Hv Hr].
  destruct (decide (k = k')); simpl; constructor; auto.
Qed.

#[local] Instance disconnect_move_refl : Reflexive disconnect_move.
Proof. intros m. split; [done|]. split; [by left|by intros ?]. Qed.

#[local] Instance disconnect_move_trans : Transitive disconnect_move.
Proof.
  intros m1 m2 m3 (Hl12 & H12 & Hc12) (Hl23 & H23 & Hc23).
  split; [by etrans|]. split; [|intros ?; by apply Hc23, Hc12].
  destruct H23 as [Hst|[Hst Hnil]]; [|right; by split].
  destruct H12 as [Hst'|[Hst' Hnil']]; [left; congruence|].
  right. split; [congruence|]. rewrite Hnil' in Hl23. by apply roster_le_nil.
Qed.

Lemma disconnect_match_entry_move now socket matchId acc entry :
  match_step disconnect_move acc.1
    (disconnect_match_entry now socket matchId acc entry).1.
Proof.
  destruct acc as [s eff], entry as [playerId player]. unfold disconnect_match_entry.
  cbn [fst]. destruct (decide _); [|step_refl].
  destruct (jsmap_get matchId (matches s)) as [m|] eqn:Hm;
    [|step_refl].
  set (m1 := GameMatch.with_players _ m). set (s1 := mkMatchmaker _ _ _ _).
  assert (match_step disconnect_move s s1) as Hs1.
  { apply (match_step_set _ s s1 matchId m m1); [done|done|].
    split; [apply roster_le_delete|]. split; [by left|].
    intros Hc. by apply counts_nonneg_delete. }
  destruct (jsmap_size (GameMatch.players m1) =? 0)%nat eqn:Hsz; [|exact Hs1].
  apply Nat.eqb_eq in Hsz.
  assert (match_step disconnect_move s1 (endMatch now matchId s1).1) as He.
  { apply (match_step_set _ s1 _ matchId m1 (ended now m1)).
    - simpl. apply jsmap_get_set_eq.
    - rewrite endMatch_matches. simpl. by rewrite jsmap_get_set_eq.
    - split; [done|]. split; [|by intros ?]. right. split; [done|].
      apply nil_length_inv, Hsz. }
  destruct (endMatch now matchId s1) as [s2 eff2]. simpl in *.
  by eapply match_step_trans; [apply _|exact Hs1|exact He].
Qed.

Lemma handleDisconnect_move now socket s :
  match_step disconnect_move s (handleDisconnect now socket s).1.
Proof.
  unfold handleDisconnect.
  set (s1 := foldl (disconnect_queue_entry socket) s (queue s)).
  assert (matches s1 = matches s) as Hs1.
  { apply (foldl_preserves (λ a, matches a = matches s)); [|done].
    intros a [k p] Ha. unfold disconnect_queue_entry. by destruct (decide _). }
  apply (foldl_preserves (λ a, match_step disconnect_move s a.1)).
  - intros a matchId Ha. eapply match_step_trans; [apply _|exact Ha|].
    unfold disconnect_match.
    destruct (jsmap_get matchId (matches a.1)) as [m|];
      [|step_refl].
    apply (foldl_preserves (λ b, match_step disconnect_move a.1 b.1)).
    + intros b e Hb. eapply match_step_trans; [apply _|exact Hb|].
      apply disconnect_match_entry_move.
    + step_refl.
  - step_refl.
Qed.

Lemma updates_one_lookup R matchId s s' k m' :
  updates_one R matchId s s' →
  jsmap_get k (matches s') = Some m' →
  jsmap_get k (matches s) = Some m'
  ∨ (k = matchId ∧ ∃ m, jsmap_get matchId (matches s) = Some m ∧ R m m').
Proof.
  intros [Heq|(m & m1 & Hm & Heq & HR)]; rewrite Heq; [by left|].
  rewrite jsmap_get_set. destruct (decide (k = matchId)) as [->|Hne]; [|by left].
  intros [= <-]. right. eauto.
Qed.

Lemma updates_one_present R matchId s s' k :
  updates_one R matchId s s' →
  is_Some (jsmap_get k (matches s)) → is_Some (jsmap_get k (matches s')).
Proof.
  intros [Heq|(m & m1 & Hm & Heq & HR)]; rewrite Heq; [done|].
  rewrite jsmap_get_set. destruct (decide (k = matchId)); eauto.
Qed.

Lemma jsmap_set_same_roster_ids k p p' (l : JSMap Player.t) :
  jsmap_get k l = Some p → Player.id p' = Player.id p →
  same_roster_ids l (jsmap_set k p' l).
Proof.
  intros Hget Hid. unfold same_roster_ids, roster_sig.
  induction l as [|[k' v] r IH]; simpl in *; [done|].
  destruct (decide (k = k')) as [->|Hne]; simpl.
  - injection Hget as ->. by rewrite Hid.
  - f_equal. by apply IH.
Qed.

Lemma same_roster_ids_le l l' : same_roster_ids l l' → roster_le l l'.
Proof. unfold same_roster_ids, roster_le. by intros ->. Qed.

Lemma startMatch_updates now matchId s :
  updates_one (λ m m', m' = started now m) matchId s (startMatch now matchId s).1.
Proof.
  unfold updates_one. rewrite startMatch_matches.
  destruct (jsmap_get matchId (matches s)) as [m|]; [|by left].
  right. by exists m, (started now m).
Qed.

Lemma endMatch_updates now matchId s :
  updates_one (λ m m', m' = ended now m) matchId s (endMatch now matchId s).1.
Proof.
  unfold updates_one. rewrite endMatch_matches.
  destruct (jsmap_get matchId (matches s)) as [m|]; [|by left].
  right. by exists m, (ended now m).
Qed.

Lemma handleTap_updates now socket userId matchId ts s :
  updates_one tap_move matchId s (handleTap now socket userId matchId ts s).1.
Proof.
  unfold handleTap.
  destruct (jsmap_get matchId (matches s)) as [m|] eqn:Hm; [|by left].
  destruct (negb _); [by left|].
  destruct (jsmap_get userId (GameMatch.players m)) as [p|] eqn:Hp; [|by left].
  pose proof (validateTap_exit_result now p ts) as Hv.
  destruct (validateTap now p ts) as [ok p1]. destruct ok; [|by left].
  right. eexists m, _. split; [done|]. split; [done|]. split; [done|].
  assert (p1 = Player.with_lastTapTimestamp now p) as ->.
  { destruct (validateTap_exit now p ts); try discriminate Hv. by injection Hv. }
  split; [by apply (jsmap_set_same_roster_ids _ p)|].
  intros Hc. simpl. apply counts_nonneg_set; [done|]. simpl.
  apply jsmap_get_Some_elem in Hp. unfold counts_nonneg in Hc.
  rewrite Forall_forall in Hc.
  specialize (Hc p (list_elem_of_fmap_2 snd _ _ Hp)). simpl in Hc. lia.
Qed.

Lemma handlePlayerReady_updates now socket userId matchId s :
  updates_one ready_move matchId s (handlePlayerReady now socket userId matchId s).1.
Proof.
  unfold handlePlayerReady.
  destruct (jsmap_get matchId (matches s)) as [m|] eqn:Hm; [|by left].
  destruct (jsmap_get userId (GameMatch.players m)) as [p|] eqn:Hp; [|by left].
  set (m1 := GameMatch.with_players _ m).
  assert (same_roster_ids (GameMatch.players m) (GameMatch.players m1)
          ∧ keeps_counts m m1) as Hids.
  { split; [by apply (jsmap_set_same_roster_ids _ p)|].
    intros Hc. simpl. apply counts_nonneg_set; [done|]. simpl.
    apply jsmap_get_Some_elem in Hp. unfold counts_nonneg in Hc.
    rewrite Forall_forall in Hc.
    exact (Hc p (list_elem_of_fmap_2 snd _ _ Hp)). }
  destruct (forallb _ _ && bool_decide _) eqn:Hgo.
  - apply andb_true_iff in Hgo as [_ Hw]. apply bool_decide_eq_true in Hw.
    right. exists m, (started now m1). split; [done|]. split.
    + rewrite startMatch_matches. simpl. rewrite jsmap_get_set_eq.
      apply jsmap_set_set.
    + split; [right; by split|done].
  - right. exists m, m1. split; [done|]. split; [done|]. split; [by left|done].
Qed.

Lemma createMatch_matches uuid s :
  matches (createMatch uuid s).1 = matches s
  ∨ ∃ players, matches (createMatch uuid s).1
      = jsmap_set uuid (GameMatch.mk uuid players waiting None None MATCH_DURATION None)
          (matches s).
Proof.
  unfold createMatch. destruct (_ <? _)%nat; [by left|].
  assert (matches (foldl (createMatch_take uuid) ([], s)
                     (take MATCH_SIZE (jsmap_values (queue s)))).2 = matches s) as H.
  { apply (foldl_preserves (λ a, matches a.2 = matches s)); [|done].
    by intros [ps a] b. }
  destruct (foldl _ _ _) as [players s1]. right. exists players. simpl in *.
  by rewrite H.
Qed.

Lemma handleJoinQueue_matches uuid socket userId username s :
  matches (handleJoinQueue uuid socket userId username s).1 = matches s
  ∨ ∃ players, matches (handleJoinQueue uuid socket userId username s).1
      = jsmap_set uuid (GameMatch.mk uuid players waiting None None MATCH_DURATION None)
          (matches s).
Proof.
  unfold handleJoinQueue.
  destruct (map_has userId (playerToMatch s)); [by left|].
  destruct (map_has userId (playerQueue s)); [by left|].
  destruct (_ <=? _)%nat; [|by left].
  set (s1 := mkMatchmaker _ _ _ _).
  pose proof (createMatch_matches uuid s1) as H.
  destruct (createMatch uuid s1) as [s2 eff2]. exact H.
Qed.

Lemma handleLeaveQueue_matches socket userId s :
  matches (handleLeaveQueue socket userId s).1 = matches s.
Proof. unfold handleLeaveQueue. by destruct (negb _). Qed.

(** ** Status transitions *)

Lemma step_status_move now i w w' eff matchId m' :
  step now i w = Some (w', eff) →
  match_of matchId w' = Some m' →
  match match_of matchId w with
  | Some m => StatusMove w i matchId m m'
  | None =>
      GameMatch.status m' = waiting
      ∧ ∃ socket userId username, i = OnJoinQueue matchId socket userId username
  end.
Proof.
  unfold match_of. destruct i; simpl.
  - destruct (fresh_uuid uuid w) eqn:Hfresh; [|done]. intros [= <- _]. simpl.
    apply andb_true_iff in Hfresh as [Hfresh _]. unfold jsmap_has in Hfresh.
    destruct (handleJoinQueue_matches uuid socket userId username (mm w))
      as [->|[players ->]].
    + intros ->. by apply status_kept.
    + rewrite jsmap_get_set. destruct (decide (matchId = uuid)) as [->|Hne].
      * intros [= <-]. destruct (jsmap_get uuid (matches (mm w))); [done|].
        split; [done|]. eauto.
      * intros ->. by apply status_kept.
  - intros [= <- _]. simpl. rewrite handleLeaveQueue_matches.
    intros ->. by apply status_kept.
  - intros [= <- _] Hm'. simpl in Hm'.
    destruct (updates_one_lookup _ _ _ _ _ _
                (handlePlayerReady_updates now socket userId matchId0 (mm w)) Hm')
      as [->|(-> & m & -> & ([Hst|[Hw Ha]] & _))].
    + by apply status_kept.
    + by apply status_kept.
    + by eapply status_ready_start.
  - intros [= <- _] Hm'. simpl in Hm'.
    destruct (updates_one_lookup _ _ _ _ _ _
                (handleTap_updates now socket userId matchId0 timestamp (mm w)) Hm')
      as [->|(-> & m & -> & (Hst & _))]; by apply status_kept.
  - intros [= <- _] Hm'. simpl in Hm'.
    pose proof (handleDisconnect_move now socket (mm w) matchId) as H.
    rewrite Hm' in H. inversion H as [m m2 (_ & Hmove & _) Heq1 Heq2|]; subst.
    destruct Hmove as [Hst|[Hst Hnil]]; [by apply status_kept|].
    by eapply status_disconnect_end.
  - destruct (timers w !! i) as [[due cb]|] eqn:Ht; [|done].
    destruct (due <=? now); [|done].
    destruct cb as [id|id|id]; simpl.
    + pose proof (startMatch_updates now id (mm w)) as Hu.
      destruct (startMatch now id (mm w)) as [s1 e1]. intros [= <- _] Hm'.
      simpl in Hm', Hu.
      destruct (updates_one_lookup _ _ _ _ _ _ Hu Hm')
        as [->|(-> & m & -> & ->)]; [by apply status_kept|].
      by eapply status_timer_start.
    + pose proof (endMatch_updates now id (mm w)) as Hu.
      destruct (endMatch now id (mm w)) as [s1 e1]. intros [= <- _] Hm'.
      simpl in Hm', Hu.
      destruct (updates_one_lookup _ _ _ _ _ _ Hu Hm')
        as [->|(-> & m & -> & ->)]; [by apply status_kept|].
      by eapply status_timer_end.
    + destruct (captured id w) as [m|]; intros [= <- _]; simpl.
      * destruct (decide (matchId = id)) as [->|Hne].
        -- by rewrite jsmap_get_delete_eq.
        -- rewrite jsmap_get_delete_ne by done. intros ->. by apply status_kept.
      * intros ->. by apply status_kept.
Qed.

Lemma reachable_never_starting w :
  reachable w → ∀ matchId m, match_of matchId w = Some m → GameMatch.status m ≠ starting.
Proof.
  induction 1 as [|now i w w' eff Hr IH Hstep]; intros matchId m' Hm'.
  - done.
  - pose proof (step_status_move now i w w' eff matchId m' Hstep Hm') as Hmove.
    destruct (match_of matchId w) as [m|] eqn:Hm.
    + specialize (IH matchId m Hm).
      destruct Hmove as [Hst|? ? _ _ Hst|? ? _ _ Hst|? ? _ _ Hst|? _ _ Hst];
        congruence.
    + destruct Hmove as [Hst _]. congruence.
Qed.

(** C8 (as the code has it). A match enters the table in status waiting, when
    a join pairs it.  One turn of the event loop then either keeps the status
    of a match, or sets it to active (on player_ready only from waiting, or
    by the start timer of the match), or sets it to finished (by the end
    timer of the match, or by a disconnect that leaves the roster empty,
    whatever the status was).  No reachable match has status starting. *)
Theorem status_transitions (now : Z) (i : Input) (w w' : World) (eff : list Effect)
    (matchId : string) (m' : GameMatch.t) :
  step now i w = Some (w', eff) →
  match_of matchId w' = Some m' →
  match match_of matchId w with
  | Some m => StatusMove w i matchId m m'
  | None =>
      GameMatch.status m' = waiting
      ∧ ∃ socket userId username, i = OnJoinQueue matchId socket userId username
  end
  ∧ (reachable w → GameMatch.status m' ≠ starting).
Proof.
  intros Hstep Hm'. split; [by eapply step_status_move|].
  intros Hr. eapply (reachable_never_starting w'); [|exact Hm'].
  by eapply reachable_step.
Qed.

Lemma status_transitions_witness :
  let m := GameMatch.mk "m1"
             [("A", Player.mk "A" "sa" "alice" 0 false 0 0);
              ("B", Player.mk "B" "sb" "bob" 0 false 0 0)]
             waiting None None 30000 None in
  StatusMove (world_after trace_paired) (OnTimeout 0%nat) "m1" m (started 2010 m)
  ∧ GameMatch.status (started 2010 m) ≠ starting.
Proof.
  intros m.
  destruct (status_transitions 2010 (OnTimeout 0%nat) (world_after trace_paired)
              (world_after trace_started)
              [Emit (IoTo "sa") (match_started "m1" 30000 (Some 2010));
               Emit (IoTo "sb") (match_started "m1" 30000 (Some 2010));
               SetTimeout (EndMatchCb "m1") 30000]
              "m1" (started 2010 m)) as [Hmove Hns].
  - reflexivity.
  - reflexivity.
  - split; [exact Hmove|]. apply Hns.
    apply (reachable_run trace_paired initial_world _
             (effects_of trace_paired initial_world)); [constructor|reflexivity].
Defined.

(** C8 as stated fails: with A gone, B's disconnect at 200 empties the roster
    of the waiting match "m1", and [endMatch] moves it from waiting to
    finished in one step. *)
Lemma waiting_to_finished_in_one_step :
  ¬ (∀ now i w w' eff matchId m m',
       reachable w →
       step now i w = Some (w', eff) →
       match_of matchId w = Some m →
       match_of matchId w' = Some m' →
       GameMatch.status m = waiting →
       GameMatch.status m' ≠ finished).
Proof.
  intros H.
  apply (H 200 (OnDisconnect "sb") (world_after trace_one_left)
           (world_after (trace_one_left ++ [(200, OnDisconnect "sb")]))
           [SetTimeout (CleanupCb "m1") 5000]
           "m1"
           (GameMatch.mk "m1" [("B", Player.mk "B" "sb" "bob" 0 false 0 0)]
              waiting None None 30000 None)
           (GameMatch.mk "m1" [] finished None (Some 200) 30000 None)).
  - apply (reachable_run trace_one_left initial_world _
             (effects_of trace_one_left initial_world)); [constructor|reflexivity].
  - reflexivity.
  - reflexivity.
  - reflexivity.
  - reflexivity.
  - reflexivity.
Qed.

(** ** A finished match keeps its players out of the queue *)

Lemma foldl_preserves_elem {A B : Type} (P : A → Prop) (f : A → B → A) (l : list B) :
  (∀ a b, b ∈ l → P a → P (f a b)) → ∀ a, P a → P (foldl f a l).
Proof.
  induction l as [|b r IH]; intros Hf a Ha; simpl; [done|].
  apply IH.
  - intros a' b' Hb'. apply Hf. by right.
  - apply Hf; [left|done].
Qed.

Lemma jsmap_get_delete_Some {V} k k' (v : V) (m : JSMap V) :
  jsmap_get k (jsmap_delete k' m) = Some v → k ≠ k' ∧ jsmap_get k m = Some v.
Proof.
  destruct (decide (k = k')) as [->|Hne].
  - by rewrite jsmap_get_delete_eq.
  - by rewrite jsmap_get_delete_ne.
Qed.

Lemma absent_set u k p (l : JSMap Player.t) :
  absent u l → k ≠ u → Player.id p ≠ u → absent u (jsmap_set k p l).
Proof.
  unfold absent, roster_sig. intros Hl Hk Hp.
  induction l as [|[k' v] r IH]; simpl in *.
  - by repeat constructor.
  - apply Forall_cons in Hl as [Hkv Hr].
    destruct (decide (k = k')) as [->|Hne]; simpl.
    + by constructor.
    + constructor; [done|by apply IH].
Qed.

Lemma absent_entry u k p (l : JSMap Player.t) :
  absent u l → (k, p) ∈ l → k ≠ u ∧ Player.id p ≠ u.
Proof.
  unfold absent. rewrite Forall_forall. intros Hl Hin.
  apply (Hl (k, Player.id p)). unfold roster_sig.
  by apply (list_elem_of_fmap_2 (λ kp, (kp.1, Player.id kp.2)) _ (k, p)).
Qed.

Section Held.
Variables (u matchId : string).

Lemma holds_player_updates_one R k s s' :
  (∀ m m', R m m' → roster_le (GameMatch.players m) (GameMatch.players m')) →
  updates_one R k s s' → same_queue_and_indices s s' →
  (holds_player u matchId) s → (holds_player u matchId) s'.
Proof.
  intros HR Hu (Hq & Hp & _) Hh [m' [Hm' Hon]].
  assert ((on_roster u matchId) s) as Hs.
  { destruct (updates_one_lookup _ _ _ _ _ _ Hu Hm') as [Hm|(Hk & m & Hm & Hmm)].
    - by exists m'.
    - subst k. exists m. split; [done|]. eapply roster_le_present; [by apply HR|done]. }
  destruct (Hh Hs) as (Hin & Hqa & Hothers).
  rewrite Hp, Hq. split; [done|]. split; [done|].
  intros k2 m2 Hne Hm2.
  destruct (updates_one_lookup _ _ _ _ _ _ Hu Hm2) as [Hm|(-> & m & Hm & Hmm)].
  - by eapply Hothers.
  - eapply roster_le_absent; [by apply HR|]. by eapply Hothers.
Qed.

Lemma startMatch_holds now k s :
  (holds_player u matchId) s → (holds_player u matchId) (startMatch now k s).1.
Proof.
  apply (holds_player_updates_one (λ m m', m' = started now m) k);
    [by intros m m' ->|apply startMatch_updates|apply startMatch_frame].
Qed.

Lemma endMatch_holds now k s :
  (holds_player u matchId) s → (holds_player u matchId) (endMatch now k s).1.
Proof.
  apply (holds_player_updates_one (λ m m', m' = ended now m) k);
    [by intros m m' ->|apply endMatch_updates|apply endMatch_frame].
Qed.

Lemma handleTap_holds now socket userId k ts s :
  (holds_player u matchId) s → (holds_player u matchId) (handleTap now socket userId k ts s).1.
Proof.
  apply (holds_player_updates_one tap_move k);
    [|apply handleTap_updates|apply handleTap_frame].
  intros m m' (_ & H & _). by apply same_roster_ids_le.
Qed.

Lemma handlePlayerReady_holds now socket userId k s :
  (holds_player u matchId) s → (holds_player u matchId) (handlePlayerReady now socket userId k s).1.
Proof.
  apply (holds_player_updates_one ready_move k);
    [|apply handlePlayerReady_updates|apply handlePlayerReady_frame].
  intros m m' (_ & H & _). by apply same_roster_ids_le.
Qed.

Lemma holds_player_queue_shrink s s' :
  matches s' = matches s → playerToMatch s' = playerToMatch s →
  roster_le (queue s) (queue s') →
  (holds_player u matchId) s → (holds_player u matchId) s'.
Proof.
  intros Hm Hp Hq Hh [m' [Hm' Hon]]. rewrite Hm in Hm'.
  destruct (Hh (ex_intro _ m' (conj Hm' Hon))) as (Hin & Hqa & Hothers).
  rewrite Hp, Hm. split; [done|]. split; [|done].
  by eapply roster_le_absent.
Qed.

Lemma handleLeaveQueue_holds socket userId s :
  (holds_player u matchId) s → (holds_player u matchId) (handleLeaveQueue socket userId s).1.
Proof.
  unfold handleLeaveQueue. destruct (negb _); [done|].
  apply holds_player_queue_shrink; [done|done|apply roster_le_delete].
Qed.

Lemma cleanup_holds k mk s :
  u ∉ Player.id <$> jsmap_values (GameMatch.players mk) →
  (holds_player u matchId) s → (holds_player u matchId) (cleanup k mk s).
Proof.
  intros Hu Hh [m' [Hm' Hon]]. simpl in Hm'.
  apply jsmap_get_delete_Some in Hm' as [Hne Hm'].
  destruct (Hh (ex_intro _ m' (conj Hm' Hon))) as (Hin & Hqa & Hothers).
  simpl. split; [|split; [done|]].
  - rewrite cleanup_index_lookup. by rewrite decide_False.
  - intros k2 m2 Hne2 Hm2. apply jsmap_get_delete_Some in Hm2 as [_ Hm2].
    by eapply Hothers.
Qed.

Lemma disconnect_match_entry_holds now socket k s0 mk0 acc entry :
  jsmap_get k (matches s0) = Some mk0 →
  entry ∈ GameMatch.players mk0 →
  (holds_player u matchId) s0 →
  match_step disconnect_move s0 acc.1 →
  (holds_player u matchId) acc.1 →
  (holds_player u matchId) (disconnect_match_entry now socket k acc entry).1.
Proof.
  destruct acc as [s eff], entry as [pid pl]. cbn [fst].
  intros Hk0 Hentry Hh0 Hstep Hh. unfold disconnect_match_entry.
  destruct (decide _); [|done].
  destruct (jsmap_get k (matches s)) as [m|] eqn:Hm; [|done].
  set (m1 := GameMatch.with_players _ m). set (s1 := mkMatchmaker _ _ _ _).
  assert ((holds_player u matchId) s1) as Hs1.
  { intros [m' [Hm' Hon]]. simpl in Hm'. rewrite jsmap_get_set in Hm'.
    destruct (decide (matchId = k)) as [<-|Hne].
    - injection Hm' as <-. simpl in Hon.
      assert (pid ≠ u) as Hpid.
      { intros ->. rewrite jsmap_get_delete_eq in Hon. by destruct Hon. }
      rewrite jsmap_get_delete_ne in Hon by done.
      destruct (Hh (ex_intro _ m (conj Hm Hon))) as (Hin & Hqa & Hothers).
      simpl. split; [by rewrite lookup_delete_ne|]. split; [done|].
      intros k2 m2 Hne2. rewrite jsmap_get_set_ne by done. by apply Hothers.
    - destruct (Hh (ex_intro _ m' (conj Hm' Hon))) as (Hin & Hqa & Hothers).
      assert (pid ≠ u) as Hpid.
      { pose proof (Hstep matchId) as Hrel. rewrite Hm' in Hrel.
        inversion Hrel as [m0 ? (Hle & _) Hm0|]; subst.
        assert ((on_roster u matchId) s0) as Hon0.
        { exists m0. split; [done|]. by eapply roster_le_present. }
        destruct (Hh0 Hon0) as (_ & _ & Hothers0).
        assert (k ≠ matchId) as Hne' by done.
        by destruct (absent_entry u pid pl _ (Hothers0 k mk0 Hne' Hk0) Hentry). }
      simpl. split; [by rewrite lookup_delete_ne|]. split; [done|].
      intros k2 m2 Hne2. rewrite jsmap_get_set.
      destruct (decide (k2 = k)) as [->|Hne3]; [|by apply Hothers].
      intros [= <-]. simpl. eapply roster_le_absent; [apply roster_le_delete|].
      by eapply Hothers. }
  destruct (_ =? _)%nat; [|exact Hs1].
  pose proof (endMatch_holds now k s1 Hs1) as He.
  by destruct (endMatch now k s1) as [s2 eff2].
Qed.

Lemma disconnect_match_holds now socket acc k :
  (holds_player u matchId) acc.1 → (holds_player u matchId) (disconnect_match now socket acc k).1.
Proof.
  intros Hh. unfold disconnect_match.
  destruct (jsmap_get k (matches acc.1)) as [mk0|] eqn:Hk0; [|done].
  apply (foldl_preserves_elem
           (λ b, match_step disconnect_move acc.1 b.1 ∧ (holds_player u matchId) b.1)
           (disconnect_match_entry now socket k) (GameMatch.players mk0)).
  - intros b e He [Hms Hb]. split.
    + eapply match_step_trans; [apply _|exact Hms|].
      apply disconnect_match_entry_move.
    + by eapply disconnect_match_entry_holds.
  - split; [step_refl|done].
Qed.

Lemma handleDisconnect_holds now socket s :
  (holds_player u matchId) s → (holds_player u matchId) (handleDisconnect now socket s).1.
Proof.
  intros Hh. unfold handleDisconnect.
  set (s1 := foldl (disconnect_queue_entry socket) s (queue s)).
  assert ((holds_player u matchId) s1) as Hs1.
  { apply (foldl_preserves (holds_player u matchId)); [|done].
    intros a [pid pl] Ha. unfold disconnect_queue_entry.
    destruct (decide _); [|done].
    revert Ha. apply holds_player_queue_shrink; [done|done|apply roster_le_delete]. }
  apply (foldl_preserves (λ a, (holds_player u matchId) a.1)); [|done].
  intros a k. apply disconnect_match_holds.
Qed.

Lemma createMatch_fold_facts uuid (l : list Player.t) :
  Forall (λ p, Player.id p ≠ u) l →
  ∀ players s,
    is_Some (playerToMatch s !! u) → absent u (queue s) → absent u players →
    let r := foldl (createMatch_take uuid) (players, s) l in
    matches r.2 = matches s
    ∧ is_Some (playerToMatch r.2 !! u)
    ∧ absent u (queue r.2)
    ∧ absent u r.1.
Proof.
  induction 1 as [|p l Hp Hl IH]; intros players s Hin Hq Hpl; simpl; [done|].
  destruct (IH (jsmap_set (Player.id p) p players)
              (mkMatchmaker (matches s) (jsmap_delete (Player.id p) (queue s))
                 (<[Player.id p:=uuid]> (playerToMatch s))
                 (delete (Player.id p) (playerQueue s))))
    as (H1 & H2 & H3 & H4); simpl.
  - rewrite lookup_insert_ne by done. done.
  - eapply roster_le_absent; [apply roster_le_delete|done].
  - by apply absent_set.
  - done.
Qed.

Lemma createMatch_matches_frame uuid s :
  uuid ≠ matchId →
  jsmap_get matchId (matches (createMatch uuid s).1) = jsmap_get matchId (matches s).
Proof.
  intros Hne. destruct (createMatch_matches uuid s) as [->|[ps ->]]; [done|].
  by rewrite jsmap_get_set_ne.
Qed.

Lemma createMatch_holds uuid s :
  uuid ≠ matchId → (holds_player u matchId) s → (holds_player u matchId) (createMatch uuid s).1.
Proof.
  intros Hne Hh [m' [Hm' Hon]].
  rewrite createMatch_matches_frame in Hm' by done.
  destruct (Hh (ex_intro _ m' (conj Hm' Hon))) as (Hin & Hqa & Hothers).
  unfold createMatch. destruct (_ <? _)%nat; [done|].
  assert (Forall (λ p, Player.id p ≠ u) (take MATCH_SIZE (jsmap_values (queue s))))
    as Hids.
  { apply Forall_forall. intros p Hp.
    pose proof (elem_of_sublist _ _ _ Hp (sublist_take _ _)) as Hp'.
    apply list_elem_of_fmap in Hp' as ([k p'] & -> & Hkp).
    by destruct (absent_entry u k p' _ Hqa Hkp). }
  pose proof (createMatch_fold_facts uuid _ Hids [] s Hin Hqa) as Hfold.
  destruct (foldl _ _ _) as [players s1]. simpl in *.
  destruct Hfold as (H1 & H2 & H3 & H4); [constructor|].
  split; [done|]. split; [done|].
  intros k2 m2 Hne2. rewrite jsmap_get_set, H1.
  destruct (decide (k2 = uuid)) as [->|Hne3]; [|by apply Hothers].
  by intros [= <-].
Qed.

Lemma handleJoinQueue_holds uuid socket userId username s :
  uuid ≠ matchId →
  (holds_player u matchId) s → (holds_player u matchId) (handleJoinQueue uuid socket userId username s).1.
Proof.
  intros Hne Hh. unfold handleJoinQueue.
  destruct (map_has userId (playerToMatch s)) eqn:Hm; [done|].
  destruct (map_has userId (playerQueue s)) eqn:Hq; [done|].
  set (s1 := mkMatchmaker _ _ _ _).
  assert ((holds_player u matchId) s1) as Hs1.
  { intros [m' [Hm' Hon]]. simpl in Hm'.
    destruct (Hh (ex_intro _ m' (conj Hm' Hon))) as (Hin & Hqa & Hothers).
    simpl. split; [done|]. split; [|done].
    assert (userId ≠ u) as Hu.
    { intros ->. apply map_has_true in Hin. congruence. }
    by apply absent_set. }
  destruct (_ <=? _)%nat; [|done].
  pose proof (createMatch_holds uuid s1 Hne Hs1) as H.
  by destruct (createMatch uuid s1).
Qed.
End Held.

Lemma known_fresh matchId uuid w :
  known matchId w → fresh_uuid uuid w = true → uuid ≠ matchId.
Proof.
  unfold fresh_uuid, jsmap_has. intros Hk Hf ->.
  apply andb_true_iff in Hf as [H1 H2].
  destruct Hk as [[m Hm]|[m Hm]]; rewrite Hm in *; done.
Qed.

Lemma step_known now i w w' eff matchId :
  known matchId w → step now i w = Some (w', eff) → known matchId w'.
Proof.
  intros Hk. destruct i; simpl.
  - destruct (fresh_uuid uuid w); [|done]. intros [= <- _].
    destruct Hk as [Hk|Hk]; [left|by right]. simpl.
    destruct (handleJoinQueue_matches uuid socket userId username (mm w))
      as [->|[ps ->]]; [done|].
    rewrite jsmap_get_set. by destruct (decide _).
  - intros [= <- _]. destruct Hk as [Hk|Hk]; [left|by right]. simpl.
    by rewrite handleLeaveQueue_matches.
  - intros [= <- _]. destruct Hk as [Hk|Hk]; [left|by right]. simpl.
    eapply updates_one_present; [apply handlePlayerReady_updates|done].
  - intros [= <- _]. destruct Hk as [Hk|Hk]; [left|by right]. simpl.
    eapply updates_one_present; [apply handleTap_updates|done].
  - intros [= <- _]. destruct Hk as [Hk|Hk]; [left|by right]. simpl.
    pose proof (handleDisconnect_move now socket (mm w) matchId) as H.
    destruct Hk as [m Hm]. rewrite Hm in H. inversion H. eauto.
  - destruct (timers w !! i) as [[due cb]|]; [|done].
    destruct (due <=? now); [|done].
    destruct cb as [k|k|k]; simpl.
    + pose proof (startMatch_updates now k (mm w)) as Hu.
      destruct (startMatch now k (mm w)) as [s1 e1]. intros [= <- _].
      destruct Hk as [Hk|Hk]; [left|by right]. simpl in *.
      by eapply updates_one_present.
    + pose proof (endMatch_updates now k (mm w)) as Hu.
      destruct (endMatch now k (mm w)) as [s1 e1]. intros [= <- _].
      destruct Hk as [Hk|Hk]; [left|by right]. simpl in *.
      by eapply updates_one_present.
    + unfold captured.
      destruct (jsmap_get k (matches (mm w))) as [mk|] eqn:Hlive.
      * intros [= <- _]. unfold known. simpl.
        destruct (decide (matchId = k)) as [->|Hne].
        -- right. rewrite jsmap_get_set_eq. eauto.
        -- rewrite jsmap_get_delete_ne, jsmap_get_set_ne by done. exact Hk.
      * destruct (jsmap_get k (detached w)) as [mk|] eqn:Hdet.
        -- intros [= <- _]. unfold known. simpl.
           rewrite (jsmap_delete_absent _ _ Hlive), (jsmap_set_get_id _ _ _ Hdet).
           exact Hk.
        -- by intros [= <- _].
Qed.

Lemma step_holds now i w w' eff u matchId :
  known matchId w → holds_player u matchId (mm w) → quiet u w i →
  step now i w = Some (w', eff) →
  holds_player u matchId (mm w').
Proof.
  intros Hk Hh Hq. destruct i; simpl.
  - destruct (fresh_uuid uuid w) eqn:Hf; [|done]. intros [= <- _]. simpl.
    apply handleJoinQueue_holds; [by eapply known_fresh|done].
  - intros [= <- _]. by apply handleLeaveQueue_holds.
  - intros [= <- _]. by apply handlePlayerReady_holds.
  - intros [= <- _]. by apply handleTap_holds.
  - intros [= <- _]. by apply handleDisconnect_holds.
  - destruct (timers w !! i) as [[due cb]|] eqn:Ht; [|done].
    destruct (due <=? now); [|done].
    destruct cb as [k|k|k]; simpl.
    + pose proof (startMatch_holds u matchId now k (mm w) Hh) as H.
      destruct (startMatch now k (mm w)) as [s1 e1]. by intros [= <- _].
    + pose proof (endMatch_holds u matchId now k (mm w) Hh) as H.
      destruct (endMatch now k (mm w)) as [s1 e1]. by intros [= <- _].
    + destruct (captured k w) as [mk|] eqn:Hc; intros [= <- _]; simpl; [|done].
      apply cleanup_holds; [|done]. by eapply Hq.
Qed.

Lemma quiet_run_holds u matchId w w' :
  quiet_run u w w' →
  known matchId w → holds_player u matchId (mm w) →
  known matchId w' ∧ holds_player u matchId (mm w').
Proof.
  induction 1 as [w|now i w w1 eff w2 Hq Hstep Hrun IH]; intros Hk Hh; [done|].
  apply IH; [by eapply step_known|by eapply step_holds].
Qed.

(** What does hold between the end of a match and its clean-up.  When the
    end timer of a match fires, the match becomes finished, the clean-up
    closure is scheduled for 5000 ms later, and [playerToMatch] is left as
    it was.  If the player was in [playerToMatch], and in no queue entry or
    other roster, at that point, then as long as no clean-up closure listing
    the player runs, a player who is still on the roster is still in
    [playerToMatch], and a join by that player is answered with
    "Already in a match" and changes nothing. *)
Lemma finished_match_blocks_join (now : Z) (u matchId : string) (w w1 w2 : World)
    (n : nat) (due : Z) (eff : list Effect) :
  timers w !! n = Some (due, EndMatchCb matchId) →
  step now (OnTimeout n) w = Some (w1, eff) →
  on_roster u matchId (mm w) →
  is_Some (playerToMatch (mm w) !! u) →
  absent u (queue (mm w)) →
  (∀ k m, k ≠ matchId → jsmap_get k (matches (mm w)) = Some m →
          absent u (GameMatch.players m)) →
  quiet_run u w1 w2 →
  (GameMatch.status <$> match_of matchId w1) = Some finished
  ∧ on_roster u matchId (mm w1)
  ∧ playerToMatch (mm w1) = playerToMatch (mm w)
  ∧ (now + CLEANUP_DELAY, CleanupCb matchId) ∈ timers w1
  ∧ (on_roster u matchId (mm w2) →
       is_Some (playerToMatch (mm w2) !! u)
       ∧ ∀ uuid socket username,
           handleJoinQueue uuid socket u username (mm w2)
           = (mm w2, [Emit (ToSocket socket) (error AlreadyInMatch)])).
Proof.
  intros Ht Hstep [m [Hm Hon]] Hin Hq Hothers Hrun.
  assert (known matchId w) as Hk by (left; eauto).
  assert (holds_player u matchId (mm w)) as Hh by (by intros _).
  destruct (quiet_run_holds u matchId w1 w2 Hrun) as [_ Hh2].
  { by eapply step_known. }
  { eapply step_holds; [exact Hk|exact Hh| |exact Hstep].
    intros n' due' k mk [= <-] Ht'. rewrite Ht in Ht'. discriminate Ht'. }
  simpl in Hstep. rewrite Ht in Hstep.
  destruct (due <=? now); [|done]. simpl in Hstep.
  pose proof (endMatch_lookup now matchId (mm w) m Hm) as Hl.
  pose proof (endMatch_frame now matchId (mm w)) as (_ & Hp & _).
  pose proof (endMatch_effects now matchId (mm w) m Hm) as He.
  destruct (endMatch now matchId (mm w)) as [s1 e1]. injection Hstep as <- <-.
  simpl in *. unfold match_of. simpl. rewrite Hl. simpl.
  split; [done|]. split; [by eexists|]. split; [done|]. split.
  - apply elem_of_app. right. subst e1. unfold scheduled.
    rewrite omap_app. apply elem_of_app. right. simpl. left.
  - intros Hon2. destruct (Hh2 Hon2) as (Hin2 & _). split; [done|].
    intros uuid socket username. unfold handleJoinQueue.
    apply map_has_true in Hin2. by rewrite Hin2.
Qed.

(** At 32050, with "m1" finished, B disconnects; A is still on the roster. *)
Lemma finished_match_blocks_join_witness :
  let w2 := world_after (trace_ended ++ [(32050, OnDisconnect "sb")]) in
  (GameMatch.status <$> match_of "m1" (world_after trace_ended)) = Some finished
  ∧ is_Some (playerToMatch (mm w2) !! "A")
  ∧ handleJoinQueue "m2" "sa2" "A" "alice" (mm w2)
    = (mm w2, [Emit (ToSocket "sa2") (error "Already in a match")]).
Proof.
  intros w2.
  destruct (finished_match_blocks_join 32010 "A" "m1"
              (world_after (trace_started ++ [(2100, OnTap "sa" "A" "m1" 2100)]))
              (world_after trace_ended) w2 0%nat 32010
              (effects_of [(32010, OnTimeout 0%nat)]
                 (world_after (trace_started ++ [(2100, OnTap "sa" "A" "m1" 2100)]))))
    as (Hfin & _ & _ & _ & Hjoin).
  - reflexivity.
  - reflexivity.
  - eexists. split; [reflexivity|]. by eexists.
  - by eexists.
  - constructor.
  - intros k m Hne.
    assert (∃ M, matches (mm (world_after
                   (trace_started ++ [(2100, OnTap "sa" "A" "m1" 2100)])))
                 = [("m1", M)]) as [M ->] by (eexists; reflexivity).
    simpl. rewrite decide_False by done. discriminate.
  - apply (quiet_run_step "A" 32050 (OnDisconnect "sb") (world_after trace_ended) w2
             (effects_of [(32050, OnDisconnect "sb")] (world_after trace_ended)));
      [|reflexivity|constructor].
    intros n due k mk Hi. discriminate Hi.
  - destruct Hjoin as [Hin Hrej].
    + eexists. split; [reflexivity|]. by eexists.
    + split; [exact Hfin|]. split; [exact Hin|]. apply Hrej.
Defined.

(** C10 at the failing input.  "m1" was started twice (by the early start
    at 600 and by the deferred start at 2010), so it was ended twice and two
    clean-up closures hold its match object.  The first clean-up (35600)
    frees A and B; A joins again and is paired with C into "m2", and is in
    [playerToMatch] again.  The second clean-up of "m1" (37010) runs
    [playerToMatch.delete] for the roster of "m1" and so removes A, who is
    on the roster of "m2".  When "m2" has finished (67800) and its clean-up
    is still pending (due at 72800), A is on its roster but not in
    [playerToMatch], and a join by A is accepted. *)
Theorem stale_cleanup_unblocks_join :
  let w := world_after trace_stale_cleanup in
  is_Some (run trace_stale_cleanup initial_world)
  ∧ playerToMatch (mm (world_after trace_rejoined)) !! "A" = Some "m2"
  ∧ timers (world_after trace_rejoined)
    = [(37010, CleanupCb "m1"); (37800, StartMatchCb "m2")]
  ∧ (GameMatch.status <$> match_of "m2" w) = Some finished
  ∧ on_roster "A" "m2" (mm w)
  ∧ timers w = [(72800, CleanupCb "m2")]
  ∧ playerToMatch (mm w) !! "A" = None
  ∧ (handleJoinQueue "u2" "sa" "A" "alice" (mm w)).2
    = [SocketJoin "sa" "queue"; Emit (ToSocket "sa") (queue_joined 1)].
Proof.
  split; [vm_compute; by eexists|]. split; [by vm_compute|].
  split; [by vm_compute|]. split; [by vm_compute|]. split.
  { eexists. split; [vm_compute; reflexivity|]. vm_compute. by eexists. }
  split; [by vm_compute|]. split; by vm_compute.
Qed.

(** ** Counts are never negative *)

Lemma counts_ok_updates_one R k s s' :
  (∀ m m', R m m' → keeps_counts m m') →
  updates_one R k s s' → queue s' = queue s →
  counts_ok s → counts_ok s'.
Proof.
  intros HR Hu Hq [Hcq Hcm]. split; [by rewrite Hq|].
  intros matchId m' Hm'.
  destruct (updates_one_lookup _ _ _ _ _ _ Hu Hm') as [Hm|(-> & m & Hm & Hmm)].
  - by eapply Hcm.
  - eapply HR; [exact Hmm|]. by eapply Hcm.
Qed.

Lemma startMatch_counts now k s : counts_ok s → counts_ok (startMatch now k s).1.
Proof.
  apply (counts_ok_updates_one (λ m m', m' = started now m) k);
    [by intros m m' -> ?|apply startMatch_updates|apply startMatch_frame].
Qed.

Lemma endMatch_counts now k s : counts_ok s → counts_ok (endMatch now k s).1.
Proof.
  apply (counts_ok_updates_one (λ m m', m' = ended now m) k);
    [by intros m m' -> ?|apply endMatch_updates|apply endMatch_frame].
Qed.

Lemma handleTap_counts now socket userId k ts s :
  counts_ok s → counts_ok (handleTap now socket userId k ts s).1.
Proof.
  apply (counts_ok_updates_one tap_move k);
    [by intros m m' (_ & _ & H)|apply handleTap_updates|apply handleTap_frame].
Qed.

Lemma handlePlayerReady_counts now socket userId k s :
  counts_ok s → counts_ok (handlePlayerReady now socket userId k s).1.
Proof.
  apply (counts_ok_updates_one ready_move k);
    [by intros m m' (_ & _ & H)|apply handlePlayerReady_updates
    |apply handlePlayerReady_frame].
Qed.

Lemma handleLeaveQueue_counts socket userId s :
  counts_ok s → counts_ok (handleLeaveQueue socket userId s).1.
Proof.
  unfold handleLeaveQueue. destruct (negb _); [done|].
  intros [Hq Hm]. split; [by apply counts_nonneg_delete|done].
Qed.

Lemma cleanup_counts k mk s : counts_ok s → counts_ok (cleanup k mk s).
Proof.
  intros [Hq Hm]. split; [done|]. simpl. intros matchId m Hget.
  apply jsmap_get_delete_Some in Hget as [_ Hget]. by eapply Hm.
Qed.

Lemma disconnect_match_entry_queue now socket k acc entry :
  queue (disconnect_match_entry now socket k acc entry).1 = queue acc.1.
Proof.
  destruct acc as [s eff], entry as [pid pl]. unfold disconnect_match_entry.
  cbn [fst]. destruct (decide _); [|done].
  destruct (jsmap_get k (matches s)) as [m|]; [|done].
  set (s1 := mkMatchmaker _ _ _ _). destruct (_ =? _)%nat; [|done].
  pose proof (endMatch_frame now k s1) as (Hq & _).
  by destruct (endMatch now k s1) as [s2 eff2].
Qed.

Lemma handleDisconnect_counts now socket s :
  counts_ok s → counts_ok (handleDisconnect now socket s).1.
Proof.
  intros [Hq Hm]. split.
  - unfold handleDisconnect.
    set (s1 := foldl (disconnect_queue_entry socket) s (queue s)).
    assert (counts_nonneg (queue s1)) as Hs1.
    { apply (foldl_preserves (λ a, counts_nonneg (queue a))); [|done].
      intros a [pid pl] Ha. unfold disconnect_queue_entry.
      destruct (decide _); [|done]. by apply counts_nonneg_delete. }
    apply (foldl_preserves (λ a, counts_nonneg (queue a.1))); [|done].
    intros a k Ha. unfold disconnect_match.
    destruct (jsmap_get k (matches a.1)) as [mk|]; [|done].
    apply (foldl_preserves (λ b, counts_nonneg (queue b.1))); [|done].
    intros b e Hb. by rewrite disconnect_match_entry_queue.
  - intros matchId m' Hm'.
    pose proof (handleDisconnect_move now socket s matchId) as H.
    rewrite Hm' in H. inversion H as [m ? (_ & _ & Hc) Hget|]; subst.
    apply Hc. by eapply Hm.
Qed.

Lemma createMatch_fold_counts uuid (l : list Player.t) :
  Forall (λ q, 0 ≤ Player.validatedTaps q) l →
  ∀ players s,
    counts_nonneg players → counts_nonneg (queue s) →
    let r := foldl (createMatch_take uuid) (players, s) l in
    matches r.2 = matches s ∧ counts_nonneg r.1 ∧ counts_nonneg (queue r.2).
Proof.
  induction 1 as [|p l Hp Hl IH]; intros players s Hpl Hq; simpl; [done|].
  destruct (IH (jsmap_set (Player.id p) p players)
              (mkMatchmaker (matches s) (jsmap_delete (Player.id p) (queue s))
                 (<[Player.id p:=uuid]> (playerToMatch s))
                 (delete (Player.id p) (playerQueue s))))
    as (H1 & H2 & H3); simpl; [by apply counts_nonneg_set
                              |by apply counts_nonneg_delete|done].
Qed.

Lemma createMatch_counts uuid s : counts_ok s → counts_ok (createMatch uuid s).1.
Proof.
  intros [Hq Hm]. unfold createMatch. destruct (_ <? _)%nat; [done|].
  assert (Forall (λ q, 0 ≤ Player.validatedTaps q)
            (take MATCH_SIZE (jsmap_values (queue s)))) as Htake.
  { by apply Forall_take. }
  pose proof (createMatch_fold_counts uuid _ Htake [] s) as Hfold.
  destruct (foldl _ _ _) as [players s1]. simpl in *.
  destruct Hfold as (H1 & H2 & H3); [constructor|done|].
  split; [done|]. intros matchId m. unfold with_matches. cbn [matches].
  rewrite jsmap_get_set, H1.
  destruct (decide (matchId = uuid)); [by intros [= <-]|apply Hm].
Qed.

Lemma handleJoinQueue_counts uuid socket userId username s :
  counts_ok s → counts_ok (handleJoinQueue uuid socket userId username s).1.
Proof.
  intros [Hq Hm]. unfold handleJoinQueue.
  destruct (map_has userId (playerToMatch s)); [done|].
  destruct (map_has userId (playerQueue s)); [done|].
  set (s1 := mkMatchmaker _ _ _ _).
  assert (counts_ok s1) as Hs1.
  { split; [|done]. by apply counts_nonneg_set. }
  destruct (_ <=? _)%nat; [|done].
  pose proof (createMatch_counts uuid s1 Hs1) as H.
  by destruct (createMatch uuid s1).
Qed.

Lemma step_counts now i w w' eff :
  counts_ok (mm w) → step now i w = Some (w', eff) → counts_ok (mm w').
Proof.
  intros Hc. destruct i; simpl.
  - destruct (fresh_uuid uuid w); [|done]. intros [= <- _].
    by apply handleJoinQueue_counts.
  - intros [= <- _]. by apply handleLeaveQueue_counts.
  - intros [= <- _]. by apply handlePlayerReady_counts.
  - intros [= <- _]. by apply handleTap_counts.
  - intros [= <- _]. by apply handleDisconnect_counts.
  - destruct (timers w !! i) as [[due cb]|]; [|done].
    destruct (due <=? now); [|done].
    destruct cb as [k|k|k]; simpl.
    + pose proof (startMatch_counts now k (mm w) Hc) as H.
      destruct (startMatch now k (mm w)) as [s1 e1]. by intros [= <- _].
    + pose proof (endMatch_counts now k (mm w) Hc) as H.
      destruct (endMatch now k (mm w)) as [s1 e1]. by intros [= <- _].
    + destruct (captured k w) as [mk|]; intros [= <- _]; simpl; [|done].
      by apply cleanup_counts.
Qed.

(** Counts start at 0 and only go up: in every reachable state no queued or
    matched player has a negative count of validated taps. *)
Lemma reachable_counts w : reachable w → counts_ok (mm w).
Proof.
  induction 1 as [|now i w w' eff Hr IH Hstep].
  - split; [constructor|done].
  - by eapply step_counts.
Qed.

(** ** Roster order *)

(** A key that is not in the map goes to the end: joins append to the queue. *)
Lemma jsmap_set_fresh {V} k (v : V) (m : JSMap V) :
  jsmap_get k m = None → jsmap_set k v m = m ++ [(k, v)].
Proof.
  induction m as [|[k' v'] r IH]; simpl; [done|].
  destruct (decide (k = k')); [done|]. intros H. by rewrite IH.
Qed.

(** No turn of the event loop reorders a roster or adds to it: the entries
    left after the turn are in the order they had before. *)
Lemma step_roster_le now i w w' eff matchId m m' :
  step now i w = Some (w', eff) →
  match_of matchId w = Some m → match_of matchId w' = Some m' →
  roster_le (GameMatch.players m) (GameMatch.players m').
Proof.
  unfold match_of. intros Hstep Hm. revert Hstep. destruct i; simpl.
  - destruct (fresh_uuid uuid w) eqn:Hfresh; [|done]. intros [= <- _]. simpl.
    apply andb_true_iff in Hfresh as [Hfresh _]. unfold jsmap_has in Hfresh.
    destruct (handleJoinQueue_matches uuid socket userId username (mm w))
      as [->|[players ->]].
    + rewrite Hm. by intros [= <-].
    + rewrite jsmap_get_set. destruct (decide (matchId = uuid)) as [->|Hne].
      * by rewrite Hm in Hfresh.
      * rewrite Hm. by intros [= <-].
  - intros [= <- _]. simpl. rewrite handleLeaveQueue_matches, Hm. by intros [= <-].
  - intros [= <- _] Hm'. simpl in Hm'.
    destruct (updates_one_lookup _ _ _ _ _ _
                (handlePlayerReady_updates now socket userId matchId0 (mm w)) Hm')
      as [Hsame|(-> & m0 & Hm0 & (_ & Hids & _))].
    + rewrite Hm in Hsame. by injection Hsame as ->.
    + rewrite Hm in Hm0. injection Hm0 as <-. by apply same_roster_ids_le.
  - intros [= <- _] Hm'. simpl in Hm'.
    destruct (updates_one_lookup _ _ _ _ _ _
                (handleTap_updates now socket userId matchId0 timestamp (mm w)) Hm')
      as [Hsame|(-> & m0 & Hm0 & (_ & Hids & _))].
    + rewrite Hm in Hsame. by injection Hsame as ->.
    + rewrite Hm in Hm0. injection Hm0 as <-. by apply same_roster_ids_le.
  - intros [= <- _] Hm'. simpl in Hm'.
    pose proof (handleDisconnect_move now socket (mm w) matchId) as H.
    rewrite Hm, Hm' in H. by inversion H as [? ? (Hle & _)|]; subst.
  - destruct (timers w !! i) as [[due cb]|] eqn:Ht; [|done].
    destruct (due <=? now); [|done].
    destruct cb as [id|id|id]; simpl.
    + pose proof (startMatch_updates now id (mm w)) as Hu.
      destruct (startMatch now id (mm w)) as [s1 e1]. intros [= <- _] Hm'.
      simpl in Hm', Hu.
      destruct (updates_one_lookup _ _ _ _ _ _ Hu Hm')
        as [Hsame|(-> & m0 & Hm0 & ->)].
      * rewrite Hm in Hsame. by injection Hsame as ->.
      * rewrite Hm in Hm0. by injection Hm0 as <-.
    + pose proof (endMatch_updates now id (mm w)) as Hu.
      destruct (endMatch now id (mm w)) as [s1 e1]. intros [= <- _] Hm'.
      simpl in Hm', Hu.
      destruct (updates_one_lookup _ _ _ _ _ _ Hu Hm')
        as [Hsame|(-> & m0 & Hm0 & ->)].
      * rewrite Hm in Hsame. by injection Hsame as ->.
      * rewrite Hm in Hm0. by injection Hm0 as <-.
    + destruct (captured id w) as [mk|]; intros [= <- _]; simpl.
      * intros [_ Hget]%jsmap_get_delete_Some. rewrite Hm in Hget.
        by injection Hget as ->.
      * rewrite Hm. by intros [= <-].
Qed.

(** ** The outcome of a match *)

(** C2 (as the code has it). In a reachable state, [endMatch] leaves [winner]
    as it was only when the roster is empty; with a non-empty roster [winner]
    is always set, and when every player has zero validated taps it is the id
    of the first player of the roster. *)
Theorem endMatch_zero_taps_winner (now : Z) (matchId : string) (w : World)
    (m : GameMatch.t) :
  reachable w →
  match_of matchId w = Some m →
  ∃ m', jsmap_get matchId (matches (endMatch now matchId (mm w)).1) = Some m'
    ∧ GameMatch.status m' = finished
    ∧ match GameMatch.players m with
      | [] => GameMatch.winner m' = GameMatch.winner m
      | (_, first) :: _ =>
          is_Some (GameMatch.winner m')
          ∧ (Forall (λ q, Player.validatedTaps q = 0)
               (jsmap_values (GameMatch.players m)) →
             GameMatch.winner m' = Some (Player.id first))
      end.
Proof.
  intros Hr Hm.
  assert (counts_nonneg (GameMatch.players m)) as Hnn.
  { by eapply (reachable_counts w Hr). }
  eexists. split; [by apply endMatch_lookup|].
  cbn [GameMatch.status GameMatch.winner]. split; [done|].
  pose proof (endMatch_winner_first_max (GameMatch.players m) Hnn) as Hw.
  destruct (GameMatch.players m) as [|[k first] r] eqn:E.
  - simpl in Hw. by rewrite Hw.
  - simpl in Hw. destruct Hw as (l1 & p & l2 & Hsplit & -> & H1 & H2).
    split; [eauto|]. simpl. intros Hz. destruct l1 as [|q l1]; simpl in Hsplit.
    + by injection Hsplit as -> _.
    + injection Hsplit as -> Hr'. apply Forall_cons in H1 as [Hq _].
      apply Forall_cons in Hz as [Hq0 Hz]. rewrite Hr' in Hz.
      apply Forall_app in Hz as [_ Hz]. apply Forall_cons in Hz as [Hp _]. lia.
Qed.

Lemma reachable_world_after trace :
  is_Some (run trace initial_world) → reachable (world_after trace).
Proof.
  unfold world_after. intros [[w eff] Hrun]. rewrite Hrun.
  eapply reachable_run; [constructor|exact Hrun].
Qed.

Lemma endMatch_zero_taps_winner_witness :
  ∃ m', jsmap_get "m1" (matches (endMatch 32010 "m1" (mm (world_after trace_started))).1)
          = Some m'
    ∧ GameMatch.status m' = finished
    ∧ is_Some (GameMatch.winner m')
    ∧ GameMatch.winner m' = Some "A".
Proof.
  destruct (endMatch_zero_taps_winner 32010 "m1" (world_after trace_started)
              (GameMatch.mk "m1"
                 [("A", Player.mk "A" "sa" "alice" 0 false 0 0);
                  ("B", Player.mk "B" "sb" "bob" 0 false 0 0)]
                 active (Some 2010) None 30000 None))
    as (m' & Hget & Hst & Hsome & Hfirst).
  - apply reachable_world_after. by eexists.
  - reflexivity.
  - exists m'. repeat split; [exact Hget|exact Hst|exact Hsome|].
    apply Hfirst. repeat constructor.
Defined.

(** C2 as stated fails: both players of the started match "m1" have zero
    validated taps, yet [endMatch] sets the winner to the first of them. *)
Lemma endMatch_zero_taps_winner_not_null :
  ¬ (∀ now matchId w m m',
       reachable w →
       match_of matchId w = Some m →
       Forall (λ q, Player.validatedTaps q = 0) (jsmap_values (GameMatch.players m)) →
       jsmap_get matchId (matches (endMatch now matchId (mm w)).1) = Some m' →
       GameMatch.winner m' = None).
Proof.
  intros H.
  specialize (H 32010 "m1" (world_after trace_started)
                (GameMatch.mk "m1"
                   [("A", Player.mk "A" "sa" "alice" 0 false 0 0);
                    ("B", Player.mk "B" "sb" "bob" 0 false 0 0)]
                   active (Some 2010) None 30000 None)
                (GameMatch.mk "m1"
                   [("A", Player.mk "A" "sa" "alice" 0 false 0 0);
                    ("B", Player.mk "B" "sb" "bob" 0 false 0 0)]
                   finished (Some 2010) (Some 32010) 30000 (Some "A"))).
  simpl in H. discriminate H.
  - apply reachable_world_after. by eexists.
  - reflexivity.
  - repeat constructor.
  - reflexivity.
Qed.

(** C6. [createMatch] puts the first two queued players on the roster in
    queue order, and no later turn of the event loop reorders a roster.  In a
    reachable state, [endMatch] on a non-empty roster picks as winner the
    first roster entry [p] with the greatest count: every entry before it has
    strictly fewer validated taps, none after it has more.  The results sent
    with [match_ended] are the roster entries reordered by descending taps,
    entries with equal taps staying in roster order. *)
Theorem endMatch_winner_and_results (now : Z) (matchId : string) (w : World)
    (m : GameMatch.t) :
  reachable w →
  match_of matchId w = Some m →
  GameMatch.players m ≠ [] →
  (∀ uuid s0 p1 p2 rest,
     jsmap_values (queue s0) = p1 :: p2 :: rest →
     Player.id p1 ≠ Player.id p2 →
     (GameMatch.players <$> jsmap_get uuid (matches (createMatch uuid s0).1))
     = Some [(Player.id p1, p1); (Player.id p2, p2)])
  ∧ (∀ now' i w1 w2 eff k m1 m2,
       step now' i w1 = Some (w2, eff) →
       match_of k w1 = Some m1 → match_of k w2 = Some m2 →
       roster_sig (GameMatch.players m2) `sublist_of` roster_sig (GameMatch.players m1))
  ∧ ∃ l1 p l2 results,
      jsmap_values (GameMatch.players m) = l1 ++ p :: l2
      ∧ Forall (λ q, Player.validatedTaps q < Player.validatedTaps p) l1
      ∧ Forall (λ q, Player.validatedTaps q ≤ Player.validatedTaps p) l2
      ∧ (GameMatch.winner <$>
           jsmap_get matchId (matches (endMatch now matchId (mm w)).1))
          = Some (Some (Player.id p))
      ∧ (endMatch now matchId (mm w)).2
          = map (λ player,
                   Emit (IoTo (Player.socketId player))
                     (match_ended matchId results (Some (Player.id p))))
              (jsmap_values (GameMatch.players m))
            ++ [SetTimeout (CleanupCb matchId) 5000]
      ∧ results ≡ₚ map (result_entry (Some (Player.id p)))
                      (jsmap_values (GameMatch.players m))
      ∧ StronglySorted (λ a b, ResultEntry.taps b ≤ ResultEntry.taps a) results
      ∧ ∀ t, filter (λ r, ResultEntry.taps r = t) results
             = filter (λ r, ResultEntry.taps r = t)
                 (map (result_entry (Some (Player.id p)))
                    (jsmap_values (GameMatch.players m))).
Proof.
  intros Hr Hm Hne.
  assert (counts_nonneg (GameMatch.players m)) as Hnn.
  { by eapply (reachable_counts w Hr). }
  split.
  { intros uuid s0 p1 p2 rest Hq Hid.
    by rewrite (createMatch_roster uuid s0 p1 p2 rest Hq Hid). }
  split.
  { intros now' i w1 w2 eff k m1 m2 Hstep H1 H2.
    by eapply step_roster_le. }
  pose proof (endMatch_winner_first_max (GameMatch.players m) Hnn) as Hw.
  destruct (jsmap_values (GameMatch.players m)) as [|q0 r0] eqn:E.
  { destruct (GameMatch.players m); [done|discriminate E]. }
  destruct Hw as (l1 & p & l2 & Hsplit & Hwin & H1 & H2).
  exists l1, p, l2,
    (endMatch_results (GameMatch.players m) (Some (Player.id p))).
  split; [done|]. split; [done|]. split; [done|]. split.
  { rewrite (endMatch_lookup now matchId (mm w) m Hm). simpl. by rewrite Hwin. }
  split.
  { rewrite (endMatch_effects now matchId (mm w) m Hm). cbv zeta. rewrite Hwin.
    by rewrite E. }
  unfold endMatch_results. rewrite E.
  split; [apply js_sort_perm|]. split; [apply js_sort_sorted|].
  intros t. apply js_sort_stable.
Qed.

Lemma endMatch_winner_and_results_witness :
  let s := mm (world_after trace_tie) in
  (GameMatch.winner <$> jsmap_get "m1" (matches (endMatch 32010 "m1" s).1))
    = Some (Some "A")
  ∧ ∃ results,
      (endMatch 32010 "m1" s).2
      = [Emit (IoTo "sa") (match_ended "m1" results (Some "A"));
         Emit (IoTo "sb") (match_ended "m1" results (Some "A"));
         SetTimeout (CleanupCb "m1") 5000]
      ∧ filter (λ r, ResultEntry.taps r = 1) results
        = [ResultEntry.mk "A" "alice" 1 true; ResultEntry.mk "B" "bob" 1 false].
Proof.
  intros s.
  destruct (endMatch_winner_and_results 32010 "m1" (world_after trace_tie)
              (GameMatch.mk "m1"
                 [("A", Player.mk "A" "sa" "alice" 1 false 2100 1);
                  ("B", Player.mk "B" "sb" "bob" 1 false 2200 1)]
                 active (Some 2010) None 30000 None))
    as (_ & _ & l1 & p & l2 & results & Hsplit & Hlt & _ & Hwin & Heff & _ & _ & Hstable).
  - apply reachable_world_after. by eexists.
  - reflexivity.
  - discriminate.
  - assert (p = Player.mk "A" "sa" "alice" 1 false 2100 1) as ->.
    { destruct l1 as [|a [|b l1]]; simpl in Hsplit.
      - by injection Hsplit as <- _.
      - injection Hsplit as <- <- _. apply Forall_cons in Hlt as [Hlt _].
        simpl in Hlt. lia.
      - injection Hsplit as _ _ Hnil. by destruct l1. }
    split; [exact Hwin|]. exists results. split; [exact Heff|].
    rewrite Hstable. reflexivity.
Defined.

(** * Further properties of the matchmaker *)

(** ** The queue never holds two players *)

Lemma map_has_dom (k : string) (m : gmap string string) :
  map_has k m = true ↔ k ∈ dom m.
Proof. rewrite map_has_true. by rewrite elem_of_dom. Qed.

Lemma map_has_not_dom (k : string) (m : gmap string string) :
  map_has k m = false ↔ k ∉ dom m.
Proof.
  rewrite <- map_has_dom. destruct (map_has k m); split; try done.
Qed.

(** A join into an empty queue: the player waits alone. *)
Lemma handleJoinQueue_first uuid socket userId username s :
  queue s = [] → dom (playerQueue s) = ∅ →
  map_has userId (playerToMatch s) = false →
  handleJoinQueue uuid socket userId username s
  = (mkMatchmaker (matches s) [(userId, new_player socket userId username)]
       (playerToMatch s) (<[userId := "main"]> (playerQueue s)),
     [SocketJoin socket "queue"; Emit (ToSocket socket) (queue_joined 1)]).
Proof.
  intros Hq Hpq Hm. unfold handleJoinQueue. rewrite Hm.
  assert (map_has userId (playerQueue s) = false) as ->.
  { apply map_has_not_dom. rewrite Hpq. apply not_elem_of_empty. }
  rewrite Hq. reflexivity.
Qed.

(** A join while one player waits: the two are paired at once. *)
Lemma handleJoinQueue_second uuid socket userId username s p :
  queue s = [(Player.id p, p)] → dom (playerQueue s) = {[Player.id p]} →
  map_has userId (playerToMatch s) = false →
  userId ≠ Player.id p →
  handleJoinQueue uuid socket userId username s
  = (mkMatchmaker
       (jsmap_set uuid
          (GameMatch.mk uuid
             [(Player.id p, p); (userId, new_player socket userId username)]
             waiting None None MATCH_DURATION None)
          (matches s))
       []
       (<[userId := uuid]> (<[Player.id p := uuid]> (playerToMatch s)))
       (delete userId (delete (Player.id p) (<[userId := "main"]> (playerQueue s)))),
     [SocketJoin socket "queue"; Emit (ToSocket socket) (queue_joined 2);
      Emit (IoTo (Player.socketId p))
        (match_found uuid [(Player.id p, Player.username p); (userId, username)]);
      Emit (IoTo socket)
        (match_found uuid [(Player.id p, Player.username p); (userId, username)]);
      SetTimeout (StartMatchCb uuid) 2000]).
Proof.
  intros Hq Hpq Hm Hne. unfold handleJoinQueue. rewrite Hm.
  assert (map_has userId (playerQueue s) = false) as ->.
  { apply map_has_not_dom. rewrite Hpq. by rewrite elem_of_singleton. }
  rewrite Hq. cbn -[decide].
  repeat (destruct (decide _) as [?|?]; try done; cbn -[decide]).
Qed.

Lemma queue_shape_frame s s' :
  queue s' = queue s → playerQueue s' = playerQueue s →
  queue_shape s → queue_shape s'.
Proof. unfold queue_shape. by intros -> ->. Qed.

Lemma handleJoinQueue_shape uuid socket userId username s :
  queue_shape s → queue_shape (handleJoinQueue uuid socket userId username s).1.
Proof.
  intros Hs.
  destruct (map_has userId (playerToMatch s)) eqn:Hm.
  { unfold handleJoinQueue. by rewrite Hm. }
  destruct Hs as [[Hq Hpq]|(p & Hq & Hpq & Hfresh)].
  - rewrite (handleJoinQueue_first _ _ _ _ _ Hq Hpq Hm). right.
    exists (new_player socket userId username). split; [done|]. simpl.
    split; [|done]. rewrite dom_insert_L, Hpq. by rewrite union_empty_r_L.
  - destruct (decide (userId = Player.id p)) as [->|Hne].
    + unfold handleJoinQueue. rewrite Hm.
      assert (map_has (Player.id p) (playerQueue s) = true) as ->.
      { apply map_has_dom. rewrite Hpq. by apply elem_of_singleton. }
      right. by exists p.
    + rewrite (handleJoinQueue_second _ _ _ _ _ _ Hq Hpq Hm Hne). left.
      split; [done|]. simpl. rewrite !dom_delete_L, dom_insert_L, Hpq.
      apply set_eq. intros x. rewrite !elem_of_difference, elem_of_union.
      rewrite !elem_of_singleton. split; [|by intros ?%elem_of_empty].
      intros [[[?|?] ?] ?]; done.
Qed.

Lemma handleLeaveQueue_shape socket userId s :
  queue_shape s → queue_shape (handleLeaveQueue socket userId s).1.
Proof.
  intros Hs. unfold handleLeaveQueue.
  destruct (map_has userId (playerQueue s)) eqn:Hh; simpl; [|done].
  apply map_has_dom in Hh.
  destruct Hs as [[Hq Hpq]|(p & Hq & Hpq & Hfresh)].
  - rewrite Hpq in Hh. by apply elem_of_empty in Hh.
  - rewrite Hpq in Hh. apply elem_of_singleton in Hh as ->. left. simpl.
    rewrite Hq. simpl. rewrite decide_True by done. split; [done|].
    rewrite dom_delete_L, Hpq. apply set_eq. intros x.
    rewrite elem_of_difference. split; [by intros [? ?]|by intros ?%elem_of_empty].
Qed.

Lemma disconnect_match_entry_playerQueue now socket k acc entry :
  playerQueue (disconnect_match_entry now socket k acc entry).1 = playerQueue acc.1.
Proof.
  destruct acc as [s eff], entry as [pid pl]. unfold disconnect_match_entry.
  cbn [fst]. destruct (decide _); [|done].
  destruct (jsmap_get k (matches s)) as [m|]; [|done].
  set (s1 := mkMatchmaker _ _ _ _). destruct (_ =? _)%nat; [|done].
  pose proof (endMatch_frame now k s1) as (_ & _ & Hq).
  by destruct (endMatch now k s1) as [s2 eff2].
Qed.

(** The loop over the matches leaves the queue and its index alone. *)
Lemma disconnect_matches_queue now socket s1 (keys : list string) :
  let r := foldl (disconnect_match now socket) (s1, []) keys in
  queue r.1 = queue s1 ∧ playerQueue r.1 = playerQueue s1.
Proof.
  apply (foldl_preserves
           (λ a, queue a.1 = queue s1 ∧ playerQueue a.1 = playerQueue s1));
    [|done].
  intros a k Ha. unfold disconnect_match.
  destruct (jsmap_get k (matches a.1)) as [mk|]; [|done].
  apply (foldl_preserves
           (λ b, queue b.1 = queue s1 ∧ playerQueue b.1 = playerQueue s1));
    [|done].
  intros b e [Hq Hp].
  by rewrite disconnect_match_entry_queue, disconnect_match_entry_playerQueue.
Qed.

Lemma disconnect_queue_entry_shape socket s entry :
  queue_shape s → entry ∈ queue s → queue_shape (disconnect_queue_entry socket s entry).
Proof.
  intros Hs Hin. destruct entry as [pid pl]. unfold disconnect_queue_entry.
  destruct (decide _); [|done].
  destruct Hs as [[Hq Hpq]|(p & Hq & Hpq & Hfresh)].
  - rewrite Hq in Hin. by apply elem_of_nil in Hin.
  - rewrite Hq in Hin. apply list_elem_of_singleton in Hin as [= -> ->].
    left. simpl. rewrite Hq. simpl. rewrite decide_True by done. split; [done|].
    rewrite dom_delete_L, Hpq. apply set_eq. intros x.
    rewrite elem_of_difference. split; [by intros [? ?]|by intros ?%elem_of_empty].
Qed.

Lemma handleDisconnect_shape now socket s :
  queue_shape s → queue_shape (handleDisconnect now socket s).1.
Proof.
  intros Hs. unfold handleDisconnect.
  set (s1 := foldl (disconnect_queue_entry socket) s (queue s)).
  assert (queue_shape s1) as Hs1.
  { subst s1. destruct Hs as [[Hq Hpq]|(p & Hq & Hpq & Hfresh)].
    - rewrite Hq. simpl. by left.
    - rewrite Hq. cbn [foldl]. apply disconnect_queue_entry_shape.
      + right. by exists p.
      + rewrite Hq. left. }
  destruct (disconnect_matches_queue now socket s1 (jsmap_keys (matches s1)))
    as [Hq Hp].
  by eapply queue_shape_frame.
Qed.

Lemma step_queue_shape now i w w' eff :
  queue_shape (mm w) → step now i w = Some (w', eff) → queue_shape (mm w').
Proof.
  intros Hs. destruct i; simpl.
  - destruct (fresh_uuid uuid w); [|done]. intros [= <- _].
    by apply handleJoinQueue_shape.
  - intros [= <- _]. by apply handleLeaveQueue_shape.
  - intros [= <- _]. simpl.
    destruct (handlePlayerReady_frame now socket userId matchId (mm w)) as (Hq & _ & Hp).
    by eapply queue_shape_frame.
  - intros [= <- _]. simpl.
    destruct (handleTap_frame now socket userId matchId timestamp (mm w)) as (Hq & _ & Hp).
    by eapply queue_shape_frame.
  - intros [= <- _]. by apply handleDisconnect_shape.
  - destruct (timers w !! i) as [[due cb]|]; [|done].
    destruct (due <=? now); [|done].
    destruct cb as [k|k|k]; simpl.
    + destruct (startMatch_frame now k (mm w)) as (Hq & _ & Hp).
      destruct (startMatch now k (mm w)) as [s1 e1]. intros [= <- _].
      by eapply queue_shape_frame.
    + destruct (endMatch_frame now k (mm w)) as (Hq & _ & Hp).
      destruct (endMatch now k (mm w)) as [s1 e1]. intros [= <- _].
      by eapply queue_shape_frame.
    + destruct (captured k w) as [mk|]; intros [= <- _]; simpl; [|done].
      by eapply queue_shape_frame.
Qed.

Lemma reachable_queue_shape w : reachable w → queue_shape (mm w).
Proof.
  induction 1 as [|now i w w' eff Hr IH Hstep].
  - left. split; [done|]. apply dom_empty_L.
  - by eapply step_queue_shape.
Qed.

(** X1. In every reachable state the queue holds at most one player
    ([getQueueSize] is 0 or 1), each queue entry is stored under the id of
    its player, who has not played yet (no taps, not ready), and
    [getPlayerStats] reports [inQueue] exactly for the users that have a
    queue entry. *)
Theorem reachable_queue_at_most_one (w : World) :
  reachable w →
  (getQueueSize (mm w) ≤ 1)%nat
  ∧ Forall (λ kp, Player.id kp.2 = kp.1 ∧ fresh_player kp.2) (queue (mm w))
  ∧ ∀ userId,
      PlayerStats.inQueue (getPlayerStats userId (mm w)) = true
      ↔ is_Some (jsmap_get userId (queue (mm w))).
Proof.
  intros Hr. unfold getQueueSize, jsmap_size, getPlayerStats. simpl.
  destruct (reachable_queue_shape w Hr) as [[Hq Hpq]|(p & Hq & Hpq & Hfresh)]; rewrite Hq.
  - split; [simpl; lia|]. split; [constructor|]. intros u.
    rewrite map_has_dom, Hpq. simpl. split; [by intros ?%elem_of_empty|by intros [? ?]].
  - split; [simpl; lia|]. split; [by apply Forall_singleton|]. intros u.
    rewrite map_has_dom, Hpq, elem_of_singleton. simpl.
    destruct (decide (u = Player.id p)) as [Heq|Hne].
    + split; eauto.
    + split; [done|]. by intros [? ?].
Qed.

Lemma reachable_queue_at_most_one_witness :
  (getQueueSize (mm (world_after trace_one_waiting)) ≤ 1)%nat
  ∧ PlayerStats.inQueue (getPlayerStats "A" (mm (world_after trace_one_waiting))) = true.
Proof.
  destruct (reachable_queue_at_most_one (world_after trace_one_waiting))
    as (Hsize & _ & Hin).
  - apply reachable_world_after. by eexists.
  - split; [exact Hsize|]. apply Hin. by eexists.
Defined.

(** ** Joining and leaving *)

(** X2. In a reachable state with one player [p] waiting, a join by a user
    who is in neither index pairs the two at once: the new match [uuid] is
    waiting with the roster [p], then the new player; both are mapped to it
    in [playerToMatch]; the queue is empty again; the caller is told position
    2, both sockets receive [match_found] with both ids, and the start timer
    is set for 2000 ms. *)
Theorem join_pairs_with_waiting_player (uuid socket userId username : string)
    (w : World) (k : string) (p : Player.t) :
  reachable w →
  queue (mm w) = [(k, p)] →
  PlayerStats.inMatch (getPlayerStats userId (mm w)) = false →
  PlayerStats.inQueue (getPlayerStats userId (mm w)) = false →
  k = Player.id p
  ∧ handleJoinQueue uuid socket userId username (mm w)
    = (paired uuid socket userId username p (mm w),
       [SocketJoin socket "queue"; Emit (ToSocket socket) (queue_joined 2);
        Emit (IoTo (Player.socketId p))
          (match_found uuid [(Player.id p, Player.username p); (userId, username)]);
        Emit (IoTo socket)
          (match_found uuid [(Player.id p, Player.username p); (userId, username)]);
        SetTimeout (StartMatchCb uuid) 2000])
  ∧ getQueueSize (paired uuid socket userId username p (mm w)) = 0%nat
  ∧ playerToMatch (paired uuid socket userId username p (mm w)) !! userId = Some uuid
  ∧ playerToMatch (paired uuid socket userId username p (mm w)) !! Player.id p = Some uuid
  ∧ dom (playerQueue (paired uuid socket userId username p (mm w))) = ∅.
Proof.
  intros Hr Hq Hm Hpq. simpl in Hm, Hpq.
  destruct (reachable_queue_shape w Hr) as [[Hq' _]|(p' & Hq' & Hdom & Hfresh)];
    rewrite Hq in Hq'; [done|]. injection Hq' as -> ->.
  assert (userId ≠ Player.id p') as Hne.
  { intros ->. apply map_has_not_dom in Hpq. apply Hpq. rewrite Hdom.
    by apply elem_of_singleton. }
  split; [done|]. split; [by apply handleJoinQueue_second|].
  split; [done|]. simpl. split; [apply lookup_insert_eq|]. split.
  - rewrite lookup_insert_ne by done. apply lookup_insert_eq.
  - rewrite !dom_delete_L, dom_insert_L, Hdom.
    apply set_eq. intros x. rewrite !elem_of_difference, elem_of_union.
    rewrite !elem_of_singleton. split; [|by intros ?%elem_of_empty].
    intros [[[?|?] ?] ?]; done.
Qed.

Lemma join_pairs_with_waiting_player_witness :
  handleJoinQueue "m1" "sb" "B" "bob" (mm (world_after trace_one_waiting))
  = (mm (world_after trace_paired),
     [SocketJoin "sb" "queue"; Emit (ToSocket "sb") (queue_joined 2);
      Emit (IoTo "sa") (match_found "m1" [("A", "alice"); ("B", "bob")]);
      Emit (IoTo "sb") (match_found "m1" [("A", "alice"); ("B", "bob")]);
      SetTimeout (StartMatchCb "m1") 2000]).
Proof.
  destruct (join_pairs_with_waiting_player "m1" "sb" "B" "bob"
              (world_after trace_one_waiting) "A" (new_player "sa" "A" "alice"))
    as (_ & Hjoin & _).
  - apply reachable_world_after. by eexists.
  - reflexivity.
  - reflexivity.
  - reflexivity.
  - rewrite Hjoin. reflexivity.
Defined.

(** X3. In a reachable state, a join into an empty queue followed by a leave
    of the same user gives back the state exactly.  When a player was already
    waiting, the join pairs the two, and the leave is answered "Not in queue"
    and changes nothing. *)
Theorem join_then_leave (uuid socket userId username : string) (w : World) :
  reachable w →
  PlayerStats.inMatch (getPlayerStats userId (mm w)) = false →
  PlayerStats.inQueue (getPlayerStats userId (mm w)) = false →
  let joined := (handleJoinQueue uuid socket userId username (mm w)).1 in
  (queue (mm w) = [] →
     handleLeaveQueue socket userId joined
     = (mm w, [SocketLeave socket "queue"; Emit (ToSocket socket) queue_left]))
  ∧ (queue (mm w) ≠ [] →
     handleLeaveQueue socket userId joined
     = (joined, [Emit (ToSocket socket) (error NotQueued)])).
Proof.
  intros Hr Hm Hpq joined. simpl in Hm, Hpq. subst joined.
  destruct (reachable_queue_shape w Hr) as [[Hq Hdom]|(p & Hq & Hdom & Hfresh)].
  - split; [intros _|by rewrite Hq].
    rewrite (handleJoinQueue_first _ _ _ _ _ Hq Hdom Hm).
    unfold handleLeaveQueue. simpl.
    assert (map_has userId (<[userId:="main"]> (playerQueue (mm w))) = true) as ->.
    { apply map_has_true. rewrite lookup_insert_eq. eauto. }
    simpl. rewrite decide_True by done. rewrite delete_insert_eq.
    rewrite delete_id by (apply not_elem_of_dom; rewrite Hdom; apply not_elem_of_empty).
    f_equal. destruct (mm w) as [ms q ptm pq]. simpl in *. by rewrite Hq.
  - split; [by rewrite Hq|intros _].
    assert (userId ≠ Player.id p) as Hne.
    { intros ->. apply map_has_not_dom in Hpq. apply Hpq. rewrite Hdom.
      by apply elem_of_singleton. }
    rewrite (handleJoinQueue_second _ _ _ _ _ _ Hq Hdom Hm Hne).
    unfold handleLeaveQueue. simpl.
    assert (map_has userId
              (delete userId (delete (Player.id p)
                 (<[userId:="main"]> (playerQueue (mm w))))) = false) as ->.
    { apply map_has_not_dom. rewrite dom_delete_L.
      intros [_ Hx]%elem_of_difference. apply Hx. by apply elem_of_singleton. }
    done.
Qed.

Lemma join_then_leave_witness :
  handleLeaveQueue "sa" "A"
    (handleJoinQueue "u0" "sa" "A" "alice" (mm initial_world)).1
  = (mm initial_world, [SocketLeave "sa" "queue"; Emit (ToSocket "sa") queue_left])
  ∧ handleLeaveQueue "sb" "B"
      (handleJoinQueue "m1" "sb" "B" "bob" (mm (world_after trace_one_waiting))).1
    = ((handleJoinQueue "m1" "sb" "B" "bob" (mm (world_after trace_one_waiting))).1,
       [Emit (ToSocket "sb") (error "Not in queue")]).
Proof.
  split.
  - apply (join_then_leave "u0" "sa" "A" "alice" initial_world);
      [constructor|reflexivity|reflexivity|reflexivity].
  - apply (join_then_leave "m1" "sb" "B" "bob" (world_after trace_one_waiting));
      [apply reachable_world_after; by eexists|reflexivity|reflexivity|discriminate].
Defined.

(** ** Player records over a run *)

#[local] Instance player_evolves_refl : Reflexive player_evolves.
Proof. intros p. unfold player_evolves. repeat split; try done; lia. Qed.

#[local] Instance player_evolves_trans : Transitive player_evolves.
Proof.
  intros p1 p2 p3 (Hi & Hs & Hu & Hv & Ht & Hl & Hr) (Hi' & Hs' & Hu' & Hv' & Ht' & Hl' & Hr').
  unfold player_evolves. repeat split; try congruence; try lia. auto.
Qed.

#[local] Instance match_evolves_refl : Reflexive match_evolves.
Proof. intros m. repeat split. intros u p Hp. exists p. by split. Qed.

#[local] Instance match_evolves_trans : Transitive match_evolves.
Proof.
  intros m1 m2 m3 (Hi & Hd & Hp) (Hi' & Hd' & Hp').
  split; [congruence|]. split; [congruence|]. intros u p3 H3.
  destruct (Hp' u p3 H3) as (p2 & H2 & He23).
  destruct (Hp u p2 H2) as (p1 & H1 & He12).
  exists p1. split; [done|]. by etrans.
Qed.

(** Deleting a roster entry loses that entry and changes no other. *)
Lemma match_evolves_delete k m :
  match_evolves m (GameMatch.with_players (jsmap_delete k (GameMatch.players m)) m).
Proof.
  split; [done|]. split; [done|]. simpl. intros u p' Hp'.
  apply jsmap_get_delete_Some in Hp' as [_ Hp']. exists p'. by split.
Qed.

(** Overwriting a roster entry by a record that evolved from it. *)
Lemma match_evolves_set k p p' m :
  jsmap_get k (GameMatch.players m) = Some p → player_evolves p p' →
  match_evolves m (GameMatch.with_players (jsmap_set k p' (GameMatch.players m)) m).
Proof.
  intros Hp He. split; [done|]. split; [done|]. simpl. intros u q.
  rewrite jsmap_get_set. destruct (decide (u = k)) as [->|Hne].
  - intros [= <-]. by exists p.
  - intros Hq. exists q. by split.
Qed.

Lemma match_evolves_started now m : match_evolves m (started now m).
Proof. split; [done|]. split; [done|]. intros u p Hp. exists p. by split. Qed.

Lemma match_evolves_ended now m : match_evolves m (ended now m).
Proof. split; [done|]. split; [done|]. intros u p Hp. exists p. by split. Qed.

(** One turn of the event loop, for any relation on match records that the
    five ways of rewriting a record respect: deleting a roster entry,
    marking a player ready, counting a tap, starting and ending. *)
Section MatchStep.
Context (R : GameMatch.t → GameMatch.t → Prop) `{!Reflexive R} `{!Transitive R}.
Hypothesis R_delete :
  ∀ m k, R m (GameMatch.with_players (jsmap_delete k (GameMatch.players m)) m).
Hypothesis R_started : ∀ now m, R m (started now m).
Hypothesis R_ended : ∀ now m, R m (ended now m).
Hypothesis R_ready : ∀ m u p,
  jsmap_get u (GameMatch.players m) = Some p →
  R m (GameMatch.with_players
         (jsmap_set u (Player.with_isReady true p) (GameMatch.players m)) m).
Hypothesis R_tap : ∀ now m u p,
  jsmap_get u (GameMatch.players m) = Some p →
  100 ≤ now - Player.lastTapTimestamp p →
  R m (GameMatch.with_players (jsmap_set u (tapped now p) (GameMatch.players m)) m).

Lemma handleTap_rel now socket userId matchId ts s :
  updates_one R matchId s (handleTap now socket userId matchId ts s).1.
Proof.
  unfold handleTap.
  destruct (jsmap_get matchId (matches s)) as [m|] eqn:Hm; [|by left].
  destruct (negb _); [by left|].
  destruct (jsmap_get userId (GameMatch.players m)) as [p|] eqn:Hp; [|by left].
  unfold validateTap.
  destruct (js_gt _ _); [by left|].
  destruct (Z.ltb_spec (now - Player.lastTapTimestamp p) (1000 / MAX_TAPS_PER_SECOND))
    as [Hrate|Hrate]; [by left|].
  rewrite min_tap_interval in Hrate.
  right. eexists m, _. split; [done|]. split; [done|].
  by apply (R_tap now m userId p).
Qed.

Lemma handlePlayerReady_rel now socket userId matchId s :
  updates_one R matchId s (handlePlayerReady now socket userId matchId s).1.
Proof.
  unfold handlePlayerReady.
  destruct (jsmap_get matchId (matches s)) as [m|] eqn:Hm; [|by left].
  destruct (jsmap_get userId (GameMatch.players m)) as [p|] eqn:Hp; [|by left].
  set (m1 := GameMatch.with_players _ m).
  assert (R m m1) as Hm1 by by apply R_ready.
  destruct (forallb _ _ && bool_decide _) eqn:Hgo.
  - right. exists m, (started now m1). split; [done|]. split.
    + rewrite startMatch_matches. simpl. rewrite jsmap_get_set_eq.
      apply jsmap_set_set.
    + etrans; [exact Hm1|apply R_started].
  - right. by exists m, m1.
Qed.

Lemma disconnect_match_entry_rel now socket matchId acc entry :
  match_step R acc.1 (disconnect_match_entry now socket matchId acc entry).1.
Proof.
  destruct acc as [s eff], entry as [playerId player]. unfold disconnect_match_entry.
  cbn [fst]. destruct (decide _); [|step_refl].
  destruct (jsmap_get matchId (matches s)) as [m|] eqn:Hm; [|step_refl].
  set (m1 := GameMatch.with_players _ m). set (s1 := mkMatchmaker _ _ _ _).
  assert (match_step R s s1) as Hs1.
  { apply (match_step_set _ s s1 matchId m m1); [done|done|apply R_delete]. }
  destruct (jsmap_size (GameMatch.players m1) =? 0)%nat; [|exact Hs1].
  assert (match_step R s1 (endMatch now matchId s1).1) as He.
  { apply (match_step_set _ s1 _ matchId m1 (ended now m1)).
    - simpl. apply jsmap_get_set_eq.
    - rewrite endMatch_matches. simpl. by rewrite jsmap_get_set_eq.
    - apply R_ended. }
  destruct (endMatch now matchId s1) as [s2 eff2]. simpl in *.
  by eapply match_step_trans; [apply _|exact Hs1|exact He].
Qed.

Lemma handleDisconnect_rel now socket s :
  match_step R s (handleDisconnect now socket s).1.
Proof.
  unfold handleDisconnect.
  set (s1 := foldl (disconnect_queue_entry socket) s (queue s)).
  assert (matches s1 = matches s) as Hs1.
  { apply (foldl_preserves (λ a, matches a = matches s)); [|done].
    intros a [k p] Ha. unfold disconnect_queue_entry. by destruct (decide _). }
  apply (foldl_preserves (λ a, match_step R s a.1)).
  - intros a matchId Ha. eapply match_step_trans; [apply _|exact Ha|].
    unfold disconnect_match.
    destruct (jsmap_get matchId (matches a.1)) as [m|]; [|step_refl].
    apply (foldl_preserves (λ b, match_step R a.1 b.1)).
    + intros b e Hb. eapply match_step_trans; [apply _|exact Hb|].
      apply disconnect_match_entry_rel.
    + step_refl.
  - step_refl.
Qed.

Lemma step_rel now i w w' eff matchId m m' :
  step now i w = Some (w', eff) →
  match_of matchId w = Some m → match_of matchId w' = Some m' →
  R m m'.
Proof.
  unfold match_of. intros Hstep Hm. revert Hstep. destruct i; simpl.
  - destruct (fresh_uuid uuid w) eqn:Hfresh; [|done]. intros [= <- _]. simpl.
    apply andb_true_iff in Hfresh as [Hfresh _]. unfold jsmap_has in Hfresh.
    destruct (handleJoinQueue_matches uuid socket userId username (mm w))
      as [->|[players ->]].
    + rewrite Hm. by intros [= <-].
    + rewrite jsmap_get_set. destruct (decide (matchId = uuid)) as [->|Hne].
      * by rewrite Hm in Hfresh.
      * rewrite Hm. by intros [= <-].
  - intros [= <- _]. simpl. rewrite handleLeaveQueue_matches, Hm. by intros [= <-].
  - intros [= <- _] Hm'. simpl in Hm'.
    destruct (updates_one_lookup _ _ _ _ _ _
                (handlePlayerReady_rel now socket userId matchId0 (mm w)) Hm')
      as [Hsame|(-> & m0 & Hm0 & He)].
    + rewrite Hm in Hsame. by injection Hsame as ->.
    + rewrite Hm in Hm0. by injection Hm0 as <-.
  - intros [= <- _] Hm'. simpl in Hm'.
    destruct (updates_one_lookup _ _ _ _ _ _
                (handleTap_rel now socket userId matchId0 timestamp (mm w)) Hm')
      as [Hsame|(-> & m0 & Hm0 & He)].
    + rewrite Hm in Hsame. by injection Hsame as ->.
    + rewrite Hm in Hm0. by injection Hm0 as <-.
  - intros [= <- _] Hm'. simpl in Hm'.
    pose proof (handleDisconnect_rel now socket (mm w) matchId) as H.
    rewrite Hm, Hm' in H. by inversion H; subst.
  - destruct (timers w !! i) as [[due cb]|] eqn:Ht; [|done].
    destruct (due <=? now); [|done].
    destruct cb as [id|id|id]; simpl.
    + pose proof (startMatch_updates now id (mm w)) as Hu.
      destruct (startMatch now id (mm w)) as [s1 e1]. intros [= <- _] Hm'.
      simpl in Hm', Hu.
      destruct (updates_one_lookup _ _ _ _ _ _ Hu Hm')
        as [Hsame|(-> & m0 & Hm0 & ->)].
      * rewrite Hm in Hsame. by injection Hsame as ->.
      * rewrite Hm in Hm0. injection Hm0 as <-. apply R_started.
    + pose proof (endMatch_updates now id (mm w)) as Hu.
      destruct (endMatch now id (mm w)) as [s1 e1]. intros [= <- _] Hm'.
      simpl in Hm', Hu.
      destruct (updates_one_lookup _ _ _ _ _ _ Hu Hm')
        as [Hsame|(-> & m0 & Hm0 & ->)].
      * rewrite Hm in Hsame. by injection Hsame as ->.
      * rewrite Hm in Hm0. injection Hm0 as <-. apply R_ended.
    + destruct (captured id w) as [mk|]; intros [= <- _]; simpl.
      * intros [_ Hget]%jsmap_get_delete_Some. rewrite Hm in Hget.
        by injection Hget as ->.
      * rewrite Hm. by intros [= <-].
Qed.
End MatchStep.

Lemma match_evolves_ready m u p :
  jsmap_get u (GameMatch.players m) = Some p →
  match_evolves m
    (GameMatch.with_players
       (jsmap_set u (Player.with_isReady true p) (GameMatch.players m)) m).
Proof.
  intros Hp. apply (match_evolves_set _ p); [done|].
  unfold player_evolves. simpl. repeat split; try done; lia.
Qed.

Lemma match_evolves_tap now m u p :
  jsmap_get u (GameMatch.players m) = Some p →
  100 ≤ now - Player.lastTapTimestamp p →
  match_evolves m
    (GameMatch.with_players (jsmap_set u (tapped now p) (GameMatch.players m)) m).
Proof.
  intros Hp Hrate. apply (match_evolves_set _ p); [done|].
  unfold player_evolves. simpl. repeat split; try done; lia.
Qed.

Lemma step_evolves now i w w' eff matchId m m' :
  step now i w = Some (w', eff) →
  match_of matchId w = Some m → match_of matchId w' = Some m' →
  match_evolves m m'.
Proof.
  apply (step_rel match_evolves (λ m k, match_evolves_delete k m)
           (λ t m, match_evolves_started t m) (λ t m, match_evolves_ended t m)
           match_evolves_ready match_evolves_tap).
Qed.

Lemma step_gone now i w w' eff matchId :
  gone matchId w → step now i w = Some (w', eff) → gone matchId w'.
Proof.
  intros [Hnl Hdet] Hstep.
  assert (match_of matchId w' = None) as Hnl'.
  { destruct (match_of matchId w') as [m'|] eqn:E; [|done].
    pose proof (step_status_move now i w w' eff matchId m' Hstep E) as H.
    rewrite Hnl in H. destruct H as (_ & socket & userId & username & ->).
    simpl in Hstep. unfold fresh_uuid, jsmap_has in Hstep.
    destruct Hdet as [d Hd]. rewrite Hd in Hstep.
    by rewrite andb_false_r in Hstep. }
  split; [done|].
  destruct (step_known now i w w' eff matchId (or_intror Hdet) Hstep) as [Hl|Hd];
    [|done].
  unfold match_of in Hnl'. rewrite Hnl' in Hl. by destruct Hl.
Qed.

Lemma run_gone trace : ∀ w w' eff matchId,
  gone matchId w → run trace w = Some (w', eff) → gone matchId w'.
Proof.
  induction trace as [|[now i] rest IH]; intros w w' eff matchId Hg; simpl.
  - by intros [= <- _].
  - destruct (step now i w) as [[w1 eff1]|] eqn:Hs; [|done].
    destruct (run rest w1) as [[w2 eff2]|] eqn:Hrun; [|done].
    intros [= <- _]. eapply IH; [|exact Hrun]. by eapply step_gone.
Qed.

Lemma run_evolves trace : ∀ w w' eff matchId m m',
  run trace w = Some (w', eff) →
  match_of matchId w = Some m → match_of matchId w' = Some m' →
  match_evolves m m'.
Proof.
  induction trace as [|[now i] rest IH]; intros w w' eff matchId m m'; simpl.
  - intros [= <- _] Hm Hm'. rewrite Hm in Hm'. by injection Hm' as ->.
  - destruct (step now i w) as [[w1 eff1]|] eqn:Hs; [|done].
    destruct (run rest w1) as [[w2 eff2]|] eqn:Hrun; [|done].
    intros [= <- _] Hm Hm'.
    destruct (match_of matchId w1) as [m1|] eqn:Hm1.
    + etrans; [by eapply step_evolves|by eapply IH].
    + assert (gone matchId w1) as Hg.
      { split; [done|].
        destruct (step_known now i w w1 eff1 matchId) as [Hl|Hd]; [|done| |done].
        - left. unfold match_of in Hm. rewrite Hm. eauto.
        - unfold match_of in Hm1. rewrite Hm1 in Hl. by destruct Hl. }
      destruct (run_gone rest w1 w2 eff2 matchId Hg Hrun) as [Hnone _].
      by rewrite Hnone in Hm'.
Qed.

(** X4. Over any run of the event loop, for a match that is in the table at
    both ends: a player on the roster at the end was on it at the start,
    under the same key and with the same id, socket and name; the two
    counters did not decrease and grew by the same amount; each validated
    tap gained moved [lastTapTimestamp] forward by at least 100 ms; once
    ready, the player is still ready.  The match kept its id and duration. *)
Theorem run_player_evolves (trace : list (Z * Input)) (w w' : World)
    (eff : list Effect) (matchId : string) (m m' : GameMatch.t)
    (userId : string) (p' : Player.t) :
  run trace w = Some (w', eff) →
  match_of matchId w = Some m →
  match_of matchId w' = Some m' →
  jsmap_get userId (GameMatch.players m') = Some p' →
  GameMatch.id m' = GameMatch.id m
  ∧ GameMatch.duration m' = GameMatch.duration m
  ∧ ∃ p, jsmap_get userId (GameMatch.players m) = Some p
      ∧ Player.id p' = Player.id p
      ∧ Player.socketId p' = Player.socketId p
      ∧ Player.username p' = Player.username p
      ∧ Player.validatedTaps p ≤ Player.validatedTaps p'
      ∧ Player.taps p' - Player.taps p
        = Player.validatedTaps p' - Player.validatedTaps p
      ∧ 100 * (Player.validatedTaps p' - Player.validatedTaps p)
        ≤ Player.lastTapTimestamp p' - Player.lastTapTimestamp p
      ∧ (Player.isReady p = true → Player.isReady p' = true).
Proof.
  intros Hrun Hm Hm' Hp'.
  destruct (run_evolves trace w w' eff matchId m m' Hrun Hm Hm') as (Hi & Hd & Hp).
  split; [done|]. split; [done|].
  destruct (Hp userId p' Hp') as (p & Hget & He). by exists p.
Qed.

Lemma run_player_evolves_witness :
  ∃ m m' p p',
    match_of "m1" (world_after trace_started) = Some m
    ∧ match_of "m1" (world_after trace_tie) = Some m'
    ∧ jsmap_get "A" (GameMatch.players m) = Some p
    ∧ jsmap_get "A" (GameMatch.players m') = Some p'
    ∧ Player.validatedTaps p' = 1
    ∧ 100 * (Player.validatedTaps p' - Player.validatedTaps p)
      ≤ Player.lastTapTimestamp p' - Player.lastTapTimestamp p.
Proof.
  destruct (match_of "m1" (world_after trace_started)) as [m|] eqn:Hm;
    [|by vm_compute in Hm].
  destruct (match_of "m1" (world_after trace_tie)) as [m'|] eqn:Hm';
    [|by vm_compute in Hm'].
  destruct (jsmap_get "A" (GameMatch.players m')) as [p'|] eqn:Hp'.
  2: { vm_compute in Hm'. injection Hm' as <-. by vm_compute in Hp'. }
  destruct (run_player_evolves trace_two_taps (world_after trace_started)
              (world_after trace_tie)
              (effects_of trace_two_taps (world_after trace_started))
              "m1" m m' "A" p' eq_refl Hm Hm' Hp')
    as (_ & _ & p & Hp & _ & _ & _ & _ & _ & Hrate & _).
  exists m, m', p, p'. repeat split; try done.
  vm_compute in Hm'. injection Hm' as <-. vm_compute in Hp'. by injection Hp' as <-.
Defined.

(** ** Well-formed matches *)

Lemma jsmap_get_elem_NoDup {V} k (v : V) (m : JSMap V) :
  NoDup (jsmap_keys m) → (k, v) ∈ m → jsmap_get k m = Some v.
Proof.
  unfold jsmap_keys. induction m as [|[k' v'] r IH]; simpl.
  - by intros _ ?%elem_of_nil.
  - intros [Hnotin Hnd]%NoDup_cons [Heq|Hin]%elem_of_cons.
    + injection Heq as -> ->. by rewrite decide_True.
    + destruct (decide (k = k')) as [->|Hne]; [|by apply IH].
      destruct Hnotin. by apply (list_elem_of_fmap_2 fst _ _ Hin).
Qed.

Lemma roster_ok_evolves l l' :
  roster_ok l → roster_le l l' →
  (∀ u p', jsmap_get u l' = Some p' →
           ∃ p, jsmap_get u l = Some p ∧ player_evolves p p') →
  roster_ok l'.
Proof.
  unfold roster_ok, roster_le, jsmap_size, jsmap_keys.
  intros (Hlen & Hnd & Hall) Hle Hev.
  assert (NoDup l'.*1) as Hnd'.
  { assert (l'.*1 = (roster_sig l').*1) as ->.
    { unfold roster_sig. rewrite <- list_fmap_compose. by apply list_fmap_ext. }
    apply (sublist_NoDup _ ((roster_sig l).*1)); [|by apply fmap_sublist].
    assert ((roster_sig l).*1 = l.*1) as ->; [|done].
    unfold roster_sig. rewrite <- list_fmap_compose. by apply list_fmap_ext. }
  split.
  { apply sublist_length in Hle. unfold roster_sig in Hle.
    rewrite !length_fmap in Hle. lia. }
  split; [done|]. rewrite Forall_forall in Hall |- *. intros [k p'] Hin. simpl.
  split.
  - assert ((k, Player.id p') ∈ roster_sig l) as Hsig.
    { eapply elem_of_sublist; [|exact Hle].
      apply (list_elem_of_fmap_2 (λ kp, (kp.1, Player.id kp.2)) _ _ Hin). }
    apply list_elem_of_fmap in Hsig as ([k0 p0] & [= -> ->] & Hin0).
    by destruct (Hall _ Hin0).
  - destruct (Hev k p' (jsmap_get_elem_NoDup _ _ _ Hnd' Hin)) as (p & Hp & He).
    destruct (Hall _ (jsmap_get_Some_elem _ _ _ Hp)) as [_ (Ht & Hv & Hl)].
    destruct He as (_ & _ & _ & Hv' & Ht' & Hl' & _). simpl in *.
    unfold player_ok. lia.
Qed.

#[local] Instance keeps_fields_refl : Reflexive keeps_fields.
Proof. intros m H. exact H. Qed.

#[local] Instance keeps_fields_trans : Transitive keeps_fields.
Proof. unfold keeps_fields. intros m1 m2 m3; auto. Qed.

Lemma keeps_fields_players l m : keeps_fields m (GameMatch.with_players l m).
Proof. intros H. exact H. Qed.

Lemma keeps_fields_started now m : keeps_fields m (started now m).
Proof.
  intros (Hw & Ha & Hf & Hwin). unfold fields_ok. simpl.
  split; [done|]. split; [eauto|]. by split.
Qed.

Lemma keeps_fields_ended now m : keeps_fields m (ended now m).
Proof.
  intros (Hw & Ha & Hf & Hwin). unfold fields_ok. simpl.
  split; [done|]. split; [done|]. split; eauto.
Qed.

Lemma step_keeps_fields now i w w' eff matchId m m' :
  step now i w = Some (w', eff) →
  match_of matchId w = Some m → match_of matchId w' = Some m' →
  keeps_fields m m'.
Proof.
  apply (step_rel keeps_fields (λ m k, keeps_fields_players _ m)
           (λ t m, keeps_fields_started t m) (λ t m, keeps_fields_ended t m)
           (λ m u p _, keeps_fields_players _ m)
           (λ t m u p _ _, keeps_fields_players _ m)).
Qed.

(** The three outcomes of a join, given the shape of the queue. *)
Lemma handleJoinQueue_cases uuid socket userId username s :
  queue_shape s →
  (matches (handleJoinQueue uuid socket userId username s).1 = matches s
   ∧ playerToMatch (handleJoinQueue uuid socket userId username s).1
     = playerToMatch s)
  ∨ ∃ p, fresh_player p ∧ userId ≠ Player.id p
      ∧ (handleJoinQueue uuid socket userId username s).1
        = paired uuid socket userId username p s.
Proof.
  intros Hs.
  destruct (map_has userId (playerToMatch s)) eqn:Hm.
  { left. unfold handleJoinQueue. by rewrite Hm. }
  destruct Hs as [[Hq Hpq]|(p & Hq & Hpq & Hfresh)].
  - left. by rewrite (handleJoinQueue_first _ _ _ _ _ Hq Hpq Hm).
  - destruct (decide (userId = Player.id p)) as [->|Hne].
    + left. unfold handleJoinQueue. rewrite Hm.
      assert (map_has (Player.id p) (playerQueue s) = true) as ->; [|done].
      apply map_has_dom. rewrite Hpq. by apply elem_of_singleton.
    + right. exists p. split; [done|]. split; [done|].
      by rewrite (handleJoinQueue_second _ _ _ _ _ _ Hq Hpq Hm Hne).
Qed.

Lemma step_matches_ok now i w w' eff :
  queue_shape (mm w) → matches_ok w → step now i w = Some (w', eff) → matches_ok w'.
Proof.
  intros Hshape Hok Hstep matchId m' Hm'.
  destruct (match_of matchId w) as [m|] eqn:Hm.
  - destruct (Hok matchId m Hm) as (Hid & Hdur & Hroster & Hfields).
    pose proof (step_evolves now i w w' eff matchId m m' Hstep Hm Hm')
      as (Hid' & Hdur' & Hev).
    split; [congruence|]. split; [congruence|]. split.
    + eapply roster_ok_evolves; [exact Hroster| |exact Hev].
      by eapply step_roster_le.
    + by eapply step_keeps_fields.
  - pose proof (step_status_move now i w w' eff matchId m' Hstep Hm') as Hmove.
    rewrite Hm in Hmove. destruct Hmove as (_ & socket & userId & username & ->).
    simpl in Hstep. destruct (fresh_uuid matchId w); [|done].
    injection Hstep as <- _. unfold match_of in Hm, Hm'. simpl in Hm'.
    destruct (handleJoinQueue_cases matchId socket userId username (mm w) Hshape)
      as [[Hsame _]|(p & (Ht & Hr & Hl & Hv) & Hne & Hpaired)].
    + rewrite Hsame, Hm in Hm'. done.
    + rewrite Hpaired in Hm'. simpl in Hm'. rewrite jsmap_get_set_eq in Hm'.
      injection Hm' as <-. split; [done|]. split; [done|]. split.
      * unfold roster_ok. simpl. split; [done|]. split.
        { apply NoDup_cons. split; [|apply NoDup_singleton].
          intros Heq%list_elem_of_singleton. by destruct Hne. }
        repeat constructor; simpl; unfold player_ok; simpl; try done; lia.
      * unfold fields_ok. simpl. repeat split; try done.
Qed.

Lemma reachable_matches_ok w : reachable w → matches_ok w.
Proof.
  induction 1 as [|now i w w' eff Hr IH Hstep].
  - by intros matchId m.
  - eapply step_matches_ok; [|exact IH|exact Hstep]. by apply reachable_queue_shape.
Qed.

(** X5. In every reachable state, a match found in the table under [matchId]
    (what [getMatchStatus] returns) carries that id, has the duration
    [MATCH_DURATION], and has a roster of at most [MATCH_SIZE] entries with
    distinct keys, each entry stored under the id of its player. *)
Theorem reachable_match_roster (w : World) (matchId : string) (m : GameMatch.t) :
  reachable w →
  getMatchStatus matchId (mm w) = Some m →
  GameMatch.id m = matchId
  ∧ GameMatch.duration m = MATCH_DURATION
  ∧ (jsmap_size (GameMatch.players m) ≤ MATCH_SIZE)%nat
  ∧ NoDup (jsmap_keys (GameMatch.players m))
  ∧ ∀ userId p, jsmap_get userId (GameMatch.players m) = Some p → Player.id p = userId.
Proof.
  intros Hr Hm.
  destruct (reachable_matches_ok w Hr matchId m Hm)
    as (Hid & Hdur & (Hlen & Hnd & Hall) & _).
  repeat split; try done. intros u p Hp%jsmap_get_Some_elem.
  rewrite Forall_forall in Hall. by destruct (Hall _ Hp).
Qed.

Lemma reachable_match_roster_witness :
  ∃ m, getMatchStatus "m1" (mm (world_after trace_tie)) = Some m
     ∧ GameMatch.id m = "m1"
     ∧ GameMatch.duration m = 30000
     ∧ NoDup (jsmap_keys (GameMatch.players m)).
Proof.
  destruct (getMatchStatus "m1" (mm (world_after trace_tie))) as [m|] eqn:Hm;
    [|by vm_compute in Hm].
  destruct (reachable_match_roster (world_after trace_tie) "m1" m)
    as (Hid & Hdur & _ & Hnd & _).
  - apply reachable_world_after. by eexists.
  - exact Hm.
  - by exists m.
Defined.

(** X6. In every reachable state, for every player on the roster of a match
    in the table: [taps] and [validatedTaps] are equal and not negative, and
    100 ms of server time up to [lastTapTimestamp] stand behind each
    validated tap. *)
Theorem reachable_player_counters (w : World) (matchId userId : string)
    (m : GameMatch.t) (p : Player.t) :
  reachable w →
  getMatchStatus matchId (mm w) = Some m →
  jsmap_get userId (GameMatch.players m) = Some p →
  Player.taps p = Player.validatedTaps p
  ∧ 0 ≤ Player.validatedTaps p
  ∧ 100 * Player.validatedTaps p ≤ Player.lastTapTimestamp p.
Proof.
  intros Hr Hm Hp%jsmap_get_Some_elem.
  destruct (reachable_matches_ok w Hr matchId m Hm) as (_ & _ & (_ & _ & Hall) & _).
  rewrite Forall_forall in Hall. by destruct (Hall _ Hp).
Qed.

Lemma reachable_player_counters_witness :
  ∃ m p, getMatchStatus "m1" (mm (world_after trace_tie)) = Some m
     ∧ jsmap_get "B" (GameMatch.players m) = Some p
     ∧ Player.taps p = Player.validatedTaps p
     ∧ 100 * Player.validatedTaps p ≤ Player.lastTapTimestamp p.
Proof.
  destruct (getMatchStatus "m1" (mm (world_after trace_tie))) as [m|] eqn:Hm;
    [|by vm_compute in Hm].
  destruct (jsmap_get "B" (GameMatch.players m)) as [p|] eqn:Hp.
  2: { vm_compute in Hm. injection Hm as <-. by vm_compute in Hp. }
  destruct (reachable_player_counters (world_after trace_tie) "m1" "B" m p)
    as (Ht & _ & Hl).
  - apply reachable_world_after. by eexists.
  - exact Hm.
  - exact Hp.
  - by exists m, p.
Defined.

(** X7. In every reachable state, for a match in the table: while it is
    waiting it has no start time, no end time and no winner; when it is
    active it has a start time; when it is finished it has an end time; and
    a winner is recorded only together with an end time. *)
Theorem reachable_match_fields (w : World) (matchId : string) (m : GameMatch.t) :
  reachable w →
  getMatchStatus matchId (mm w) = Some m →
  (GameMatch.status m = waiting →
     GameMatch.startTime m = None ∧ GameMatch.endTime m = None
     ∧ GameMatch.winner m = None)
  ∧ (GameMatch.status m = active → is_Some (GameMatch.startTime m))
  ∧ (GameMatch.status m = finished → is_Some (GameMatch.endTime m))
  ∧ (is_Some (GameMatch.winner m) → is_Some (GameMatch.endTime m)).
Proof.
  intros Hr Hm. by destruct (reachable_matches_ok w Hr matchId m Hm) as (_ & _ & _ & H).
Qed.

Lemma reachable_match_fields_witness :
  ∃ m, getMatchStatus "m1" (mm (world_after trace_ended)) = Some m
     ∧ GameMatch.status m = finished
     ∧ is_Some (GameMatch.endTime m).
Proof.
  destruct (getMatchStatus "m1" (mm (world_after trace_ended))) as [m|] eqn:Hm;
    [|by vm_compute in Hm].
  assert (GameMatch.status m = finished) as Hst.
  { vm_compute in Hm. by injection Hm as <-. }
  destruct (reachable_match_fields (world_after trace_ended) "m1" m)
    as (_ & _ & Hfin & _).
  - apply reachable_world_after. by eexists.
  - exact Hm.
  - exists m. split; [done|]. split; [done|]. by apply Hfin.
Defined.

(** ** What a disconnect does *)

Lemma filter_Forall_id {A} (P : A → Prop) `{!∀ x, Decision (P x)} (l : list A) :
  Forall P l → filter P l = l.
Proof.
  induction 1 as [|x r Hx Hr IH]; [done|].
  rewrite filter_cons_True by done. by rewrite IH.
Qed.

Lemma jsmap_delete_middle {V} k (v : V) (pre post : JSMap V) :
  NoDup (jsmap_keys (pre ++ (k, v) :: post)) →
  jsmap_delete k (pre ++ (k, v) :: post) = pre ++ post.
Proof.
  unfold jsmap_keys. induction pre as [|[k' v'] r IH]; simpl.
  - intros [Hnotin _]%NoDup_cons. rewrite decide_True by done.
    apply jsmap_delete_absent.
    destruct (jsmap_get k post) as [x|] eqn:Hx; [|done].
    destruct Hnotin. apply jsmap_get_Some_elem in Hx.
    by apply (list_elem_of_fmap_2 fst _ _ Hx).
  - intros [Hnotin Hnd]%NoDup_cons. rewrite decide_False.
    + by rewrite IH.
    + intros <-. apply Hnotin. rewrite fmap_app. apply elem_of_app. right. left.
Qed.

Lemma disconnect_match_entry_lookup now socket k s eff entry m :
  jsmap_get k (matches s) = Some m →
  let r := disconnect_match_entry now socket k (s, eff) entry in
  (∀ matchId, jsmap_get matchId (matches r.1)
     = if decide (matchId = k) then Some (drop_entry now socket m entry)
       else jsmap_get matchId (matches s))
  ∧ playerToMatch r.1 = drop_index socket (playerToMatch s) entry.
Proof.
  intros Hm. destruct entry as [playerId player].
  unfold disconnect_match_entry, drop_entry, drop_index. cbn [fst snd].
  destruct (decide (Player.socketId player = socket)) as [Hs|Hs].
  2: { split; [|done]. intros id. destruct (decide (id = k)) as [->|]; done. }
  rewrite Hm. set (m1 := GameMatch.with_players _ m).
  set (s1 := mkMatchmaker _ _ _ _).
  destruct (jsmap_size (GameMatch.players m1) =? 0)%nat.
  - pose proof (endMatch_matches now k s1) as Hmat.
    pose proof (endMatch_frame now k s1) as (_ & Hidx & _).
    destruct (endMatch now k s1) as [s2 eff2]. simpl in Hmat, Hidx |- *.
    rewrite jsmap_get_set_eq in Hmat. split; [|done].
    intros id. rewrite Hmat, jsmap_set_set. apply jsmap_get_set.
  - split; [|done]. intros id. simpl. apply jsmap_get_set.
Qed.

Lemma disconnect_entries_lookup now socket k es : ∀ s eff m,
  jsmap_get k (matches s) = Some m →
  let r := foldl (disconnect_match_entry now socket k) (s, eff) es in
  (∀ matchId, jsmap_get matchId (matches r.1)
     = if decide (matchId = k) then Some (foldl (drop_entry now socket) m es)
       else jsmap_get matchId (matches s))
  ∧ playerToMatch r.1 = foldl (drop_index socket) (playerToMatch s) es.
Proof.
  induction es as [|e es IH]; intros s eff m Hm; cbn [foldl].
  - split; [|done]. intros id. simpl. by destruct (decide (id = k)) as [->|].
  - destruct (disconnect_match_entry_lookup now socket k s eff e m Hm) as [H1 H2].
    destruct (disconnect_match_entry now socket k (s, eff) e) as [s1 eff1].
    simpl in H1, H2.
    assert (jsmap_get k (matches s1) = Some (drop_entry now socket m e)) as Hm1.
    { rewrite H1. by rewrite decide_True. }
    destruct (IH s1 eff1 _ Hm1) as [H3 H4]. split.
    + intros id. rewrite H3, H1. by destruct (decide (id = k)).
    + by rewrite H4, H2.
Qed.

(** The loop over the snapshot of a roster with distinct keys, from the
    point where the entries [pre] were kept and [es] are still to visit. *)
Lemma foldl_drop_entry now socket es : ∀ pre m0,
  GameMatch.players m0 = pre ++ es →
  NoDup (jsmap_keys (pre ++ es)) →
  Forall (other_socket socket) pre →
  foldl (drop_entry now socket) m0 es
  = if decide (Forall (other_socket socket) es) then m0
    else match pre ++ filter (other_socket socket) es with
         | [] => ended now (GameMatch.with_players [] m0)
         | rest => GameMatch.with_players rest m0
         end.
Proof.
  induction es as [|[k p] es IH]; intros pre m0 Hpl Hnd Hpre.
  { by rewrite decide_True by constructor. }
  cbn [foldl]. unfold drop_entry at 2. cbn [fst snd].
  destruct (decide (Player.socketId p = socket)) as [Hs|Hs].
  - rewrite decide_False by (intros [H _]%Forall_cons; by apply H).
    rewrite filter_cons_False by (intros H; by apply H).
    rewrite Hpl, (jsmap_delete_middle _ _ _ _ Hnd).
    assert (NoDup (jsmap_keys (pre ++ es))) as Hnd'.
    { unfold jsmap_keys in *. rewrite fmap_app in Hnd |- *. simpl in Hnd.
      apply (sublist_NoDup _ _ Hnd). apply sublist_app; [done|by apply sublist_cons]. }
    destruct (pre ++ es) as [|x xs] eqn:Hrest; cbn [GameMatch.players
      GameMatch.with_players jsmap_size length Nat.eqb].
    + apply app_eq_nil in Hrest as [-> ->]. simpl. by destruct m0.
    + rewrite (IH pre); [|by rewrite <- Hrest|by rewrite Hrest|done].
      destruct (decide (Forall (other_socket socket) es)) as [Hall|Hall].
      * rewrite (filter_Forall_id _ _ Hall), Hrest. done.
      * destruct (pre ++ filter (other_socket socket) es); by destruct m0.
  - rewrite filter_cons_True by done.
    rewrite (IH (pre ++ [(k, p)])).
    + rewrite <- (assoc_L (++)). simpl.
      destruct (decide (Forall (other_socket socket) es)) as [Hall|Hall].
      * by rewrite decide_True by (by apply Forall_cons).
      * by rewrite decide_False by (by intros [_ H]%Forall_cons).
    + by rewrite <- (assoc_L (++)).
    + by rewrite <- (assoc_L (++)).
    + apply Forall_app. split; [done|]. by apply Forall_singleton.
Qed.

Lemma roster_loop_disconnected now socket m :
  NoDup (jsmap_keys (GameMatch.players m)) →
  foldl (drop_entry now socket) m (GameMatch.players m) = disconnected now socket m.
Proof.
  intros Hnd. by rewrite (foldl_drop_entry now socket (GameMatch.players m) [] m).
Qed.

Lemma disconnected_clean now socket m :
  Forall (other_socket socket) (GameMatch.players (disconnected now socket m)).
Proof.
  unfold disconnected.
  destruct (decide (Forall (other_socket socket) (GameMatch.players m))); [done|].
  assert (Forall (other_socket socket)
            (filter (other_socket socket) (GameMatch.players m))) as H.
  { apply Forall_forall. by intros x [Hx _]%list_elem_of_filter. }
  destruct (filter (other_socket socket) (GameMatch.players m)); [constructor|done].
Qed.

Lemma disconnected_other now socket m :
  Forall (other_socket socket) (GameMatch.players m) → disconnected now socket m = m.
Proof. intros H. unfold disconnected. by rewrite decide_True. Qed.

Lemma disconnected_roster now socket m :
  GameMatch.players (disconnected now socket m)
  = filter (other_socket socket) (GameMatch.players m).
Proof.
  unfold disconnected.
  destruct (decide (Forall (other_socket socket) (GameMatch.players m))) as [H|H].
  - by rewrite filter_Forall_id.
  - by destruct (filter (other_socket socket) (GameMatch.players m)).
Qed.

Lemma disconnected_NoDup now socket m :
  NoDup (jsmap_keys (GameMatch.players m)) →
  NoDup (jsmap_keys (GameMatch.players (disconnected now socket m))).
Proof.
  rewrite disconnected_roster. unfold jsmap_keys. intros Hnd.
  apply (sublist_NoDup _ _ Hnd). apply fmap_sublist, sublist_filter.
Qed.

Lemma foldl_drop_index_Some socket es : ∀ idx u v,
  foldl (drop_index socket) idx es !! u = Some v → idx !! u = Some v.
Proof.
  induction es as [|[k p] es IH]; intros idx u v; simpl; [done|].
  intros H%IH. unfold drop_index in H. simpl in H.
  destruct (decide (Player.socketId p = socket)); [|done].
  by apply lookup_delete_Some in H as [_ H].
Qed.

Lemma foldl_drop_index_None socket es : ∀ idx u p,
  (u, p) ∈ es → Player.socketId p = socket →
  foldl (drop_index socket) idx es !! u = None.
Proof.
  induction es as [|[k q] es IH]; intros idx u p; simpl.
  - by intros ?%elem_of_nil.
  - intros [[= -> ->]|Hin]%elem_of_cons Hs; [|by eapply IH].
    destruct (foldl _ _ es !! k) as [v|] eqn:Hv; [|done].
    apply foldl_drop_index_Some in Hv. unfold drop_index in Hv. simpl in Hv.
    rewrite decide_True in Hv by done. by rewrite lookup_delete_eq in Hv.
Qed.

Lemma foldl_drop_index_other socket es : ∀ idx u,
  (∀ p, (u, p) ∈ es → Player.socketId p ≠ socket) →
  foldl (drop_index socket) idx es !! u = idx !! u.
Proof.
  induction es as [|[k q] es IH]; intros idx u Hu; simpl; [done|].
  rewrite IH by (intros p Hp; apply Hu; by right).
  unfold drop_index. simpl.
  destruct (decide (Player.socketId q = socket)) as [Hs|Hs]; [|done].
  apply lookup_delete_ne. intros ->. by apply (Hu q); [left|].
Qed.

Lemma disconnect_match_lookup now socket k acc :
  (∀ m, jsmap_get k (matches acc.1) = Some m →
        NoDup (jsmap_keys (GameMatch.players m))) →
  let r := disconnect_match now socket acc k in
  (∀ matchId, jsmap_get matchId (matches r.1)
     = if decide (matchId = k)
       then disconnected now socket <$> jsmap_get k (matches acc.1)
       else jsmap_get matchId (matches acc.1))
  ∧ playerToMatch r.1
    = match jsmap_get k (matches acc.1) with
      | Some m => foldl (drop_index socket) (playerToMatch acc.1) (GameMatch.players m)
      | None => playerToMatch acc.1
      end.
Proof.
  intros Hnd. unfold disconnect_match.
  destruct (jsmap_get k (matches acc.1)) as [m|] eqn:Hm; simpl.
  - destruct acc as [s eff]. simpl in *.
    destruct (disconnect_entries_lookup now socket k (GameMatch.players m) s eff m Hm)
      as [H1 H2].
    split; [|done]. intros id. rewrite H1.
    by rewrite (roster_loop_disconnected now socket m (Hnd m eq_refl)).
  - split; [|done]. intros id. destruct (decide (id = k)) as [->|]; done.
Qed.

Lemma disconnect_matches_lookup now socket ks : ∀ acc,
  (∀ id m, jsmap_get id (matches acc.1) = Some m →
           NoDup (jsmap_keys (GameMatch.players m))) →
  let r := foldl (disconnect_match now socket) acc ks in
  (∀ id, jsmap_get id (matches r.1)
     = if decide (id ∈ ks)
       then disconnected now socket <$> jsmap_get id (matches acc.1)
       else jsmap_get id (matches acc.1))
  ∧ (∀ u v, playerToMatch r.1 !! u = Some v → playerToMatch acc.1 !! u = Some v)
  ∧ (∀ u k m p, k ∈ ks → jsmap_get k (matches acc.1) = Some m →
       (u, p) ∈ GameMatch.players m → Player.socketId p = socket →
       playerToMatch r.1 !! u = None)
  ∧ (∀ u, (∀ k m p, k ∈ ks → jsmap_get k (matches acc.1) = Some m →
             (u, p) ∈ GameMatch.players m → Player.socketId p ≠ socket) →
       playerToMatch r.1 !! u = playerToMatch acc.1 !! u).
Proof.
  induction ks as [|k ks IH]; intros acc Hnd; cbn [foldl].
  { split; [done|]. split; [done|]. split; [|done].
    by intros u k m p ?%elem_of_nil. }
  destruct (disconnect_match_lookup now socket k acc (Hnd k)) as [H1 H2].
  set (acc1 := disconnect_match now socket acc k) in *.
  assert (∀ id m, jsmap_get id (matches acc1.1) = Some m →
                  NoDup (jsmap_keys (GameMatch.players m))) as Hnd1.
  { intros id m1. rewrite H1. destruct (decide (id = k)) as [->|Hne]; [|apply Hnd].
    destruct (jsmap_get k (matches acc.1)) as [m|] eqn:Hm; [|done].
    intros [= <-]. apply disconnected_NoDup. by eapply Hnd. }
  assert (∀ u v, playerToMatch acc1.1 !! u = Some v →
                 playerToMatch acc.1 !! u = Some v) as Hmono.
  { intros u v. rewrite H2. destruct (jsmap_get k (matches acc.1)); [|done].
    apply foldl_drop_index_Some. }
  destruct (IH acc1 Hnd1) as (Ha & Hb & Hc & Hd).
  split; [|split; [|split]].
  - intros id. rewrite Ha, !H1.
    destruct (decide (id = k)) as [->|Hne].
    + destruct (decide (k ∈ k :: ks)) as [_|Hn]; [|destruct Hn; left].
      destruct (decide (k ∈ ks)); [|done].
      destruct (jsmap_get k (matches acc.1)) as [m|]; [|done]. simpl.
      f_equal. apply disconnected_other, disconnected_clean.
    + destruct (decide (id ∈ ks)) as [Hin|Hin].
      * destruct (decide (id ∈ k :: ks)) as [_|Hn]; [done|]. destruct Hn. by right.
      * destruct (decide (id ∈ k :: ks)) as [[?|?]%elem_of_cons|_]; done.
  - intros u v Hv. by apply Hmono, Hb.
  - intros u k' m p Hin Hm Hp Hs.
    destruct (decide (k' = k)) as [->|Hne].
    + destruct (playerToMatch _ !! u) as [v|] eqn:Hv; [|done].
      apply Hb in Hv. rewrite H2, Hm in Hv.
      by rewrite (foldl_drop_index_None _ _ _ _ _ Hp Hs) in Hv.
    + apply elem_of_cons in Hin as [?|Hin]; [done|].
      apply (Hc u k' m p Hin); [|done|done].
      rewrite H1. by rewrite decide_False.
  - intros u Hu. rewrite Hd.
    + rewrite H2. destruct (jsmap_get k (matches acc.1)) as [m|] eqn:Hm; [|done].
      apply foldl_drop_index_other. intros p Hp. by apply (Hu k m p); [left| |].
    + intros k' m1 p Hin. rewrite H1.
      destruct (decide (k' = k)) as [->|Hne].
      * destruct (jsmap_get k (matches acc.1)) as [m|] eqn:Hm; [|done].
        intros [= <-] Hp.
        pose proof (disconnected_clean now socket m) as Hclean.
        rewrite Forall_forall in Hclean. exact (Hclean _ Hp).
      * intros Hm1 Hp. by apply (Hu k' m1 p); [right| |].
Qed.

Lemma jsmap_get_None_keys {V} k (m : JSMap V) :
  jsmap_get k m = None ↔ k ∉ jsmap_keys m.
Proof.
  unfold jsmap_keys. induction m as [|[k' v] r IH]; simpl.
  - split; [intros _; apply not_elem_of_nil|done].
  - rewrite not_elem_of_cons. destruct (decide (k = k')) as [->|Hne].
    + split; [done|]. by intros [? _].
    + rewrite IH. split; [done|]. by intros [_ ?].
Qed.

Lemma disconnect_queue_matches socket s :
  let s1 := foldl (disconnect_queue_entry socket) s (queue s) in
  matches s1 = matches s ∧ playerToMatch s1 = playerToMatch s.
Proof.
  apply (foldl_preserves
           (λ a, matches a = matches s ∧ playerToMatch a = playerToMatch s));
    [|done].
  intros a [k p] Ha. unfold disconnect_queue_entry. by destruct (decide _).
Qed.

(** The match table and the index [playerToMatch] after a disconnect, when
    every roster has distinct keys. *)
Lemma handleDisconnect_lookup now socket s :
  (∀ id m, jsmap_get id (matches s) = Some m →
           NoDup (jsmap_keys (GameMatch.players m))) →
  let s' := (handleDisconnect now socket s).1 in
  (∀ id, jsmap_get id (matches s')
     = disconnected now socket <$> jsmap_get id (matches s))
  ∧ (∀ u v, playerToMatch s' !! u = Some v → playerToMatch s !! u = Some v)
  ∧ (∀ u id m p, jsmap_get id (matches s) = Some m →
       (u, p) ∈ GameMatch.players m → Player.socketId p = socket →
       playerToMatch s' !! u = None)
  ∧ (∀ u, (∀ id m p, jsmap_get id (matches s) = Some m →
             (u, p) ∈ GameMatch.players m → Player.socketId p ≠ socket) →
       playerToMatch s' !! u = playerToMatch s !! u).
Proof.
  intros Hnd. unfold handleDisconnect.
  destruct (disconnect_queue_matches socket s) as [Hm Hi].
  set (s1 := foldl (disconnect_queue_entry socket) s (queue s)) in *.
  destruct (disconnect_matches_lookup now socket (jsmap_keys (matches s1)) (s1, []))
    as (Ha & Hb & Hc & Hd).
  { simpl. rewrite Hm. exact Hnd. }
  simpl in Ha, Hb, Hc, Hd. rewrite Hm, Hi in *.
  split; [|split; [|split]].
  - intros id. rewrite Ha. destruct (decide (id ∈ jsmap_keys (matches s))) as [|Hn];
      [done|]. apply jsmap_get_None_keys in Hn. by rewrite Hn.
  - exact Hb.
  - intros u id m p Hget. apply (Hc u id m p); [|done].
    destruct (decide (id ∈ jsmap_keys (matches s))) as [|Hn]; [done|].
    apply jsmap_get_None_keys in Hn. by rewrite Hn in Hget.
  - intros u Hu. apply Hd. intros k m p _. apply Hu.
Qed.

Lemma handleDisconnect_queue now socket s :
  queue_shape s →
  queue (handleDisconnect now socket s).1 = filter (other_socket socket) (queue s).
Proof.
  intros Hs. unfold handleDisconnect.
  set (s1 := foldl (disconnect_queue_entry socket) s (queue s)).
  destruct (disconnect_matches_queue now socket s1 (jsmap_keys (matches s1)))
    as [-> _].
  subst s1. destruct Hs as [[Hq _]|(p & Hq & _)]; rewrite Hq; [done|].
  cbn [foldl]. unfold disconnect_queue_entry.
  destruct (decide (Player.socketId p = socket)) as [Hsock|Hsock].
  - rewrite filter_cons_False by (intros H; by apply H).
    simpl. rewrite Hq. simpl. by rewrite decide_True.
  - by rewrite filter_cons_True.
Qed.

(** X8. A disconnect in a reachable state takes the players of the socket,
    and nobody else, out of the queue and off every roster: the queue and
    each roster are filtered in place, a match whose roster is left empty by
    this is ended at once, and every other field of every match is as it
    was.  Afterwards no queue entry and no roster entry carries the socket. *)
Theorem handleDisconnect_removes_socket (now : Z) (socket : string) (w : World) :
  reachable w →
  let s' := (handleDisconnect now socket (mm w)).1 in
  queue s' = filter (other_socket socket) (queue (mm w))
  ∧ (∀ matchId,
       getMatchStatus matchId s'
       = disconnected now socket <$> getMatchStatus matchId (mm w))
  ∧ Forall (other_socket socket) (queue s')
  ∧ (∀ matchId m', getMatchStatus matchId s' = Some m' →
       Forall (other_socket socket) (GameMatch.players m')).
Proof.
  intros Hr s'. subst s'. unfold getMatchStatus.
  pose proof (handleDisconnect_queue now socket (mm w) (reachable_queue_shape w Hr))
    as Hq.
  destruct (handleDisconnect_lookup now socket (mm w)) as (Hm & _).
  { intros id m Hget.
    by destruct (reachable_matches_ok w Hr id m Hget) as (_ & _ & (_ & Hnd & _) & _). }
  split; [done|]. split; [done|]. split.
  - rewrite Hq. apply Forall_forall. by intros x [Hx _]%list_elem_of_filter.
  - intros id m'. rewrite Hm.
    destruct (jsmap_get id (matches (mm w))) as [m|]; [|done].
    intros [= <-]. apply disconnected_clean.
Qed.

Lemma handleDisconnect_removes_socket_witness :
  ∃ m', getMatchStatus "m1"
          (handleDisconnect 100 "sa" (mm (world_after trace_paired))).1 = Some m'
      ∧ jsmap_keys (GameMatch.players m') = ["B"]
      ∧ GameMatch.status m' = waiting.
Proof.
  destruct (handleDisconnect_removes_socket 100 "sa" (world_after trace_paired))
    as (_ & Hm & _).
  - apply reachable_world_after. by eexists.
  - eexists. split; [rewrite Hm; vm_compute; reflexivity|]. by vm_compute.
Defined.

(** X9. What a disconnect does to the index [playerToMatch] in a reachable
    state: a user who had a roster entry on the disconnected socket, in any
    match of the table, is no longer indexed ([getPlayerStats] reports
    [inMatch] false); every other user keeps the entry they had; no entry is
    added or redirected. *)
Theorem handleDisconnect_index (now : Z) (socket : string) (w : World) :
  reachable w →
  let s' := (handleDisconnect now socket (mm w)).1 in
  (∀ userId matchId m p,
     getMatchStatus matchId (mm w) = Some m →
     jsmap_get userId (GameMatch.players m) = Some p →
     Player.socketId p = socket →
     PlayerStats.inMatch (getPlayerStats userId s') = false)
  ∧ (∀ userId,
       (∀ matchId m p,
          getMatchStatus matchId (mm w) = Some m →
          jsmap_get userId (GameMatch.players m) = Some p →
          Player.socketId p ≠ socket) →
       PlayerStats.matchId (getPlayerStats userId s')
       = PlayerStats.matchId (getPlayerStats userId (mm w)))
  ∧ (∀ userId matchId,
       PlayerStats.matchId (getPlayerStats userId s') = Some matchId →
       PlayerStats.matchId (getPlayerStats userId (mm w)) = Some matchId).
Proof.
  intros Hr s'. subst s'. unfold getMatchStatus. simpl.
  assert (∀ id m, jsmap_get id (matches (mm w)) = Some m →
                  NoDup (jsmap_keys (GameMatch.players m))) as Hnd.
  { intros id m Hget.
    by destruct (reachable_matches_ok w Hr id m Hget) as (_ & _ & (_ & H & _) & _). }
  destruct (handleDisconnect_lookup now socket (mm w) Hnd) as (_ & Hmono & Hgone & Hkeep).
  split; [|split].
  - intros u id m p Hm Hp%jsmap_get_Some_elem Hs. unfold map_has.
    by rewrite (Hgone u id m p).
  - intros u Hu. apply Hkeep. intros id m p Hm Hp.
    apply (Hu id m p Hm). apply jsmap_get_elem_NoDup; [by eapply Hnd|done].
  - exact Hmono.
Qed.

Lemma handleDisconnect_index_witness :
  PlayerStats.inMatch
    (getPlayerStats "A" (handleDisconnect 100 "sa" (mm (world_after trace_paired))).1)
  = false
  ∧ PlayerStats.matchId
      (getPlayerStats "B" (handleDisconnect 100 "sa" (mm (world_after trace_paired))).1)
    = Some "m1".
Proof.
  destruct (handleDisconnect_index 100 "sa" (world_after trace_paired))
    as (Hgone & Hkeep & _).
  - apply reachable_world_after. by eexists.
  - split.
    + eapply (Hgone "A" "m1" _ (new_player "sa" "A" "alice")); reflexivity.
    + rewrite Hkeep; [reflexivity|].
      intros matchId m p Hm Hp. unfold getMatchStatus in Hm.
      assert (matches (mm (world_after trace_paired))
              = [("m1", GameMatch.mk "m1"
                          [("A", new_player "sa" "A" "alice");
                           ("B", new_player "sb" "B" "bob")]
                          waiting None None 30000 None)]) as Heq by reflexivity.
      rewrite Heq in Hm. cbn [jsmap_get] in Hm.
      destruct (decide (matchId = "m1")); [|done].
      injection Hm as <-. vm_compute in Hp. injection Hp as <-. discriminate.
Defined.

(** X10. A disconnect of a socket that no queued player and no roster player
    uses does nothing at all: the state is unchanged and nothing is emitted
    or scheduled. *)
Theorem handleDisconnect_unknown_socket (now : Z) (socket : string) (s : Matchmaker) :
  Forall (other_socket socket) (queue s) →
  (∀ matchId m, getMatchStatus matchId s = Some m →
                Forall (other_socket socket) (GameMatch.players m)) →
  handleDisconnect now socket s = (s, []).
Proof.
  unfold getMatchStatus. intros Hq Hm. unfold handleDisconnect.
  assert (foldl (disconnect_queue_entry socket) s (queue s) = s) as ->.
  { apply (foldl_preserves_elem (λ a, a = s)); [|done].
    intros a [k p] Hin ->. rewrite Forall_forall in Hq.
    unfold disconnect_queue_entry.
    destruct (decide (Player.socketId p = socket)) as [Hs|]; [|done].
    by destruct (Hq _ Hin). }
  apply (foldl_preserves (λ a, a = (s, []))); [|done].
  intros a k ->. unfold disconnect_match. simpl.
  destruct (jsmap_get k (matches s)) as [m|] eqn:Hk; [|done].
  specialize (Hm k m Hk). rewrite Forall_forall in Hm.
  apply (foldl_preserves_elem (λ a, a = (s, []))); [|done].
  intros a [pid pl] Hin ->. unfold disconnect_match_entry.
  destruct (decide (Player.socketId pl = socket)) as [Hs|]; [|done].
  by destruct (Hm _ Hin).
Qed.

Lemma handleDisconnect_unknown_socket_witness :
  handleDisconnect 100 "sz" (mm (world_after trace_paired))
  = (mm (world_after trace_paired), []).
Proof.
  apply handleDisconnect_unknown_socket.
  - by vm_compute.
  - intros matchId m. unfold getMatchStatus.
    assert (matches (mm (world_after trace_paired))
            = [("m1", GameMatch.mk "m1"
                        [("A", new_player "sa" "A" "alice");
                         ("B", new_player "sb" "B" "bob")]
                        waiting None None 30000 None)]) as -> by reflexivity.
    cbn [jsmap_get]. destruct (decide (matchId = "m1")); [|done].
    intros [= <-]. by repeat constructor.
Defined.

(** ** The index never dangles *)

Lemma jsmap_get_is_Some_keys {V} k (m : JSMap V) :
  is_Some (jsmap_get k m) ↔ k ∈ jsmap_keys m.
Proof.
  destruct (jsmap_get k m) as [v|] eqn:Hget.
  - split; [intros _|by eauto]. apply jsmap_get_Some_elem in Hget.
    by apply (list_elem_of_fmap_2 fst _ _ Hget).
  - apply jsmap_get_None_keys in Hget. split; [by intros [? ?]|done].
Qed.

Lemma same_roster_ids_present l l' u :
  same_roster_ids l l' → is_Some (jsmap_get u l) → is_Some (jsmap_get u l').
Proof.
  unfold same_roster_ids, roster_sig. intros Heq.
  rewrite !jsmap_get_is_Some_keys. unfold jsmap_keys.
  assert (∀ x : JSMap Player.t, x.*1 = ((λ kp, (kp.1, Player.id kp.2)) <$> x).*1) as H.
  { intros x. rewrite <- list_fmap_compose. by apply list_fmap_ext. }
  by rewrite (H l), (H l'), Heq.
Qed.

Lemma updates_one_on_roster R matchId s s' u k :
  (∀ m m', R m m' → same_roster_ids (GameMatch.players m) (GameMatch.players m')) →
  updates_one R matchId s s' →
  on_roster u k s → on_roster u k s'.
Proof.
  intros HR [Heq|(m0 & m1 & Hm0 & Heq & Hrel)] (m & Hm & Hu); unfold on_roster;
    rewrite Heq; [by exists m|].
  rewrite jsmap_get_set. destruct (decide (k = matchId)) as [->|Hne]; [|by exists m].
  rewrite Hm0 in Hm. injection Hm as ->. exists m1. split; [done|].
  eapply same_roster_ids_present; [by apply HR|done].
Qed.

Lemma index_sound_frame R matchId s s' :
  (∀ m m', R m m' → same_roster_ids (GameMatch.players m) (GameMatch.players m')) →
  updates_one R matchId s s' →
  playerToMatch s' = playerToMatch s →
  index_sound s → index_sound s'.
Proof.
  intros HR Hup Hidx Hs u k. rewrite Hidx. intros Hk.
  eapply updates_one_on_roster; [exact HR|exact Hup|by apply Hs].
Qed.

Lemma handleDisconnect_index_sound now socket s :
  (∀ id m, jsmap_get id (matches s) = Some m →
           NoDup (jsmap_keys (GameMatch.players m))) →
  index_sound s → index_sound (handleDisconnect now socket s).1.
Proof.
  intros Hnd Hs u k Hk.
  destruct (handleDisconnect_lookup now socket s Hnd) as (Hm & Hmono & Hgone & _).
  destruct (Hs u k (Hmono u k Hk)) as (m & Hget & [p Hp]).
  destruct (decide (Player.socketId p = socket)) as [Hsock|Hsock].
  { rewrite (Hgone u k m p Hget (jsmap_get_Some_elem _ _ _ Hp) Hsock) in Hk. done. }
  exists (disconnected now socket m). split; [by rewrite Hm, Hget|].
  rewrite disconnected_roster. exists p. apply jsmap_get_elem_NoDup.
  - unfold jsmap_keys. apply (sublist_NoDup _ _ (Hnd k m Hget)).
    apply fmap_sublist, sublist_filter.
  - apply list_elem_of_filter. split; [done|by apply jsmap_get_Some_elem].
Qed.

Lemma step_index_sound now i w w' eff :
  queue_shape (mm w) → matches_ok w → index_sound (mm w) →
  step now i w = Some (w', eff) → index_sound (mm w').
Proof.
  intros Hshape Hok Hs. destruct i; simpl.
  - destruct (fresh_uuid uuid w) eqn:Hfresh; [|done]. intros [= <- _]. simpl.
    apply andb_true_iff in Hfresh as [Hfresh _]. unfold jsmap_has in Hfresh.
    destruct (handleJoinQueue_cases uuid socket userId username (mm w) Hshape)
      as [[Hsame Hidx]|(p & _ & Hne & ->)].
    + intros u k. unfold on_roster. rewrite Hidx, Hsame. apply Hs.
    + intros u k. unfold on_roster. simpl. intros Hk.
      destruct (decide (u = userId)) as [->|Hu].
      { rewrite lookup_insert_eq in Hk. injection Hk as <-.
        rewrite jsmap_get_set_eq. eexists. split; [done|]. simpl.
        rewrite decide_False by done. rewrite decide_True by done. eauto. }
      rewrite lookup_insert_ne in Hk by done.
      destruct (decide (u = Player.id p)) as [->|Hp].
      { rewrite lookup_insert_eq in Hk. injection Hk as <-.
        rewrite jsmap_get_set_eq. eexists. split; [done|]. simpl.
        rewrite decide_True by done. eauto. }
      rewrite lookup_insert_ne in Hk by done.
      destruct (Hs u k Hk) as (m & Hm & Hon). exists m. split; [|done].
      rewrite jsmap_get_set_ne; [done|]. intros ->. by rewrite Hm in Hfresh.
  - intros [= <- _]. simpl. intros u k. unfold on_roster.
    rewrite handleLeaveQueue_matches.
    assert (playerToMatch (handleLeaveQueue socket userId (mm w)).1
            = playerToMatch (mm w)) as ->; [|apply Hs].
    unfold handleLeaveQueue. by destruct (negb _).
  - intros [= <- _]. simpl.
    destruct (handlePlayerReady_frame now socket userId matchId (mm w)) as (_ & Hidx & _).
    eapply index_sound_frame;
      [|apply handlePlayerReady_updates|exact Hidx|exact Hs].
    by intros m m' (_ & Hids & _).
  - intros [= <- _]. simpl.
    destruct (handleTap_frame now socket userId matchId timestamp (mm w))
      as (_ & Hidx & _).
    eapply index_sound_frame; [|apply handleTap_updates|exact Hidx|exact Hs].
    by intros m m' (_ & Hids & _).
  - intros [= <- _]. simpl. apply handleDisconnect_index_sound; [|done].
    intros id m Hget. by destruct (Hok id m Hget) as (_ & _ & (_ & Hnd & _) & _).
  - destruct (timers w !! i) as [[due cb]|] eqn:Ht; [|done].
    destruct (due <=? now); [|done].
    destruct cb as [id|id|id]; simpl.
    + pose proof (startMatch_updates now id (mm w)) as Hu.
      destruct (startMatch_frame now id (mm w)) as (_ & Hidx & _).
      destruct (startMatch now id (mm w)) as [s1 e1]. intros [= <- _]. simpl in *.
      eapply index_sound_frame; [|exact Hu|exact Hidx|exact Hs].
      by intros m m' ->.
    + pose proof (endMatch_updates now id (mm w)) as Hu.
      destruct (endMatch_frame now id (mm w)) as (_ & Hidx & _).
      destruct (endMatch now id (mm w)) as [s1 e1]. intros [= <- _]. simpl in *.
      eapply index_sound_frame; [|exact Hu|exact Hidx|exact Hs].
      by intros m m' ->.
    + unfold captured.
      destruct (jsmap_get id (matches (mm w))) as [m|] eqn:Hlive.
      * intros [= <- _]. simpl. intros u k. unfold on_roster, cleanup. simpl.
        rewrite cleanup_index_lookup.
        destruct (decide (u ∈ Player.id <$> jsmap_values (GameMatch.players m)))
          as [|Hnotin]; [done|].
        intros Hk. destruct (Hs u k Hk) as (mk & Hmk & Hon).
        exists mk. split; [|done]. rewrite jsmap_get_delete_ne; [done|].
        intros ->. rewrite Hlive in Hmk. injection Hmk as <-.
        destruct Hon as [p Hp%jsmap_get_Some_elem]. apply Hnotin.
        destruct (Hok id m Hlive) as (_ & _ & (_ & _ & Hall) & _).
        rewrite Forall_forall in Hall. destruct (Hall _ Hp) as [Hid _].
        simpl in Hid. rewrite <- Hid. unfold jsmap_values.
        rewrite <- list_fmap_compose.
        apply (list_elem_of_fmap_2 (Player.id ∘ snd) _ _ Hp).
      * destruct (jsmap_get id (detached w)) as [mk|]; intros [= <- _]; simpl;
          [|done].
        intros u k. unfold on_roster, cleanup. simpl.
        rewrite cleanup_index_lookup. destruct (decide _); [done|].
        intros Hk. destruct (Hs u k Hk) as (m & Hm & Hon).
        exists m. split; [|done]. rewrite jsmap_get_delete_ne; [done|].
        intros ->. by rewrite Hlive in Hm.
Qed.

Lemma reachable_index_sound w : reachable w → index_sound (mm w).
Proof.
  induction 1 as [|now i w w' eff Hr IH Hstep].
  - intros u k. simpl. by rewrite lookup_empty.
  - eapply step_index_sound; [| |exact IH|exact Hstep].
    + by apply reachable_queue_shape.
    + by apply reachable_matches_ok.
Qed.

(** X12. In every reachable state the index [playerToMatch] never dangles:
    when [getPlayerStats] reports [inMatch] for a user, the [matchId] it
    returns is the id of a match that is in the table and has that user on
    its roster. *)
Theorem reachable_player_stats_match (w : World) (userId : string) :
  reachable w →
  PlayerStats.inMatch (getPlayerStats userId (mm w)) = true →
  ∃ matchId m,
    PlayerStats.matchId (getPlayerStats userId (mm w)) = Some matchId
    ∧ getMatchStatus matchId (mm w) = Some m
    ∧ is_Some (jsmap_get userId (GameMatch.players m)).
Proof.
  intros Hr Hin. simpl in *. apply map_has_true in Hin as [k Hk].
  destruct (reachable_index_sound w Hr userId k Hk) as (m & Hm & Hon).
  by exists k, m.
Qed.

Lemma reachable_player_stats_match_witness :
  ∃ m, getMatchStatus "m1" (mm (world_after trace_paired)) = Some m
     ∧ is_Some (jsmap_get "B" (GameMatch.players m)).
Proof.
  destruct (reachable_player_stats_match (world_after trace_paired) "B")
    as (k & m & Hk & Hm & Hon).
  - apply reachable_world_after. by eexists.
  - reflexivity.
  - vm_compute in Hk. injection Hk as <-. by exists m.
Defined.

(** ** Error replies *)

Lemma no_error_map {A} (f : A → Effect) (l : list A) :
  (∀ x, is_error (f x) = false) → no_error (map f l).
Proof. intros Hf. apply Forall_fmap, Forall_forall. intros x _. apply Hf. Qed.

Lemma no_error_app eff1 eff2 : no_error eff1 → no_error eff2 → no_error (eff1 ++ eff2).
Proof. intros H1 H2. apply Forall_app. by split. Qed.

Lemma refused_intro socket s msg :
  msg ∈ error_messages → refused socket s (s, [Emit (ToSocket socket) (error msg)]).
Proof. intros Hmsg. split; [done|]. by exists msg. Qed.

Lemma startMatch_no_error now matchId s : no_error (startMatch now matchId s).2.
Proof.
  unfold startMatch. destruct (jsmap_get matchId (matches s)); [|constructor].
  simpl. apply no_error_app; [by apply no_error_map|by repeat constructor].
Qed.

Lemma endMatch_no_error now matchId s : no_error (endMatch now matchId s).2.
Proof.
  destruct (jsmap_get matchId (matches s)) as [m|] eqn:Hm.
  - rewrite (endMatch_effects now matchId s m Hm).
    apply no_error_app; [by apply no_error_map|by repeat constructor].
  - rewrite (endMatch_absent now matchId s Hm). constructor.
Qed.

Lemma createMatch_no_error uuid s : no_error (createMatch uuid s).2.
Proof.
  unfold createMatch. destruct (_ <? _)%nat; [constructor|].
  destruct (foldl _ _ _) as [players s1]. simpl.
  apply no_error_app; [by apply no_error_map|by repeat constructor].
Qed.

Lemma handleJoinQueue_reply uuid socket userId username s :
  refused socket s (handleJoinQueue uuid socket userId username s)
  ∨ no_error (handleJoinQueue uuid socket userId username s).2.
Proof.
  unfold handleJoinQueue.
  destruct (map_has userId (playerToMatch s));
    [left; apply refused_intro; set_solver|].
  destruct (map_has userId (playerQueue s));
    [left; apply refused_intro; set_solver|].
  right. destruct (_ <=? _)%nat; [|by repeat constructor].
  set (s1 := mkMatchmaker _ _ _ _).
  pose proof (createMatch_no_error uuid s1) as H.
  destruct (createMatch uuid s1) as [s2 eff2]. simpl in *.
  by repeat constructor.
Qed.

Lemma handleLeaveQueue_reply socket userId s :
  refused socket s (handleLeaveQueue socket userId s)
  ∨ no_error (handleLeaveQueue socket userId s).2.
Proof.
  unfold handleLeaveQueue.
  destruct (negb _); [left; apply refused_intro; set_solver|].
  right. by repeat constructor.
Qed.

Lemma handlePlayerReady_reply now socket userId matchId s :
  refused socket s (handlePlayerReady now socket userId matchId s)
  ∨ no_error (handlePlayerReady now socket userId matchId s).2.
Proof.
  unfold handlePlayerReady.
  destruct (jsmap_get matchId (matches s)) as [m|];
    [|left; apply refused_intro; set_solver].
  destruct (jsmap_get userId (GameMatch.players m)) as [p|];
    [|left; apply refused_intro; set_solver].
  right. destruct (_ && _); [apply startMatch_no_error|constructor].
Qed.

Lemma handleTap_reply now socket userId matchId ts s :
  refused socket s (handleTap now socket userId matchId ts s)
  ∨ no_error (handleTap now socket userId matchId ts s).2.
Proof.
  unfold handleTap.
  destruct (jsmap_get matchId (matches s)) as [m|];
    [|left; apply refused_intro; set_solver].
  destruct (negb _); [left; apply refused_intro; set_solver|].
  destruct (jsmap_get userId (GameMatch.players m)) as [p|];
    [|left; apply refused_intro; set_solver].
  destruct (validateTap now p ts) as [ok p1].
  destruct ok; simpl; [|left; apply refused_intro; set_solver].
  right. by repeat constructor.
Qed.

Lemma handleDisconnect_no_error now socket s :
  no_error (handleDisconnect now socket s).2.
Proof.
  unfold handleDisconnect.
  apply (foldl_preserves (λ a, no_error a.2)); [|constructor].
  intros a k Ha. unfold disconnect_match.
  destruct (jsmap_get k (matches a.1)) as [m|]; [|done].
  apply (foldl_preserves (λ b, no_error b.2)); [|done].
  intros [s1 eff1] [pid pl] Hb. unfold disconnect_match_entry.
  destruct (decide _); [|done].
  destruct (jsmap_get k (matches s1)) as [m1|]; [|done].
  set (s2 := mkMatchmaker _ _ _ _). simpl in Hb.
  destruct (_ =? _)%nat.
  - pose proof (endMatch_no_error now k s2) as He.
    destruct (endMatch now k s2) as [s3 eff3]. simpl in *.
    apply no_error_app; [done|]. apply no_error_app; [|done].
    by apply no_error_map.
  - simpl. apply no_error_app; [done|]. by apply no_error_map.
Qed.

Lemma no_error_scheduled_refused now socket s r :
  refused socket s r → scheduled now r.2 = [].
Proof. intros (_ & msg & _ & ->). done. Qed.

(** X13. A turn of the event loop that sends an error does nothing else: the
    whole state, with the pending timers, is as it was, the error is the only
    effect of the turn, it goes to the socket whose message was being served,
    and its text is one of the seven messages of the class.  Turns that serve
    a disconnect or a timer never send an error. *)
Theorem step_error_is_refusal (now : Z) (i : Input) (w w' : World)
    (eff : list Effect) (target : Target) (message : string) :
  step now i w = Some (w', eff) →
  Emit target (error message) ∈ eff →
  w' = w
  ∧ eff = [Emit target (error message)]
  ∧ message ∈ error_messages
  ∧ ∃ socket, sender i = Some socket ∧ target = ToSocket socket.
Proof.
  intros Hstep Hin.
  assert (∀ r socket, eff = r.2 → w' = mkWorld r.1 (timers w ++ scheduled now r.2)
                                         (detached w) →
            sender i = Some socket →
            refused socket (mm w) r ∨ no_error r.2 →
            w' = w ∧ eff = [Emit target (error message)]
            ∧ message ∈ error_messages
            ∧ ∃ socket, sender i = Some socket ∧ target = ToSocket socket) as Hreply.
  { intros r socket -> -> Hsender [(Hs & msg & Hmsg & Heff)|Hquiet].
    - rewrite Heff in Hin |- *. apply list_elem_of_singleton in Hin.
      injection Hin as -> ->. rewrite Hs. simpl. rewrite app_nil_r.
      split; [by destruct w|]. split; [done|]. split; [done|]. by exists socket.
    - unfold no_error in Hquiet. rewrite Forall_forall in Hquiet.
      by specialize (Hquiet _ Hin). }
  assert (no_error eff → False) as Hquiet.
  { intros H. unfold no_error in H. rewrite Forall_forall in H.
    by specialize (H _ Hin). }
  destruct i; simpl in Hstep.
  - destruct (fresh_uuid uuid w); [|done]. injection Hstep as <- <-.
    eapply Hreply; [done|done|done|apply handleJoinQueue_reply].
  - injection Hstep as <- <-.
    eapply Hreply; [done|done|done|apply handleLeaveQueue_reply].
  - injection Hstep as <- <-.
    eapply Hreply; [done|done|done|apply handlePlayerReady_reply].
  - injection Hstep as <- <-.
    eapply Hreply; [done|done|done|apply handleTap_reply].
  - injection Hstep as <- <-. destruct Hquiet. apply handleDisconnect_no_error.
  - destruct (timers w !! i) as [[due cb]|]; [|done].
    destruct (due <=? now); [|done]. destruct Hquiet.
    destruct cb as [id|id|id]; simpl in Hstep.
    + pose proof (startMatch_no_error now id (mm w)) as H.
      destruct (startMatch now id (mm w)) as [s1 e1]. by injection Hstep as <- <-.
    + pose proof (endMatch_no_error now id (mm w)) as H.
      destruct (endMatch now id (mm w)) as [s1 e1]. by injection Hstep as <- <-.
    + destruct (captured id w); injection Hstep as <- <-; constructor.
Qed.

Lemma step_error_is_refusal_witness :
  step 20 (OnJoinQueue "m7" "sa" "A" "alice") (world_after trace_paired)
  = Some (world_after trace_paired,
          [Emit (ToSocket "sa") (error "Already in a match")]).
Proof.
  destruct (step 20 (OnJoinQueue "m7" "sa" "A" "alice") (world_after trace_paired))
    as [[w' eff]|] eqn:Hstep; [|by vm_compute in Hstep].
  destruct (step_error_is_refusal 20 (OnJoinQueue "m7" "sa" "A" "alice")
              (world_after trace_paired) w' eff (ToSocket "sa") "Already in a match"
              Hstep) as (-> & -> & _).
  - vm_compute in Hstep. injection Hstep as <- <-. left.
  - reflexivity.
Defined.

(** ** One winner in the results *)

Lemma result_entry_not_winner idp (l : list Player.t) :
  Forall (λ q, Player.id q ≠ idp) l →
  filter (λ r, ResultEntry.isWinner r = true) (map (result_entry (Some idp)) l) = [].
Proof.
  induction 1 as [|q r Hq Hr IH]; [done|]. simpl.
  rewrite filter_cons_False; [done|]. simpl.
  rewrite bool_decide_eq_true. by intros [= ?].
Qed.

Lemma roster_ids_NoDup (l : JSMap Player.t) :
  roster_ok l → NoDup (Player.id <$> jsmap_values l).
Proof.
  intros (_ & Hnd & Hall). unfold jsmap_keys, jsmap_values in *.
  assert (Player.id <$> l.*2 = l.*1) as ->; [|done].
  rewrite <- list_fmap_compose. apply list_eq_Forall2, Forall2_fmap, Forall_Forall2_diag.
  eapply Forall_impl; [exact Hall|]. by intros [k p] [Hid _].
Qed.

(** X14. In a reachable state, [endMatch] on a match with a non-empty roster
    flags exactly one entry of the results it sends as the winner: the entry
    of the roster player whose id it records as the winner of the match. *)
Theorem endMatch_flags_one_winner (now : Z) (matchId : string) (w : World)
    (m : GameMatch.t) :
  reachable w →
  match_of matchId w = Some m →
  GameMatch.players m ≠ [] →
  ∃ p results,
    jsmap_get (Player.id p) (GameMatch.players m) = Some p
    ∧ (GameMatch.winner <$> jsmap_get matchId (matches (endMatch now matchId (mm w)).1))
      = Some (Some (Player.id p))
    ∧ (endMatch now matchId (mm w)).2
      = map (λ player,
               Emit (IoTo (Player.socketId player))
                 (match_ended matchId results (Some (Player.id p))))
          (jsmap_values (GameMatch.players m))
        ++ [SetTimeout (CleanupCb matchId) 5000]
    ∧ length results = length (GameMatch.players m)
    ∧ filter (λ r, ResultEntry.isWinner r = true) results
      = [result_entry (Some (Player.id p)) p].
Proof.
  intros Hr Hm Hne. unfold match_of in Hm.
  destruct (reachable_matches_ok w Hr matchId m Hm) as (_ & _ & Hroster & _).
  pose proof (roster_ids_NoDup _ Hroster) as Hids.
  destruct Hroster as (_ & Hnd & Hall).
  assert (Forall (λ q, 0 ≤ Player.validatedTaps q) (jsmap_values (GameMatch.players m)))
    as Hnn.
  { unfold jsmap_values. apply Forall_fmap. eapply Forall_impl; [exact Hall|].
    by intros [k q] (_ & _ & Hq & _). }
  pose proof (endMatch_winner_first_max (GameMatch.players m) Hnn) as Hwin.
  destruct (jsmap_values (GameMatch.players m)) as [|q0 qs] eqn:Hvals.
  { unfold jsmap_values in Hvals. apply fmap_nil_inv in Hvals. done. }
  destruct Hwin as (l1 & p & l2 & Hsplit & Hwinner & _).
  rewrite Hsplit in Hids.
  exists p, (endMatch_results (GameMatch.players m) (Some (Player.id p))).
  split; [|split; [|split; [|split]]].
  - assert (p ∈ jsmap_values (GameMatch.players m)) as Hin.
    { rewrite Hvals, Hsplit. apply elem_of_app. right. left. }
    unfold jsmap_values in Hin. apply list_elem_of_fmap in Hin as ([k p'] & -> & Hin).
    rewrite Forall_forall in Hall. destruct (Hall _ Hin) as [Hid _]. simpl in *.
    rewrite Hid. by apply jsmap_get_elem_NoDup.
  - rewrite endMatch_matches, Hm, jsmap_get_set_eq. simpl. by rewrite Hwinner.
  - rewrite (endMatch_effects now matchId (mm w) m Hm). simpl.
    by rewrite Hwinner, Hvals.
  - unfold endMatch_results.
    rewrite (Permutation_length (js_sort_perm ResultEntry.taps _)).
    rewrite length_map. unfold jsmap_values. by rewrite length_fmap.
  - unfold endMatch_results. apply Permutation_singleton_r.
    rewrite (js_sort_perm ResultEntry.taps). rewrite Hvals, Hsplit.
    change (map (λ p0, ResultEntry.mk (Player.id p0) (Player.username p0)
                         (Player.validatedTaps p0)
                         (bool_decide (Some (Player.id p0) = Some (Player.id p)))))
      with (map (result_entry (Some (Player.id p)))).
    rewrite map_app, filter_app. simpl.
    rewrite fmap_app, fmap_cons in Hids. apply NoDup_app in Hids as (_ & Hl1 & Hl2).
    apply NoDup_cons in Hl2 as [Hp2 _].
    rewrite result_entry_not_winner.
    2: { apply Forall_forall. intros q Hq Heq. apply (Hl1 (Player.id q)).
         - by apply list_elem_of_fmap_2.
         - rewrite Heq. left. }
    rewrite filter_cons_True by (simpl; by rewrite bool_decide_eq_true).
    rewrite result_entry_not_winner; [done|].
    apply Forall_forall. intros q Hq Heq. apply Hp2. rewrite <- Heq.
    by apply list_elem_of_fmap_2.
Qed.

Lemma endMatch_flags_one_winner_witness :
  ∃ results,
    (endMatch 32010 "m1" (mm (world_after trace_tie))).2
    = [Emit (IoTo "sa") (match_ended "m1" results (Some "A"));
       Emit (IoTo "sb") (match_ended "m1" results (Some "A"));
       SetTimeout (CleanupCb "m1") 5000]
    ∧ filter (λ r, ResultEntry.isWinner r = true) results
      = [ResultEntry.mk "A" "alice" 1 true].
Proof.
  destruct (match_of "m1" (world_after trace_tie)) as [m|] eqn:Hm;
    [|by vm_compute in Hm].
  destruct (endMatch_flags_one_winner 32010 "m1" (world_after trace_tie) m)
    as (p & results & Hp & Hw & Heff & _ & Hflag).
  - apply reachable_world_after. by eexists.
  - exact Hm.
  - vm_compute in Hm. by injection Hm as <-.
  - assert ((GameMatch.winner <$>
               jsmap_get "m1" (matches (endMatch 32010 "m1" (mm (world_after trace_tie))).1))
            = Some (Some "A")) as Hw' by (by vm_compute).
    rewrite Hw' in Hw. injection Hw as Hid.
    vm_compute in Hm. injection Hm as <-.
    rewrite <- Hid in Hp, Heff, Hflag. vm_compute in Hp. injection Hp as <-.
    exists results. split; [exact Heff|exact Hflag].
Defined.

(** ** Timers *)

Lemma timer_ok_map {A} (f : A → Effect) (l : list A) :
  (∀ x, timer_ok (f x)) → Forall timer_ok (map f l).
Proof. intros Hf. apply Forall_fmap, Forall_forall. intros x _. apply Hf. Qed.

Lemma startMatch_timers now matchId s :
  durations_ok s → Forall timer_ok (startMatch now matchId s).2.
Proof.
  intros Hd. unfold startMatch.
  destruct (jsmap_get matchId (matches s)) as [m|] eqn:Hm; [|constructor].
  simpl. apply Forall_app. split; [by apply timer_ok_map|].
  apply Forall_singleton. simpl. by apply (Hd matchId).
Qed.

Lemma endMatch_timers now matchId s : Forall timer_ok (endMatch now matchId s).2.
Proof.
  destruct (jsmap_get matchId (matches s)) as [m|] eqn:Hm.
  - rewrite (endMatch_effects now matchId s m Hm).
    apply Forall_app. split; [by apply timer_ok_map|by apply Forall_singleton].
  - rewrite (endMatch_absent now matchId s Hm). constructor.
Qed.

Lemma handleJoinQueue_timers uuid socket userId username s :
  Forall timer_ok (handleJoinQueue uuid socket userId username s).2.
Proof.
  unfold handleJoinQueue.
  destruct (map_has userId (playerToMatch s)); [by repeat constructor|].
  destruct (map_has userId (playerQueue s)); [by repeat constructor|].
  destruct (_ <=? _)%nat; [|by repeat constructor].
  set (s1 := mkMatchmaker _ _ _ _). unfold createMatch.
  destruct (_ <? _)%nat; [by repeat constructor|].
  destruct (foldl _ _ _) as [players s2]. simpl.
  repeat (apply Forall_cons; split; [done|]).
  apply Forall_app. split; [by apply timer_ok_map|by apply Forall_singleton].
Qed.

Lemma handlePlayerReady_timers now socket userId matchId s :
  durations_ok s → Forall timer_ok (handlePlayerReady now socket userId matchId s).2.
Proof.
  intros Hd. unfold handlePlayerReady.
  destruct (jsmap_get matchId (matches s)) as [m|] eqn:Hm; [|by repeat constructor].
  destruct (jsmap_get userId (GameMatch.players m)) as [p|]; [|by repeat constructor].
  destruct (_ && _); [|constructor].
  apply startMatch_timers. intros k mk. simpl. rewrite jsmap_get_set.
  destruct (decide (k = matchId)) as [->|Hne]; [|apply Hd].
  intros [= <-]. simpl. by apply (Hd matchId).
Qed.

Lemma handleTap_timers now socket userId matchId ts s :
  Forall timer_ok (handleTap now socket userId matchId ts s).2.
Proof.
  unfold handleTap.
  destruct (jsmap_get matchId (matches s)) as [m|]; [|by repeat constructor].
  destruct (negb _); [by repeat constructor|].
  destruct (jsmap_get userId (GameMatch.players m)) as [p|]; [|by repeat constructor].
  destruct (validateTap now p ts) as [ok p1]. destruct ok; by repeat constructor.
Qed.

Lemma handleDisconnect_timers now socket s :
  Forall timer_ok (handleDisconnect now socket s).2.
Proof.
  unfold handleDisconnect.
  apply (foldl_preserves (λ a, Forall timer_ok a.2)); [|constructor].
  intros a k Ha. unfold disconnect_match.
  destruct (jsmap_get k (matches a.1)) as [m|]; [|done].
  apply (foldl_preserves (λ b, Forall timer_ok b.2)); [|done].
  intros [s1 eff1] [pid pl] Hb. unfold disconnect_match_entry.
  destruct (decide _); [|done].
  destruct (jsmap_get k (matches s1)) as [m1|]; [|done].
  set (s2 := mkMatchmaker _ _ _ _). simpl in Hb.
  destruct (_ =? _)%nat.
  - pose proof (endMatch_timers now k s2) as He.
    destruct (endMatch now k s2) as [s3 eff3]. simpl in *.
    apply Forall_app. split; [done|]. apply Forall_app. split; [|done].
    by apply timer_ok_map.
  - simpl. apply Forall_app. split; [done|]. by apply timer_ok_map.
Qed.

Lemma step_timers now i w w' eff :
  durations_ok (mm w) → step now i w = Some (w', eff) →
  Forall timer_ok eff ∧ ∃ ts, timers w' = ts ++ scheduled now eff.
Proof.
  intros Hd. destruct i; simpl.
  - destruct (fresh_uuid uuid w); [|done]. intros [= <- <-].
    split; [apply handleJoinQueue_timers|by eexists].
  - intros [= <- <-]. split; [|by eexists]. unfold handleLeaveQueue.
    destruct (negb _); by repeat constructor.
  - intros [= <- <-]. split; [by apply handlePlayerReady_timers|by eexists].
  - intros [= <- <-]. split; [apply handleTap_timers|by eexists].
  - intros [= <- <-]. split; [apply handleDisconnect_timers|by eexists].
  - destruct (timers w !! i) as [[due cb]|]; [|done].
    destruct (due <=? now); [|done].
    destruct cb as [id|id|id]; simpl.
    + pose proof (startMatch_timers now id (mm w) Hd) as H.
      destruct (startMatch now id (mm w)) as [s1 e1]. intros [= <- <-].
      split; [done|by eexists].
    + pose proof (endMatch_timers now id (mm w)) as H.
      destruct (endMatch now id (mm w)) as [s1 e1]. intros [= <- <-].
      split; [done|by eexists].
    + destruct (captured id w); intros [= <- <-]; (split; [constructor|by eexists]).
Qed.

(** X15. Every timer set by a turn of the event loop from a reachable state
    has the delay of its kind: 2000 ms for the start of a match, 30000 ms
    (the duration of the match, which is [MATCH_DURATION] for every match)
    for its end, 5000 ms for its clean-up; and it is pending after the turn,
    due at the server time of the turn plus that delay. *)
Theorem step_timer_delays (now : Z) (i : Input) (w w' : World) (eff : list Effect)
    (cb : Callback) (delay : Z) :
  reachable w →
  step now i w = Some (w', eff) →
  SetTimeout cb delay ∈ eff →
  delay = match cb with
          | StartMatchCb _ => 2000
          | EndMatchCb _ => 30000
          | CleanupCb _ => 5000
          end
  ∧ (now + delay, cb) ∈ timers w'.
Proof.
  intros Hr Hstep Hin.
  destruct (step_timers now i w w' eff) as (Hok & ts & Hts); [|done|].
  { intros id m Hm. by destruct (reachable_matches_ok w Hr id m Hm) as (_ & Hd & _). }
  rewrite Forall_forall in Hok. specialize (Hok _ Hin). simpl in Hok. split.
  - rewrite Hok. by destruct cb.
  - rewrite Hts. apply elem_of_app. right. unfold scheduled.
    apply list_elem_of_omap. by exists (SetTimeout cb delay).
Qed.

Lemma step_timer_delays_witness :
  (2010 + 30000, EndMatchCb "m1") ∈ timers (world_after trace_started).
Proof.
  destruct (step_timer_delays 2010 (OnTimeout 0%nat) (world_after trace_paired)
              (world_after trace_started)
              (effects_of [(2010, OnTimeout 0%nat)] (world_after trace_paired))
              (EndMatchCb "m1") 30000) as [_ Hin].
  - apply reachable_world_after. by eexists.
  - reflexivity.
  - vm_compute. do 2 right. left.
  - exact Hin.
Defined.

(** ** The ids of the match table *)

Lemma jsmap_keys_set_present {V} k (v : V) (m : JSMap V) :
  is_Some (jsmap_get k m) → jsmap_keys (jsmap_set k v m) = jsmap_keys m.
Proof.
  unfold jsmap_keys. induction m as [|[k' v'] r IH]; simpl.
  - by intros [? ?].
  - destruct (decide (k = k')) as [->|Hne]; simpl; [done|].
    intros H. f_equal. by apply IH.
Qed.

Lemma jsmap_keys_delete {V} k (m : JSMap V) :
  jsmap_keys (jsmap_delete k m) = filter (.≠ k) (jsmap_keys m).
Proof.
  unfold jsmap_keys. induction m as [|[k' v'] r IH]; simpl; [done|].
  destruct (decide (k = k')) as [->|Hne].
  - rewrite filter_cons_False by (intros H; by apply H). exact IH.
  - rewrite filter_cons_True by (by intros ->). simpl. f_equal. exact IH.
Qed.

Lemma updates_one_keys R matchId s s' :
  updates_one R matchId s s' → jsmap_keys (matches s') = jsmap_keys (matches s).
Proof.
  intros [->|(m & m' & Hm & -> & _)]; [done|].
  apply jsmap_keys_set_present. by rewrite Hm.
Qed.

Lemma endMatch_keys now matchId s :
  jsmap_keys (matches (endMatch now matchId s).1) = jsmap_keys (matches s).
Proof. eapply updates_one_keys, endMatch_updates. Qed.

Lemma handleDisconnect_keys now socket s :
  jsmap_keys (matches (handleDisconnect now socket s).1) = jsmap_keys (matches s).
Proof.
  unfold handleDisconnect.
  destruct (disconnect_queue_matches socket s) as [Hm _].
  set (s1 := foldl (disconnect_queue_entry socket) s (queue s)) in *.
  rewrite <- Hm.
  apply (foldl_preserves
           (λ a, jsmap_keys (matches a.1) = jsmap_keys (matches s1))); [|done].
  intros a k Ha. unfold disconnect_match.
  destruct (jsmap_get k (matches a.1)) as [m|]; [|done].
  apply (foldl_preserves
           (λ b, jsmap_keys (matches b.1) = jsmap_keys (matches s1))); [|done].
  intros [s2 eff2] [pid pl] Hb. unfold disconnect_match_entry.
  destruct (decide _); [|done].
  destruct (jsmap_get k (matches s2)) as [m2|] eqn:Hm2; [|done].
  set (s3 := mkMatchmaker _ _ _ _). simpl in Hb.
  assert (jsmap_keys (matches s3) = jsmap_keys (matches s1)) as H3.
  { simpl. rewrite jsmap_keys_set_present; [done|]. by rewrite Hm2. }
  destruct (_ =? _)%nat; [|done].
  pose proof (endMatch_keys now k s3) as He.
  destruct (endMatch now k s3) as [s4 eff4]. simpl in *. by rewrite He.
Qed.

Lemma filter_ne_length (k : string) (l : list string) :
  NoDup l → k ∈ l → S (length (filter (.≠ k) l)) = length l.
Proof.
  induction 1 as [|x r Hx Hnd IH]; [by intros ?%elem_of_nil|].
  intros [->|Hin]%elem_of_cons.
  - rewrite filter_cons_False by (intros H; by apply H). simpl. f_equal.
    f_equal. apply filter_Forall_id. apply Forall_forall. by intros y Hy ->.
  - rewrite filter_cons_True by (by intros ->). simpl. f_equal. by apply IH.
Qed.

Lemma step_table_move now i w w' eff :
  NoDup (jsmap_keys (matches (mm w))) →
  step now i w = Some (w', eff) → TableMove w i w'.
Proof.
  intros Hnd. destruct i; simpl.
  - destruct (fresh_uuid uuid w) eqn:Hfresh; [|done]. intros [= <- _].
    apply andb_true_iff in Hfresh as [Hfresh _]. unfold jsmap_has in Hfresh.
    destruct (jsmap_get uuid (matches (mm w))) eqn:Hget; [done|].
    destruct (handleJoinQueue_matches uuid socket userId username (mm w))
      as [Hsame|[players Hnew]].
    + apply table_kept. simpl. by rewrite Hsame.
    + eapply table_paired; [done|by apply jsmap_get_None_keys|].
      simpl. rewrite Hnew, jsmap_set_fresh by done.
      unfold jsmap_keys. by rewrite fmap_app.
  - intros [= <- _]. apply table_kept. simpl. by rewrite handleLeaveQueue_matches.
  - intros [= <- _]. apply table_kept. simpl.
    eapply updates_one_keys, handlePlayerReady_updates.
  - intros [= <- _]. apply table_kept. simpl.
    eapply updates_one_keys, handleTap_updates.
  - intros [= <- _]. apply table_kept. simpl. apply handleDisconnect_keys.
  - destruct (timers w !! i) as [[due cb]|] eqn:Ht; [|done].
    destruct (due <=? now); [|done].
    destruct cb as [id|id|id]; simpl.
    + pose proof (startMatch_updates now id (mm w)) as Hu.
      destruct (startMatch now id (mm w)) as [s1 e1]. intros [= <- _].
      apply table_kept. simpl in *. by eapply updates_one_keys.
    + pose proof (endMatch_keys now id (mm w)) as Hu.
      destruct (endMatch now id (mm w)) as [s1 e1]. intros [= <- _].
      by apply table_kept.
    + unfold captured.
      destruct (jsmap_get id (matches (mm w))) as [m|] eqn:Hlive.
      * intros [= <- _].
        assert (id ∈ jsmap_keys (matches (mm w))) as Hin.
        { apply jsmap_get_is_Some_keys. by rewrite Hlive. }
        eapply table_cleaned; [done|exact Ht|exact Hin| |]; simpl.
        -- unfold cleanup. cbn [matches]. apply jsmap_keys_delete.
        -- unfold getActiveMatches, jsmap_size.
           assert (∀ t : JSMap GameMatch.t, length t = length (jsmap_keys t)) as Hlen.
           { intros t. unfold jsmap_keys. by rewrite length_fmap. }
           rewrite !Hlen. unfold cleanup. cbn [matches].
           rewrite jsmap_keys_delete. by apply filter_ne_length.
      * destruct (jsmap_get id (detached w)); intros [= <- _]; [|by apply table_kept].
        apply table_kept. simpl. by rewrite jsmap_delete_absent.
Qed.

Lemma TableMove_NoDup w i w' :
  NoDup (jsmap_keys (matches (mm w))) → TableMove w i w' →
  NoDup (jsmap_keys (matches (mm w'))).
Proof.
  intros Hnd [->|? ? ? ? _ Hfresh ->|? ? ? _ _ _ -> _]; [done| |].
  - apply NoDup_app. split; [done|]. split; [|apply NoDup_singleton].
    by intros x Hx ->%list_elem_of_singleton.
  - apply (sublist_NoDup _ _ Hnd), sublist_filter.
Qed.

Lemma reachable_table_NoDup w : reachable w → NoDup (jsmap_keys (matches (mm w))).
Proof.
  induction 1 as [|now i w w' eff Hr IH Hstep]; [constructor|].
  eapply TableMove_NoDup; [exact IH|]. by eapply step_table_move.
Qed.

(** X16. The ids of the match table are distinct in every reachable state,
    and a turn of the event loop changes the list of ids in one of two ways
    only: a join that pairs two players appends the fresh id (so the table
    is in order of creation), and the clean-up timer of a match that is in
    the table removes its id, which lowers [getActiveMatches] by one.  Every
    other turn, be it a start, an end or a disconnect that ends matches,
    leaves the ids as they are: a finished match counts as active until
    its clean-up. *)
Theorem step_table_ids (now : Z) (i : Input) (w w' : World) (eff : list Effect) :
  reachable w →
  step now i w = Some (w', eff) →
  NoDup (jsmap_keys (matches (mm w)))
  ∧ NoDup (jsmap_keys (matches (mm w')))
  ∧ TableMove w i w'.
Proof.
  intros Hr Hstep. pose proof (reachable_table_NoDup w Hr) as Hnd.
  pose proof (step_table_move now i w w' eff Hnd Hstep) as Hmove.
  split; [done|]. split; [by eapply TableMove_NoDup|done].
Qed.

Lemma step_table_ids_witness :
  getActiveMatches (mm (world_after trace_ended)) = 1%nat
  ∧ TableMove (world_after trace_started) (OnTap "sa" "A" "m1" 2100)
      (world_after (trace_started ++ [(2100, OnTap "sa" "A" "m1" 2100)])).
Proof.
  split; [reflexivity|].
  destruct (step_table_ids 2100 (OnTap "sa" "A" "m1" 2100)
              (world_after trace_started)
              (world_after (trace_started ++ [(2100, OnTap "sa" "A" "m1" 2100)]))
              (effects_of [(2100, OnTap "sa" "A" "m1" 2100)] (world_after trace_started)))
    as (_ & _ & Hmove).
  - apply reachable_world_after. by eexists.
  - reflexivity.
  - exact Hmove.
Defined.
